(** * The wall renderer: grid planner, download pool, file cache, route handler

    A shallow embedding of the Go program (imageprocessor.go, the worker
    pool, the file cache and the route handler of main) together with the
    properties its design document states about them, and with further
    properties of the same code: the room of a grid and the place of its
    tiles, the end of the pool's goroutines, the steps of the atomic
    write, the purge of the cache, its mutex, and the first version of
    the handler, which the second one refines where their imaging
    libraries agree.

    Conventions.
    - Go's [int] is the 64-bit two's-complement integer: a [Z] that every
      arithmetic operation wraps back into [-2^63, 2^63).
    - Go's [float64] is an interface ([Float64]) with two implementations:
      [ieee], the binary64 numbers of the kernel, with which the code is
      evaluated on concrete inputs; and [exact], rational arithmetic without
      rounding.  General theorems are proved for every implementation that
      satisfies [Float64Laws], three facts on quotients of integers below
      2^53.
    - [error] values are their messages, as [err.Error()] prints them. *)

From Stdlib Require Import ZArith QArith Qround Lia DecimalString Ascii.
From Stdlib Require Floats DecimalZ DecimalPos.
From stdpp Require Import base option list gmap strings.

(** * Part I: the program *)

(** ** Go's [int] *)

Module GoInt.
Local Open Scope Z_scope.

Definition min_int : Z := -9223372036854775808.
Definition max_int : Z := 9223372036854775807.

(** Reduction of a mathematical integer to its 64-bit two's-complement
    value; a value that fits is returned as it is. *)
Definition wrap (z : Z) : Z :=
  if (min_int <=? z) && (z <=? max_int) then z
  else (z + 2 ^ 63) mod 2 ^ 64 - 2 ^ 63.

Definition add (a b : Z) : Z := wrap (a + b).
Definition mul (a b : Z) : Z := wrap (a * b).

(** [a / b] truncates toward zero and panics (here: [None]) when [b] is 0. *)
Definition quo (a b : Z) : option Z :=
  if b =? 0 then None else Some (wrap (Z.quot a b)).

End GoInt.

(** ** Go's [float64], as far as the grid planner uses it *)

Class Float64 : Type := {
  float64 : Type;
  (** the literal [0.0] *)
  f64_zero : float64;
  (** the conversion [float64(n)] of an [int] *)
  f64_of_int : Z -> float64;
  (** [x / y] *)
  f64_div : float64 -> float64 -> float64;
  (** [x > y] *)
  f64_gt : float64 -> float64 -> bool;
  (** [int(math.Ceil(x))] *)
  f64_ceil_int : float64 -> Z
}.

Module IEEE.
Import Floats.
Local Open Scope Z_scope.

(** [float64(n)]: the binary64 number nearest to [n], ties to even. *)
Definition of_int (n : Z) : float :=
  SF2Prim (binary_normalize prec emax n 0 false).

(** [math.Ceil] followed by the conversion to [int].  A finite float is
    [(-1)^s * m * 2^e]; the conversion of a value that [int] cannot hold
    (infinities and NaN included) gives the smallest [int], as the amd64
    and arm64 conversions do. *)
Definition ceil_int (x : float) : Z :=
  match Prim2SF x with
  | S754_zero _ => 0
  | S754_finite s m e =>
      let n := if s then Z.neg m else Z.pos m in
      let v := if 0 <=? e then n * 2 ^ e else - ((- n) / 2 ^ (- e)) in
      if (GoInt.min_int <=? v) && (v <=? GoInt.max_int) then v else GoInt.min_int
  | _ => GoInt.min_int
  end.

End IEEE.

(** The binary64 implementation. *)
Definition ieee : Float64 := {|
  float64 := PrimFloat.float;
  f64_zero := PrimFloat.zero;
  f64_of_int := IEEE.of_int;
  f64_div := PrimFloat.div;
  f64_gt := fun x y => PrimFloat.ltb y x;
  f64_ceil_int := IEEE.ceil_int
|}.

(** Rational arithmetic without rounding. *)
Definition exact : Float64 := {|
  float64 := Q;
  f64_zero := 0%Q;
  f64_of_int := inject_Z;
  f64_div := Qdiv;
  f64_gt := fun x y => negb (Qle_bool x y);
  f64_ceil_int := Qceiling
|}.

(** What the planner needs of [float64]: on integers below 2^53 the
    conversion is exact and the quotient is the correctly rounded one, so
    the ceiling of [p / c] is the integer ceiling, and quotients over one
    denominator [b] compare as their numerators do (two of them differ by
    at least [1 / b], more than a rounding step below 1). *)
Class Float64Laws (F : Float64) : Prop := {
  f64_ceil_div : forall p c : Z,
    (1 <= c <= p)%Z -> (p < 2 ^ 53)%Z ->
    f64_ceil_int (f64_div (f64_of_int p) (f64_of_int c)) = ((p + c - 1) / c)%Z;
  f64_gt_div : forall a a' b : Z,
    (0 <= a <= b)%Z -> (0 <= a' <= b)%Z -> (0 < b < 2 ^ 53)%Z ->
    f64_gt (f64_div (f64_of_int a) (f64_of_int b))
           (f64_div (f64_of_int a') (f64_of_int b)) = (a' <? a)%Z;
  f64_gt_zero : forall a b : Z,
    (0 <= a <= b)%Z -> (0 < b < 2 ^ 53)%Z ->
    f64_gt (f64_div (f64_of_int a) (f64_of_int b)) f64_zero = (0 <? a)%Z
}.

(** ** imageprocessor.go *)

Module Grid.
Local Open Scope Z_scope.

Record GridDimensions : Type := {
  Cols : Z;
  Rows : Z;
  PicWidth : Z;
  PicHeight : Z
}.

(** The zero value of [GridDimensions]. *)
Definition zero_grid : GridDimensions :=
  {| Cols := 0; Rows := 0; PicWidth := 0; PicHeight := 0 |}.

Section Planner.
Context {F : Float64}.

(** The loop's variables: [bestFit] and the best arrangement so far. *)
Record Search : Type := {
  bestFit : float64;
  best : GridDimensions
}.

Definition search_init : Search :=
  {| bestFit := f64_zero; best := zero_grid |}.

Variables canvasWidth canvasHeight pictureCount : Z.

(** [float64(actualWidth*c*actualHeight*r) / float64(canvasWidth*canvasHeight)] *)
Definition utilization (actualWidth c actualHeight r : Z) : float64 :=
  f64_div
    (f64_of_int (GoInt.mul (GoInt.mul (GoInt.mul actualWidth c) actualHeight) r))
    (f64_of_int (GoInt.mul canvasWidth canvasHeight)).

(** [if utilization > bestFit { bestFit = ...; bestCols = c; ... }] *)
Definition consider (s : Search) (c r actualWidth actualHeight : Z) : Search :=
  let u := utilization actualWidth c actualHeight r in
  if f64_gt u (bestFit s) then
    {| bestFit := u;
       best := {| Cols := c; Rows := r;
                  PicWidth := actualWidth; PicHeight := actualHeight |} |}
  else s.

(** The body of the loop for one column count [c]; [None] is the run-time
    panic of an integer division by zero. *)
Definition grid_body (c : Z) (s : Search) : option Search :=
  let r := f64_ceil_int (f64_div (f64_of_int pictureCount) (f64_of_int c)) in
  tempWidth ← GoInt.quo canvasWidth c;
  tempHeight ← GoInt.quo canvasHeight r;
  if GoInt.mul 2 tempWidth <? tempHeight then
    (* width is the limiting factor *)
    let actualHeight := GoInt.mul 2 tempWidth in
    let actualWidth := tempWidth in
    if GoInt.mul actualHeight r <=? canvasHeight
    then Some (consider s c r actualWidth actualHeight)
    else Some s
  else
    (* height is the limiting factor *)
    let actualHeight := tempHeight in
    actualWidth ← GoInt.quo actualHeight 2;
    if GoInt.mul actualWidth c <=? canvasWidth
    then Some (consider s c r actualWidth actualHeight)
    else Some s.

(** [for c := 1; c <= pictureCount; c++]: [n] iterations are left, the
    next one is for [c]. *)
Fixpoint grid_loop (n : nat) (c : Z) (s : Search) : option Search :=
  match n with
  | O => Some s
  | S n' => s' ← grid_body c s; grid_loop n' (GoInt.add c 1) s'
  end.

Definition calculateOptimalGrid : option GridDimensions :=
  s ← grid_loop (Z.to_nat pictureCount) 1 search_init; Some (best s).

End Planner.

(** *** The search in mathematical integers

    What one iteration examines, written with unbounded integers and the
    integer ceiling: the arrangement for [c] columns when it passes the
    fit check of its branch.  [GridFacts.grid_body_spec] relates it to
    [grid_body]. *)

Definition rows_for (p c : Z) : Z := (p + c - 1) / c.

Definition candidate (W H p c : Z) : option GridDimensions :=
  let r := rows_for p c in
  let tempWidth := W / c in
  let tempHeight := H / r in
  if 2 * tempWidth <? tempHeight then
    if 2 * tempWidth * r <=? H
    then Some {| Cols := c; Rows := r;
                 PicWidth := tempWidth; PicHeight := 2 * tempWidth |}
    else None
  else
    if tempHeight / 2 * c <=? W
    then Some {| Cols := c; Rows := r;
                 PicWidth := tempHeight / 2; PicHeight := tempHeight |}
    else None.

(** The numerator of the utilization: the pixels that the tiles cover. *)
Definition area (g : GridDimensions) : Z :=
  PicWidth g * Cols g * PicHeight g * Rows g.

(** The utilization of [g] as a rational number. *)
Definition coverage (W H : Z) (g : GridDimensions) : Q :=
  (inject_Z (area g) / inject_Z (W * H))%Q.

(** No accepted candidate of the search range covers more than [g]. *)
Definition covers_most (W H p : Z) (g : GridDimensions) : Prop :=
  forall c g', 1 <= c <= p -> candidate W H p c = Some g' ->
               (coverage W H g' <= coverage W H g)%Q.

(** [g] is an accepted candidate, and the one of the smallest column count
    among those that cover as much as it does. *)
Definition first_of_the_best (W H p : Z) (g : GridDimensions) : Prop :=
  exists c0, 1 <= c0 <= p /\ candidate W H p c0 = Some g /\
    forall c g', 1 <= c <= p -> candidate W H p c = Some g' ->
                 (coverage W H g' == coverage W H g)%Q -> c0 <= c.

(** *** Binary64 and exact arithmetic, compared on an input *)

(** The search returns the same value with both. *)
Definition same_result (W H p : Z) : bool :=
  match calculateOptimalGrid (F := ieee) W H p,
        calculateOptimalGrid (F := exact) W H p with
  | Some g, Some g' =>
      (Cols g =? Cols g') && (Rows g =? Rows g')
      && (PicWidth g =? PicWidth g') && (PicHeight g =? PicHeight g')
  | None, None => true
  | _, _ => false
  end.

(** The instances of [f64_ceil_div] and [f64_gt_div] for binary64. *)
Definition ceil_ok (p c : Z) : bool :=
  @f64_ceil_int ieee (@f64_div ieee (@f64_of_int ieee p) (@f64_of_int ieee c))
  =? (p + c - 1) / c.

Definition gt_ok (b a a' : Z) : bool :=
  Bool.eqb
    (@f64_gt ieee (@f64_div ieee (@f64_of_int ieee a) (@f64_of_int ieee b))
                  (@f64_div ieee (@f64_of_int ieee a') (@f64_of_int ieee b)))
    (a' <? a).

(** *** The state of the search, as the proofs follow it *)

Section Tracking.
Context {F : Float64}.
Variables W H p : Z.

(** The state after a candidate [g] has been compared with the best so far. *)
Definition better (s : Search) (g : GridDimensions) : Search :=
  if area (best s) <? area g then
    {| bestFit := f64_div (f64_of_int (area g)) (f64_of_int (W * H)); best := g |}
  else s.

Definition pick (s : Search) (og : option GridDimensions) : Search :=
  match og with Some g => better s g | None => s end.

(** What the loop knows of its state. *)
Definition tracked (s : Search) : Prop :=
  s = search_init \/
  (0 < area (best s) <= W * H /\
   bestFit s = f64_div (f64_of_int (area (best s))) (f64_of_int (W * H))).

(** The state after the columns [1 .. k]: no candidate among them covers
    more than the best one, which is the first of those that cover most. *)
Definition scanned (k : Z) (s : Search) : Prop :=
  (forall c g, 1 <= c <= k -> candidate W H p c = Some g ->
               area g <= area (best s)) /\
  (s = search_init \/
   exists c0, 1 <= c0 <= k /\ candidate W H p c0 = Some (best s) /\
     0 < area (best s) /\
     bestFit s = f64_div (f64_of_int (area (best s))) (f64_of_int (W * H)) /\
     forall c g, 1 <= c < c0 -> candidate W H p c = Some g ->
                 area g < area (best s)).


End Tracking.

End Grid.

(** ** The worker pool *)

Module Pool.
Local Open Scope Z_scope.

Record ImageJob : Type := {
  Index : Z;
  UUID : string;
  URL : string;
  PicWidth : Z;
  PicHeight : Z
}.

Section WorkerPool.
Variable Image : Type.

(** [ImageResult]: [inl img] is a result with [Error == nil] and the
    resized image, [inr e] one with the error [e] and no image. *)
Record ImageResult : Type := {
  res_Index : Z;
  res_outcome : Image + string
}.

(** What [openRemoteImageWithTimeout(job.URL, 30*time.Second)] answers for
    a job: the decoded image or the error. *)
Variable fetch : ImageJob -> Image + string.
(** [imaging.Fill(img, w, h, imaging.Center, imaging.Lanczos)] *)
Variable imaging_Fill : Image -> Z -> Z -> Image.

Variable pictureUUIDs : list string.
Variable grid : Grid.GridDimensions.
Variable maxWorkers : Z.

(** [grid.Cols*grid.Rows] *)
Definition slots : Z := GoInt.mul (Grid.Cols grid) (Grid.Rows grid).

(** The capacity of both channels: [len(pictureUUIDs)]. *)
Definition capacity : nat := length pictureUUIDs.

Definition job_for (i : Z) (uuid : string) : ImageJob :=
  {| Index := i; UUID := uuid;
     URL := "https://api.imreally.gay/assets/" +:+ uuid;
     PicWidth := Grid.PicWidth grid; PicHeight := Grid.PicHeight grid |}.

(** The body of a worker's loop for one job. *)
Definition process (job : ImageJob) : ImageResult :=
  {| res_Index := Index job;
     res_outcome :=
       match fetch job with
       | inl img => inl (imaging_Fill img (PicWidth job) (PicHeight job))
       | inr e => inr e
       end |}.

(** [result.Error == nil] *)
Definition succeeded (r : ImageResult) : bool :=
  match res_outcome r with inl _ => true | inr _ => false end.

(** The body of the collector's loop for one result. *)
Definition collect (images : gmap Z Image) (r : ImageResult) : gmap Z Image :=
  match res_outcome r with
  | inr _ => images
  | inl img => <[res_Index r := img]> images
  end.

(** *** The goroutines, one step at a time *)

Inductive Worker : Type :=
| Idle                           (* at [for job := range jobs] *)
| Holding (r : ImageResult)      (* at [results <- ImageResult{...}] *)
| Exited.                        (* [jobs] was closed and empty *)

Record PoolState : Type := {
  (** the dispatcher: the index [i] and the rest of its range *)
  next : Z;
  pending : list string;
  (** the channel [jobs] and whether it has been closed *)
  jobs : list ImageJob;
  closed : bool;
  workers : list Worker;
  (** the channel [results] *)
  results : list ImageResult;
  (** the collector: its counter [i] and the map it fills *)
  collected : Z;
  images : gmap Z Image
}.

Definition pool_init : PoolState :=
  {| next := 0; pending := pictureUUIDs; jobs := []; closed := false;
     workers := replicate (Z.to_nat maxWorkers) Idle;
     results := []; collected := 0; images := ∅ |}.

(** The condition of the collector's loop. *)
Definition collecting (s : PoolState) : Prop :=
  collected s < Z.of_nat (length pictureUUIDs) /\ collected s < slots.

Inductive step : PoolState -> PoolState -> Prop :=
| step_send s uuid rest :
    closed s = false -> pending s = uuid :: rest ->
    next s < slots -> (length (jobs s) < capacity)%nat ->
    step s {| next := next s + 1; pending := rest;
              jobs := jobs s ++ [job_for (next s) uuid]; closed := closed s;
              workers := workers s; results := results s;
              collected := collected s; images := images s |}
| step_close s :
    closed s = false ->
    (pending s = [] \/ slots <= next s) ->
    step s {| next := next s; pending := pending s;
              jobs := jobs s; closed := true;
              workers := workers s; results := results s;
              collected := collected s; images := images s |}
| step_take s w job rest :
    workers s !! w = Some Idle -> jobs s = job :: rest ->
    step s {| next := next s; pending := pending s;
              jobs := rest; closed := closed s;
              workers := <[w := Holding (process job)]> (workers s);
              results := results s;
              collected := collected s; images := images s |}
| step_emit s w r :
    workers s !! w = Some (Holding r) ->
    (length (results s) < capacity)%nat ->
    step s {| next := next s; pending := pending s;
              jobs := jobs s; closed := closed s;
              workers := <[w := Idle]> (workers s);
              results := results s ++ [r];
              collected := collected s; images := images s |}
| step_exit s w :
    workers s !! w = Some Idle -> jobs s = [] -> closed s = true ->
    step s {| next := next s; pending := pending s;
              jobs := jobs s; closed := closed s;
              workers := <[w := Exited]> (workers s);
              results := results s;
              collected := collected s; images := images s |}
| step_collect s r rest :
    collecting s -> results s = r :: rest ->
    step s {| next := next s; pending := pending s;
              jobs := jobs s; closed := closed s;
              workers := workers s; results := rest;
              collected := collected s + 1; images := collect (images s) r |}.

(** *** The pool as a function

    The jobs that the dispatcher sends, and the map that the collector
    builds when the results arrive in the order of the jobs.
    [PoolFacts.pool_returns] shows that every interleaving of the
    goroutines returns this map (with one worker at least). *)

Fixpoint dispatch_from (i : Z) (uuids : list string) : list ImageJob :=
  match uuids with
  | [] => []
  | uuid :: rest =>
      if slots <=? i then [] else job_for i uuid :: dispatch_from (i + 1) rest
  end.

Definition downloadImagesWithWorkerPool : gmap Z Image :=
  foldl collect ∅ (process <$> dispatch_from 0 pictureUUIDs).

(** *** What the proofs follow *)

(** The jobs that the dispatcher has yet to send. *)
Definition unsent (s : PoolState) : list ImageJob :=
  dispatch_from (next s) (pending s).

(** The results that the workers hold. *)
Definition held (w : Worker) : list ImageResult :=
  match w with Holding r => [r] | _ => [] end.

Definition holding (ws : list Worker) : list ImageResult := ws ≫= held.

(** Every result is in one place: consumed by the collector, in the
    channel [results], in the hands of a worker, or still a job; the
    channel of the jobs is closed after the last job only, and a worker
    exits after that only. *)
Definition pool_inv (s : PoolState) : Prop :=
  (exists consumed : list ImageResult,
     consumed ++ results s ++ holding (workers s)
       ++ (process <$> jobs s) ++ (process <$> unsent s)
     ≡ₚ process <$> dispatch_from 0 pictureUUIDs /\
     images s = foldl collect ∅ consumed /\
     collected s = Z.of_nat (length consumed)) /\
  0 <= next s /\
  Z.of_nat (length (dispatch_from 0 pictureUUIDs))
  = next s + Z.of_nat (length (unsent s)) /\
  (closed s = true -> unsent s = []) /\
  (Exited ∈ workers s -> closed s = true /\ jobs s = []) /\
  length (workers s) = Z.to_nat maxWorkers.

(** A bound on the steps that are left. *)
Definition worker_fuel (w : Worker) : nat :=
  match w with Idle => 1 | Holding _ => 4 | Exited => 0 end.

Definition fuel (s : PoolState) : nat :=
  (if closed s then 0 else 5 * length (pending s) + 1)
  + 4 * length (jobs s)
  + sum_list (worker_fuel <$> workers s)
  + 2 * length (results s).

(** The result of the job at a position of [pictureUUIDs]. *)
Definition outcome_at (i : nat) (uuid : string) : option Image :=
  match fetch (job_for (Z.of_nat i) uuid) with
  | inl img => Some (imaging_Fill img (Grid.PicWidth grid) (Grid.PicHeight grid))
  | inr _ => None
  end.

(** The number of jobs: [min(len(pictureUUIDs), grid.Cols*grid.Rows)], and
    none when the product is negative. *)
Definition job_count : Z :=
  Z.max 0 (Z.min (Z.of_nat (length pictureUUIDs)) slots).

End WorkerPool.

Arguments res_Index {Image} _.
Arguments res_outcome {Image} _.
Arguments Idle {Image}.
Arguments Holding {Image} r.
Arguments Exited {Image}.
Arguments next {Image} _.
Arguments pending {Image} _.
Arguments jobs {Image} _.
Arguments closed {Image} _.
Arguments workers {Image} _.
Arguments results {Image} _.
Arguments collected {Image} _.
Arguments images {Image} _.
Arguments process {Image} fetch imaging_Fill job.
Arguments collect {Image} images r.
Arguments succeeded {Image} r.
Arguments pool_init {Image} pictureUUIDs maxWorkers.
Arguments collecting {Image} pictureUUIDs grid s.
Arguments step {Image} fetch imaging_Fill pictureUUIDs grid _ _.
Arguments downloadImagesWithWorkerPool {Image} fetch imaging_Fill pictureUUIDs grid.
Arguments unsent {Image} grid s.
Arguments held {Image} w.
Arguments holding {Image} ws.
Arguments pool_inv {Image} fetch imaging_Fill pictureUUIDs grid maxWorkers s.
Arguments worker_fuel {Image} w.
Arguments fuel {Image} s.
Arguments outcome_at {Image} fetch imaging_Fill grid i uuid.

End Pool.

(** ** The file cache *)

Module Cache.
Local Open Scope Z_scope.

(** A regular file of the cache directory: its bytes and its modification
    time, in nanoseconds. *)
Record File : Type := {
  content : list Byte.byte;
  modTime : Z
}.

(** The I/O errors of the operating system, other than "no such file": the
    message of the failing call, by path; a failing step of
    [writeFileAtomically] comes with the whole message, prefix included. *)
Record Faults : Type := {
  stat_fault : string -> option string;
  open_fault : string -> option string;
  read_fault : string -> option string;
  write_fault : option string
}.

Definition no_faults : Faults :=
  {| stat_fault := fun _ => None; open_fault := fun _ => None;
     read_fault := fun _ => None; write_fault := None |}.

Record FileCache : Type := {
  Dir : string;
  TTL : Z
}.

(** [NewFileCache]; [os_MkdirAll dir] is the error of
    [os.MkdirAll(dir, 0o755)], if there is one.  The directory that the
    call makes holds no file, so the files of the disk are as before. *)
Definition NewFileCache (os_MkdirAll : string -> option string)
    (dir : string) (ttl : Z) : FileCache + string :=
  if String.eqb dir "" then inr "cache directory cannot be empty"
  else if ttl <=? 0 then inr "ttl must be > 0"
  else
    match os_MkdirAll dir with
    | Some e => inr ("creating cache dir: " +:+ e)
    | None => inl {| Dir := dir; TTL := ttl |}
    end.

(** [t.Sub(u)]: the difference, kept within the range of a [Duration]. *)
Definition time_Sub (t u : Z) : Z :=
  Z.max GoInt.min_int (Z.min GoInt.max_int (t - u)).

(** What [Get] and [GetOrCreate] return: the bytes, the flag and the error. *)
Record Reply : Type := {
  data : list Byte.byte;
  hit : bool;
  err : option string
}.

Definition miss : Reply := {| data := []; hit := false; err := None |}.
Definition failure (e : string) : Reply :=
  {| data := []; hit := false; err := Some e |}.
Definition cached (b : list Byte.byte) : Reply :=
  {| data := b; hit := true; err := None |}.
Definition fresh (b : list Byte.byte) : Reply :=
  {| data := b; hit := false; err := None |}.

(** A reply with neither a hit nor an error. *)
Definition missed (r : Reply) : Prop := hit r = false /\ err r = None.

Inductive StatResult : Type :=
| StatInfo (size mtime : Z)
| StatNotExist
| StatError (e : string).

Inductive OpenResult : Type :=
| Opened (f : File)
| OpenNotExist
| OpenError (e : string).

Section FileCache.
(** What a generator works on (the network, a counter, ...). *)
Variable Ext : Type.
(** [hex.EncodeToString(sum[:16])] of [sha256.Sum256([]byte(key))] *)
Variable digest : string -> string.
Variable filepath_Join : string -> string -> string.

Record World : Type := {
  disk : gmap string File;
  (** [time.Now()], in nanoseconds *)
  now : Z;
  io : Faults;
  (** the keys of the map [perKeyMu] *)
  perKeyMu : gset string;
  ext : Ext
}.

Definition with_disk (d : gmap string File) (w : World) : World :=
  {| disk := d; now := now w; io := io w; perKeyMu := perKeyMu w; ext := ext w |}.
Definition with_now (t : Z) (w : World) : World :=
  {| disk := disk w; now := t; io := io w; perKeyMu := perKeyMu w; ext := ext w |}.
Definition with_ext (x : Ext) (w : World) : World :=
  {| disk := disk w; now := now w; io := io w; perKeyMu := perKeyMu w; ext := x |}.

(** A generator answers bytes or an error and changes its own part of the
    world; [None] is a panic. *)
Definition Generator : Type := Ext -> option ((list Byte.byte + string) * Ext).

Definition filePath (c : FileCache) (key : string) : string :=
  filepath_Join (Dir c) (digest key +:+ ".bin").

Definition os_Stat (w : World) (path : string) : StatResult :=
  match stat_fault (io w) path with
  | Some e => StatError e
  | None =>
      match disk w !! path with
      | Some f => StatInfo (Z.of_nat (length (content f))) (modTime f)
      | None => StatNotExist
      end
  end.

Definition os_Open (w : World) (path : string) : OpenResult :=
  match open_fault (io w) path with
  | Some e => OpenError e
  | None =>
      match disk w !! path with
      | Some f => Opened f
      | None => OpenNotExist
      end
  end.

Definition io_ReadAll (w : World) (path : string) (f : File)
  : list Byte.byte + string :=
  match read_fault (io w) path with
  | Some e => inr e
  | None => inl (content f)
  end.

(** [time.Since(t)] *)
Definition time_Since (w : World) (t : Z) : Z := time_Sub (now w) t.

(** The mutex of [key] is created on its first use. *)
Definition getPerKeyMutex (key : string) (w : World) : World :=
  {| disk := disk w; now := now w; io := io w;
     perKeyMu := {[key]} ∪ perKeyMu w; ext := ext w |}.

Definition Get (c : FileCache) (key : string) (w : World) : Reply :=
  let path := filePath c key in
  match os_Stat w path with
  | StatNotExist => miss
  | StatError e => failure ("stat cache file: " +:+ e)
  | StatInfo size mtime =>
      if size =? 0 then miss
      else if TTL c <? time_Since w mtime then miss
      else
        match os_Open w path with
        | OpenNotExist => miss
        | OpenError e => failure ("open cache file: " +:+ e)
        | Opened f =>
            match io_ReadAll w path f with
            | inr e => failure ("read cache file: " +:+ e)
            | inl b => cached b
            end
        end
  end.

(** The temporary file is created, written, synced, closed and renamed
    onto the final path, and removed when a step fails: either the final
    path holds [data], with the time of the write, or it is as before. *)
Definition writeFileAtomically (c : FileCache) (key : string)
    (data : list Byte.byte) (w : World) : option string * World :=
  match write_fault (io w) with
  | Some e => (Some e, w)
  | None =>
      (None,
       with_disk (<[filePath c key := {| content := data; modTime := now w |}]>
                    (disk w)) w)
  end.

(** The end of [GetOrCreate]: the generator is called and its bytes are
    written. *)
Definition regenerate (c : FileCache) (key : string) (generator : Generator)
    (w : World) : option (Reply * World) :=
  '(out, x) ← generator (ext w);
  let w := with_ext x w in
  match out with
  | inr e => Some (failure e, w)
  | inl data =>
      match writeFileAtomically c key data w with
      | (Some e, w) => Some (failure e, w)
      | (None, w) => Some (fresh data, w)
      end
  end.

(** [GetOrCreate] for a caller that is alone: [m.Lock()] returns at once. *)
Definition GetOrCreate (c : FileCache) (key : string) (generator : Generator)
    (w : World) : option (Reply * World) :=
  let r := Get c key w in
  match err r with
  | Some e => Some (failure e, w)
  | None =>
      if hit r then Some (cached (data r), w)
      else
        let w := getPerKeyMutex key w in
        let r := Get c key w in
        match err r with
        | Some e => Some (failure e, w)
        | None =>
            if hit r then Some (cached (data r), w)
            else regenerate c key generator w
        end
  end.

(** The artifact of [key] exists, is not empty, and its age is at most the
    TTL. *)
Definition fresh_artifact (c : FileCache) (key : string) (w : World) : Prop :=
  exists f, disk w !! filePath c key = Some f /\
            content f <> [] /\
            time_Since w (modTime f) <= TTL c.

(** The artifact of [key] exists and is empty. *)
Definition empty_artifact (c : FileCache) (key : string) (w : World) : Prop :=
  exists t, disk w !! filePath c key = Some {| content := []; modTime := t |}.

(** *** Concurrent callers of [GetOrCreate], one statement at a time

    Every caller passes the same key and the same generator. *)

Inductive Caller : Type :=
| AtFastPath                          (* the first [c.Get(key)] *)
| AtGetMutex                          (* [c.getPerKeyMutex(key)] *)
| AtLock                              (* [m.Lock()] *)
| AtRecheck                           (* the second [c.Get(key)] *)
| AtGenerate                          (* [generator()] *)
| AtWrite (b : list Byte.byte)        (* [c.writeFileAtomically(key, data)] *)
| AtUnlock (r : Reply)                (* the deferred [m.Unlock()] *)
| Returned (r : Reply).

Record Process : Type := {
  world : World;
  (** the mutex of the key is held *)
  locked : bool;
  callers : list Caller;
  (** how often the generator has been invoked *)
  invocations : nat;
  (** a panic has ended the process *)
  crashed : bool
}.

Definition fast_path (r : Reply) : Caller :=
  match err r with
  | Some e => Returned (failure e)
  | None => if hit r then Returned (cached (data r)) else AtGetMutex
  end.

Definition recheck (r : Reply) : Caller :=
  match err r with
  | Some e => AtUnlock (failure e)
  | None => if hit r then AtUnlock (cached (data r)) else AtGenerate
  end.

Definition generated (out : list Byte.byte + string) : Caller :=
  match out with
  | inr e => AtUnlock (failure e)
  | inl b => AtWrite b
  end.

Definition written (b : list Byte.byte) (e : option string) : Caller :=
  match e with
  | Some e => AtUnlock (failure e)
  | None => AtUnlock (fresh b)
  end.

Section Callers.
Variable c : FileCache.
Variable key : string.
Variable generator : Generator.

Inductive step : Process -> Process -> Prop :=
| step_fast_path p i :
    crashed p = false -> callers p !! i = Some AtFastPath ->
    step p {| world := world p; locked := locked p;
              callers := <[i := fast_path (Get c key (world p))]> (callers p);
              invocations := invocations p; crashed := false |}
| step_get_mutex p i :
    crashed p = false -> callers p !! i = Some AtGetMutex ->
    step p {| world := getPerKeyMutex key (world p); locked := locked p;
              callers := <[i := AtLock]> (callers p);
              invocations := invocations p; crashed := false |}
| step_lock p i :
    crashed p = false -> callers p !! i = Some AtLock -> locked p = false ->
    step p {| world := world p; locked := true;
              callers := <[i := AtRecheck]> (callers p);
              invocations := invocations p; crashed := false |}
| step_recheck p i :
    crashed p = false -> callers p !! i = Some AtRecheck ->
    step p {| world := world p; locked := locked p;
              callers := <[i := recheck (Get c key (world p))]> (callers p);
              invocations := invocations p; crashed := false |}
| step_generate p i out x :
    crashed p = false -> callers p !! i = Some AtGenerate ->
    generator (ext (world p)) = Some (out, x) ->
    step p {| world := with_ext x (world p); locked := locked p;
              callers := <[i := generated out]> (callers p);
              invocations := S (invocations p); crashed := false |}
| step_panic p i :
    crashed p = false -> callers p !! i = Some AtGenerate ->
    generator (ext (world p)) = None ->
    step p {| world := world p; locked := locked p;
              callers := callers p;
              invocations := S (invocations p); crashed := true |}
| step_write p i b :
    crashed p = false -> callers p !! i = Some (AtWrite b) ->
    step p {| world := (writeFileAtomically c key b (world p)).2;
              locked := locked p;
              callers := <[i := written b (writeFileAtomically c key b (world p)).1]>
                           (callers p);
              invocations := invocations p; crashed := false |}
| step_unlock p i r :
    crashed p = false -> callers p !! i = Some (AtUnlock r) ->
    step p {| world := world p; locked := false;
              callers := <[i := Returned r]> (callers p);
              invocations := invocations p; crashed := false |}
| step_tick p dt :
    crashed p = false -> 0 <= dt ->
    step p {| world := with_now (now (world p) + dt) (world p);
              locked := locked p; callers := callers p;
              invocations := invocations p; crashed := false |}.

(** [n] callers enter [GetOrCreate] in the world [w]. *)
Definition enter (n : nat) (w : World) : Process :=
  {| world := w; locked := false; callers := replicate n AtFastPath;
     invocations := 0; crashed := false |}.

(** Every caller has returned. *)
Definition all_returned (p : Process) : Prop :=
  forall i k, callers p !! i = Some k -> exists r, k = Returned r.

(** **** A schedule, run

    The next statement of the caller [i], or the clock moving on by [dt]. *)

Inductive Action : Type :=
| Run (i : nat)
| Tick (dt : Z).

(** One action; [None] when the caller cannot move (it waits for the
    mutex, has returned, or the process has crashed). *)
Definition exec (a : Action) (p : Process) : option Process :=
  if crashed p then None
  else
    match a with
    | Tick dt =>
        if 0 <=? dt then
          Some {| world := with_now (now (world p) + dt) (world p);
                  locked := locked p; callers := callers p;
                  invocations := invocations p; crashed := false |}
        else None
    | Run i =>
        match callers p !! i with
        | Some AtFastPath =>
            Some {| world := world p; locked := locked p;
                    callers := <[i := fast_path (Get c key (world p))]> (callers p);
                    invocations := invocations p; crashed := false |}
        | Some AtGetMutex =>
            Some {| world := getPerKeyMutex key (world p); locked := locked p;
                    callers := <[i := AtLock]> (callers p);
                    invocations := invocations p; crashed := false |}
        | Some AtLock =>
            if locked p then None
            else Some {| world := world p; locked := true;
                         callers := <[i := AtRecheck]> (callers p);
                         invocations := invocations p; crashed := false |}
        | Some AtRecheck =>
            Some {| world := world p; locked := locked p;
                    callers := <[i := recheck (Get c key (world p))]> (callers p);
                    invocations := invocations p; crashed := false |}
        | Some AtGenerate =>
            match generator (ext (world p)) with
            | Some (out, x) =>
                Some {| world := with_ext x (world p); locked := locked p;
                        callers := <[i := generated out]> (callers p);
                        invocations := S (invocations p); crashed := false |}
            | None =>
                Some {| world := world p; locked := locked p;
                        callers := callers p;
                        invocations := S (invocations p); crashed := true |}
            end
        | Some (AtWrite b) =>
            Some {| world := (writeFileAtomically c key b (world p)).2;
                    locked := locked p;
                    callers :=
                      <[i := written b (writeFileAtomically c key b (world p)).1]>
                        (callers p);
                    invocations := invocations p; crashed := false |}
        | Some (AtUnlock r) =>
            Some {| world := world p; locked := false;
                    callers := <[i := Returned r]> (callers p);
                    invocations := invocations p; crashed := false |}
        | Some (Returned _) | None => None
        end
    end.

Fixpoint run (schedule : list Action) (p : Process) : option Process :=
  match schedule with
  | [] => Some p
  | a :: schedule => p' ← exec a p; run schedule p'
  end.

(** **** The invariant of a single flight *)

(** The statements between [m.Lock()] and [m.Unlock()]. *)
Definition in_critical (k : Caller) : bool :=
  match k with
  | AtRecheck | AtGenerate | AtWrite _ | AtUnlock _ => true
  | _ => false
  end.

Fixpoint critical (ks : list Caller) : nat :=
  match ks with
  | [] => 0
  | k :: ks => (if in_critical k then 1 else 0) + critical ks
  end.

(** Where a caller may be before the generator has run, ... *)
Definition before_generation (k : Caller) : Prop :=
  match k with
  | AtFastPath | AtGetMutex | AtLock | AtRecheck | AtGenerate => True
  | _ => False
  end.

(** ... while the bytes [b] of the generator are not written yet, ... *)
Definition while_writing (b : list Byte.byte) (k : Caller) : Prop :=
  match k with
  | AtFastPath | AtGetMutex | AtLock => True
  | AtWrite b' => b' = b
  | _ => False
  end.

(** ... and once they are. *)
Definition after_write (b : list Byte.byte) (k : Caller) : Prop :=
  match k with
  | AtFastPath | AtGetMutex | AtLock | AtRecheck => True
  | AtUnlock r | Returned r => r = cached b \/ r = fresh b
  | _ => False
  end.

(** The process of [n] callers that entered in the world [w0], when the
    generator answered (or will answer) the bytes [b]. *)
Definition single_flight (w0 : World) (b : list Byte.byte) (n : nat)
    (p : Process) : Prop :=
  crashed p = false /\ io (world p) = no_faults /\
  now w0 <= now (world p) /\ length (callers p) = n /\
  ((invocations p = 0%nat /\ disk (world p) = disk w0 /\
    ext (world p) = ext w0 /\ Forall before_generation (callers p) /\
    critical (callers p) = (if locked p then 1 else 0)%nat) \/
   (invocations p = 1%nat /\ disk (world p) = disk w0 /\
    locked p = true /\ Forall (while_writing b) (callers p) /\
    critical (callers p) = 1%nat) \/
   (invocations p = 1%nat /\
    (exists t, now w0 <= t /\
       disk (world p) !! filePath c key
       = Some {| content := b; modTime := t |}) /\
    Forall (after_write b) (callers p))).

End Callers.

End FileCache.

Arguments disk {Ext} _.
Arguments now {Ext} _.
Arguments io {Ext} _.
Arguments perKeyMu {Ext} _.
Arguments ext {Ext} _.
Arguments with_disk {Ext} _ _.
Arguments with_now {Ext} _ _.
Arguments with_ext {Ext} _ _.
Arguments getPerKeyMutex {Ext} _ _.
Arguments time_Since {Ext} _ _.
Arguments os_Stat {Ext} _ _.
Arguments os_Open {Ext} _ _.
Arguments io_ReadAll {Ext} _ _ _.
Arguments Get {Ext} digest filepath_Join c key w.
Arguments writeFileAtomically {Ext} digest filepath_Join c key data w.
Arguments regenerate {Ext} digest filepath_Join c key generator w.
Arguments GetOrCreate {Ext} digest filepath_Join c key generator w.
Arguments fresh_artifact {Ext} digest filepath_Join c key w.
Arguments empty_artifact {Ext} digest filepath_Join c key w.
Arguments world {Ext} _.
Arguments locked {Ext} _.
Arguments callers {Ext} _.
Arguments invocations {Ext} _.
Arguments crashed {Ext} _.
Arguments step {Ext} digest filepath_Join c key generator _ _.
Arguments enter {Ext} n w.
Arguments all_returned {Ext} p.
Arguments exec {Ext} digest filepath_Join c key generator a p.
Arguments run {Ext} digest filepath_Join c key generator schedule p.
Arguments single_flight {Ext} digest filepath_Join c key w0 b n p.

End Cache.

(** ** Small worlds, to run the cache in *)

Module Sample.
Import Cache.
Local Open Scope Z_scope.

Definition join (dir name : string) : string := dir +:+ "/" +:+ name.

(** The key itself stands for its digest. *)
Definition digest (key : string) : string := key.

(** A cache with a TTL of one hour. *)
Definition cache : FileCache := {| Dir := "cache"; TTL := 3600000000000 |}.

(** An empty cache directory at the time [t]; the generators below count
    their runs. *)
Definition world (t : Z) (runs : nat) : World nat :=
  {| disk := ∅; now := t; io := no_faults; perKeyMu := ∅; ext := runs |}.

(** The cache directory with one artifact for the key ["wall"]. *)
Definition world_with (f : File) (t : Z) (runs : nat) : World nat :=
  {| disk := {[ "cache/wall.bin" := f ]}; now := t; io := no_faults;
     perKeyMu := ∅; ext := runs |}.

Definition jpeg : list Byte.byte := [Byte.xff; Byte.xd8; Byte.xff; Byte.xd9].

Definition generator_of (out : list Byte.byte + string) : Generator nat :=
  fun runs => Some (out, S runs).

(** A cache directory that holds a fresh artifact, and one that holds an
    artifact of two hours ago. *)
Definition stored : World nat :=
  world_with {| content := jpeg; modTime := 0 |} 1000 0.
Definition stale : World nat :=
  world_with {| content := jpeg; modTime := 0 |} 7200000000000 0.

(** Two callers miss on the fast path; the first goes through the critical
    section, and a microsecond later the second makes [k] statements. *)
Definition one_by_one (k : nat) : list Action :=
  [Run 0%nat; Run 1%nat] ++ replicate 6 (Run 0%nat) ++ [Tick 1000]
  ++ replicate k (Run 1%nat).

(** Three pictures for a grid of two cells; the download of the second
    fails. *)
Definition pictures : list string := ["a"; "b"; "c"].

Definition two_cells : Grid.GridDimensions :=
  {| Grid.Cols := 2; Grid.Rows := 1;
     Grid.PicWidth := 512; Grid.PicHeight := 1024 |}.

(** An image is the name of its picture. *)
Definition fetch (job : Pool.ImageJob) : string + string :=
  if Pool.Index job =? 1
  then inr "failed to download image: status code 404"
  else inl (Pool.UUID job).

Definition fill (img : string) (w h : Z) : string := img.

End Sample.

(** ** The route handler of [main] *)

Module Handler.
Local Open Scope Z_scope.

(** [strings.Contains(s, substr)] *)
Fixpoint strings_Contains (s substr : string) : bool :=
  if String.prefix substr s then true
  else
    match s with
    | EmptyString => false
    | String _ s' => strings_Contains s' substr
    end.

(** The character [a] occurs in [s]. *)
Fixpoint mentions (a : ascii) (s : string) : bool :=
  match s with
  | EmptyString => false
  | String b s' => if Ascii.eqb a b then true else mentions a s'
  end.

(** The verb [%d] of [fmt.Sprintf]. *)
Definition fmt_d (n : Z) : string := NilZero.string_of_int (Z.to_int n).

(** An element of [APIResponse.Data]. *)
Record Item : Type := {
  ID : Z;
  DateCreated : string;
  DateUpdated : string;
  Picture : string;
  Name : string;
  VrcID : string
}.

(** What the request to the metadata API comes back with: a transport
    error, or a status code with the decoded [APIResponse.Data]. *)
Inductive ApiReply : Type :=
| ApiFailed (e : string)
| ApiAnswered (statusCode : Z) (Data : list Item).

Inductive Body : Type :=
| Text (s : string)
| Raw (b : list Byte.byte).

Record Response : Type := {
  status : Z;
  headers : list (string * string);
  body : Body
}.

(** The errors of the generator closure, by the statement that returns them. *)
Inductive GenFailure : Type :=
| ApiRequest (cause : string)
| ApiStatus (statusCode : Z)
| NoImages
| EncodeJpeg (cause : string).

Definition message (f : GenFailure) : string :=
  match f with
  | ApiRequest cause => "api request: " +:+ cause
  | ApiStatus statusCode => "api status " +:+ fmt_d statusCode
  | NoImages => "no images found"
  | EncodeJpeg cause => "encode jpeg: " +:+ cause
  end.

Section Wall.
Context {F : Float64}.
Variable Image : Type.
Variable Canvas : Type.
(** [imaging.New(width, height, image.Black)] *)
Variable imaging_New : Z -> Z -> Canvas.
(** [imaging.Paste(background, img, image.Pt(x, y))] *)
Variable imaging_Paste : Canvas -> Image -> Z -> Z -> Canvas.
Variable imaging_Fill : Image -> Z -> Z -> Image.
(** [jpeg.Encode] with quality 90: the bytes of the buffer, or the error. *)
Variable jpeg_Encode : Canvas -> list Byte.byte + string.
Variable digest : string -> string.
Variable filepath_Join : string -> string -> string.

(** What is outside of the process: the metadata API and the asset server. *)
Record Outside : Type := {
  api : ApiReply;
  fetch : Pool.ImageJob -> Image + string
}.

(** The statement of the closure that returns the failure [f], by what
    the metadata API answered. *)
Definition explains (o : Outside) (f : GenFailure) : Prop :=
  match f with
  | ApiRequest cause => api o = ApiFailed cause
  | ApiStatus statusCode =>
      statusCode <> 200 /\ exists Data, api o = ApiAnswered statusCode Data
  | NoImages => api o = ApiAnswered 200 []
  | EncodeJpeg _ => exists Data, Data <> [] /\ api o = ApiAnswered 200 Data
  end.

(** The loop that places the downloaded images; [None] is the panic of a
    division by zero. *)
Fixpoint paste_loop (grid : Grid.GridDimensions) (images : gmap Z Image)
    (n : nat) (i : Z) (combined : Canvas) : option Canvas :=
  match n with
  | O => Some combined
  | S n' =>
      match images !! i with
      | None => paste_loop grid images n' (i + 1) combined
      | Some img =>
          if Grid.Cols grid =? 0 then None
          else
            let col := GoInt.wrap (Z.rem i (Grid.Cols grid)) in
            let row := GoInt.wrap (Z.quot i (Grid.Cols grid)) in
            let x := GoInt.mul col (Grid.PicWidth grid) in
            let y := GoInt.mul row (Grid.PicHeight grid) in
            paste_loop grid images n' (i + 1) (imaging_Paste combined img x y)
      end
  end.

(** The closure that [main] passes to [GetOrCreate]. *)
Definition wall_generator : Cache.Generator Outside := fun o =>
  match api o with
  | ApiFailed e => Some (inr (message (ApiRequest e)), o)
  | ApiAnswered statusCode Data =>
      if negb (statusCode =? 200) then Some (inr (message (ApiStatus statusCode)), o)
      else
        let pictureUUIDs := Picture <$> Data in
        if (length pictureUUIDs =? 0)%nat then Some (inr (message NoImages), o)
        else
          let height := 2048 in
          let width := 1024 in
          let picturecount := Z.of_nat (length pictureUUIDs) in
          grid ← Grid.calculateOptimalGrid width height picturecount;
          let combined := imaging_New width height in
          let maxWorkers := 10 in
          let images :=
            Pool.downloadImagesWithWorkerPool (fetch o) imaging_Fill
              pictureUUIDs grid in
          combined ← paste_loop grid images
                       (Z.to_nat (GoInt.mul (Grid.Cols grid) (Grid.Rows grid)))
                       0 combined;
          match jpeg_Encode combined with
          | inr e => Some (inr (message (EncodeJpeg e)), o)
          | inl buf => Some (inl buf, o)
          end
  end.

(** The answer of the handler to what [GetOrCreate] returned. *)
Definition respond (r : Cache.Reply) : Response :=
  match Cache.err r with
  | Some e =>
      if strings_Contains e "no images found"
      then {| status := 404; headers := []; body := Text "No images found" |}
      else {| status := 500; headers := [];
              body := Text "Failed to generate image" |}
  | None =>
      {| status := 200;
         headers :=
           [("Content-Type", "image/jpeg");
            ("Content-Length", fmt_d (Z.of_nat (length (Cache.data r))));
            ("X-Cache", if Cache.hit r then "HIT" else "MISS")];
         body := Raw (Cache.data r) |}
  end.

(** [NewFileCache("cache", 24*time.Hour)] *)
Definition cache : Cache.FileCache :=
  {| Cache.Dir := "cache"; Cache.TTL := 24 * 3600 * 1000000000 |}.

(** The handler of [GET /]; [None] is a panic. *)
Definition handle (w : Cache.World Outside)
  : option (Response * Cache.World Outside) :=
  '(r, w') ← Cache.GetOrCreate digest filepath_Join cache "wall"
               wall_generator w;
  Some (respond r, w').

End Wall.

Arguments api {Image} _.
Arguments fetch {Image} _.
Arguments explains {Image} o f.

End Handler.

(** ** A small site, to run the handler on *)

Module SampleWall.
Import Handler.
Local Open Scope Z_scope.

(** A canvas is the list of what was pasted on it, and where. *)
Definition blank (width height : Z) : list (string * Z * Z) := [].
Definition paste (combined : list (string * Z * Z)) (img : string) (x y : Z)
  : list (string * Z * Z) := combined ++ [(img, x, y)].

(** The encoder never fails; it writes a byte for every pasted image. *)
Definition encode (combined : list (string * Z * Z)) : list Byte.byte + string :=
  inl (Sample.jpeg ++ replicate (length combined) Byte.x00).

Definition item (picture : string) : Item :=
  {| ID := 1; DateCreated := ""; DateUpdated := ""; Picture := picture;
     Name := ""; VrcID := "" |}.

(** An empty cache directory, and outside of it the answer [reply] of the
    metadata API. *)
Definition site (reply : ApiReply) : Cache.World (Outside string) :=
  {| Cache.disk := ∅; Cache.now := 0; Cache.io := Cache.no_faults;
     Cache.perKeyMu := ∅;
     Cache.ext := {| api := reply; fetch := Sample.fetch |} |}.

(** 2^20 + 1 pictures. *)
Definition crowd : list Item := replicate (Z.to_nat 1048577) (item "a").

(** A certificate that names another host. *)
Definition bad_certificate : string :=
  "tls: failed to verify certificate: x509: certificate is valid for no images found, not api.imreally.gay".

End SampleWall.

(** ** The file cache, continued: the write in its steps, and the purge *)

Module CacheFiles.
Import Cache.
Local Open Scope Z_scope.

(** What the operating system answers to the calls of
    [writeFileAtomically], in their order: an error or none, the path of
    the file that [os.CreateTemp] created, the number of bytes that a
    failing [tmp.Write] wrote. *)
Record WriteIO : Type := {
  mkdirAll_err : option string;
  createTemp : string + string;
  write_err : option (nat * string);
  sync_err : option string;
  close_err : option string;
  rename_err : option string;
  (** the [os.Remove] of the deferred function fails on a file that exists *)
  remove_err : bool
}.

(** An entry of [os.ReadDir]. *)
Record DirEntry : Type := {
  Name : string;
  IsDir : bool
}.

Inductive ReadDirResult : Type :=
| ReadDirEntries (entries : list DirEntry)
| ReadDirNotExist
| ReadDirError (e : string).

Section Files.
Variable Ext : Type.
Variable digest : string -> string.
Variable filepath_Join : string -> string -> string.

Local Abbreviation filePath := (filePath digest filepath_Join).

(** [os.Rename(oldpath, newpath)] of a file that exists. *)
Definition os_Rename (oldpath newpath : string) (d : gmap string File)
  : gmap string File :=
  match d !! oldpath with
  | Some f => <[newpath := f]> (delete oldpath d)
  | None => d
  end.

(** The deferred function: [tmp.Close()] and [_ = os.Remove(tmpPath)]. *)
Definition cleanup (o : WriteIO) (tmpPath : string) (d : gmap string File)
  : gmap string File :=
  if remove_err o then d else delete tmpPath d.

(** [writeFileAtomically], statement by statement, on the files of the
    disk at the time [t]: the error that it returns and the files that it
    leaves. *)
Definition writeFileAtomically (c : FileCache) (key : string)
    (data : list Byte.byte) (o : WriteIO) (t : Z) (d : gmap string File)
  : option string * gmap string File :=
  match mkdirAll_err o with
  | Some e => (Some ("ensure cache dir: " +:+ e), d)
  | None =>
      let finalPath := filePath c key in
      match createTemp o with
      | inr e => (Some ("create temp file: " +:+ e), d)
      | inl tmpPath =>
          let d := <[tmpPath := {| content := []; modTime := t |}]> d in
          match write_err o with
          | Some (n, e) =>
              (Some ("write temp file: " +:+ e),
               cleanup o tmpPath
                 (<[tmpPath := {| content := take n data; modTime := t |}]> d))
          | None =>
              let d := <[tmpPath := {| content := data; modTime := t |}]> d in
              match sync_err o with
              | Some e => (Some ("sync temp file: " +:+ e), cleanup o tmpPath d)
              | None =>
                  match close_err o with
                  | Some e =>
                      (Some ("close temp file: " +:+ e), cleanup o tmpPath d)
                  | None =>
                      match rename_err o with
                      | Some e =>
                          (Some ("rename temp file: " +:+ e),
                           cleanup o tmpPath d)
                      | None =>
                          (None, cleanup o tmpPath (os_Rename tmpPath finalPath d))
                      end
                  end
              end
          end
      end
  end.

(** The disk while [tmp.Write] has written the first [k] bytes, for every
    [k] up to [n]. *)
Definition writing (tmpPath : string) (data : list Byte.byte) (t : Z)
    (d : gmap string File) (n : nat) : list (gmap string File) :=
  (fun k => <[tmpPath := {| content := take k data; modTime := t |}]> d)
    <$> seq 0 (S n).

(** The states of the disk that another goroutine may see during a call
    of [writeFileAtomically], in their order: before the call, with the
    temporary file as it grows, after the renaming, after the deferred
    removal. *)
Definition write_states (c : FileCache) (key : string)
    (data : list Byte.byte) (o : WriteIO) (t : Z) (d : gmap string File)
  : list (gmap string File) :=
  match mkdirAll_err o with
  | Some _ => [d]
  | None =>
      match createTemp o with
      | inr _ => [d]
      | inl tmpPath =>
          let created := <[tmpPath := {| content := []; modTime := t |}]> d in
          match write_err o with
          | Some (n, _) =>
              d :: writing tmpPath data t created (n `min` length data)
              ++ [cleanup o tmpPath
                    (<[tmpPath := {| content := take n data; modTime := t |}]>
                       created)]
          | None =>
              let full :=
                <[tmpPath := {| content := data; modTime := t |}]> created in
              d :: writing tmpPath data t created (length data)
              ++ match sync_err o, close_err o, rename_err o with
                 | None, None, None =>
                     [os_Rename tmpPath (filePath c key) full;
                      cleanup o tmpPath
                        (os_Rename tmpPath
                           (filePath c key) full)]
                 | _, _, _ => [cleanup o tmpPath full]
                 end
          end
      end
  end.

(** *** [PurgeExpired] *)

(** The listing of a directory, as the operating system gives it. *)
Variable os_ReadDir : World Ext -> string -> ReadDirResult.
(** [os.Remove] fails on this path. *)
Variable remove_fails : string -> bool.

Definition os_Remove (path : string) (w : World Ext) : World Ext :=
  if remove_fails path then w else with_disk (delete path (disk w)) w.

(** The body of the loop for one entry; [e.Info()] is the [lstat] of the
    entry's path. *)
Definition purge_entry (c : FileCache) (deadline : Z) (w : World Ext)
    (e : DirEntry) : World Ext :=
  if IsDir e then w
  else
    match os_Stat w (filepath_Join (Dir c) (Name e)) with
    | StatInfo _ mtime =>
        if mtime <? deadline
        then os_Remove (filepath_Join (Dir c) (Name e)) w
        else w
    | _ => w
    end.

Definition PurgeExpired (c : FileCache) (w : World Ext)
  : option string * World Ext :=
  match os_ReadDir w (Dir c) with
  | ReadDirNotExist => (None, w)
  | ReadDirError e => (Some ("read cache dir: " +:+ e), w)
  | ReadDirEntries entries =>
      let deadline := now w + GoInt.wrap (- TTL c) in
      (None, foldl (purge_entry c deadline) w entries)
  end.

(** The entry of a regular file with this path is in the listing. *)
Definition listed (c : FileCache) (entries : list DirEntry) (path : string)
  : Prop :=
  exists e, e ∈ entries /\ IsDir e = false /\
            path = filepath_Join (Dir c) (Name e).

End Files.

Arguments os_Remove {Ext} remove_fails path w.
Arguments purge_entry {Ext} filepath_Join remove_fails c deadline w e.
Arguments PurgeExpired {Ext} filepath_Join os_ReadDir remove_fails c w.

(** *** Callers of [GetOrCreate], counted *)

(** The caller has come back from the generator. *)
Definition spent (k : Caller) : bool :=
  match k with
  | AtWrite _ | AtUnlock _ | Returned _ => true
  | _ => false
  end.

Definition is_returned (k : Caller) : bool :=
  match k with Returned _ => true | _ => false end.

(** The callers of a list that satisfy [f]. *)
Fixpoint tally (f : Caller -> bool) (ks : list Caller) : nat :=
  match ks with
  | [] => 0
  | k :: ks => (if f k then 1 else 0) + tally f ks
  end.

(** What holds of [n] callers in every state, whatever the generator
    does: the mutex is held by the caller in the critical section, and
    the generator has been invoked by the callers that came back from it,
    and by the one that it made panic. *)
Definition guarded {Ext : Type} (n : nat) (p : Process Ext) : Prop :=
  length (callers p) = n /\
  critical (callers p) = (if locked p then 1 else 0)%nat /\
  (if crashed p
   then (invocations p <= tally spent (callers p) + 1)%nat /\
        exists i, callers p !! i = Some AtGenerate
   else (invocations p <= tally spent (callers p))%nat).

(** *** A cache directory to purge, and a disk that is full *)

(** The listing of the directory of [Sample.stored] and [Sample.stale]. *)
Definition listing (w : World nat) (dir : string) : ReadDirResult :=
  ReadDirEntries [ {| Name := "tmp"; IsDir := true |};
                   {| Name := "wall.bin"; IsDir := false |} ].

Definition never_fails (path : string) : bool := false.

(** The sync of the temporary file fails. *)
Definition disk_full : WriteIO :=
  {| mkdirAll_err := None; createTemp := inl "cache/tmp-1";
     write_err := None; sync_err := Some "no space left on device";
     close_err := None; rename_err := None; remove_err := false |}.

(** An artifact of the year 1677, and a cache whose TTL is the longest
    duration that there is. *)
Definition ancient : World nat :=
  Sample.world_with {| content := Sample.jpeg;
                       modTime := -9223372036854775818 |} 0 0.

Definition forever : FileCache :=
  {| Dir := "cache"; TTL := 9223372036854775807 |}.

End CacheFiles.

(** ** The wall, tile by tile *)

Module Layout.
Local Open Scope Z_scope.

(** [x] and [y] of the cell [i]: [col * grid.PicWidth] and
    [row * grid.PicHeight] for [col := i % grid.Cols] and
    [row := i / grid.Cols]. *)
Definition cell (grid : Grid.GridDimensions) (i : Z) : Z * Z :=
  (GoInt.mul (GoInt.wrap (Z.rem i (Grid.Cols grid))) (Grid.PicWidth grid),
   GoInt.mul (GoInt.wrap (Z.quot i (Grid.Cols grid))) (Grid.PicHeight grid)).

(** The images of the cells [i .. i + n - 1], each with its place. *)
Fixpoint placed {Image : Type} (grid : Grid.GridDimensions)
    (images : gmap Z Image) (n : nat) (i : Z) : list (Image * (Z * Z)) :=
  match n with
  | O => []
  | S n' =>
      match images !! i with
      | None => placed grid images n' (i + 1)
      | Some img => (img, cell grid i) :: placed grid images n' (i + 1)
      end
  end.

(** The canvas after these images have been pasted, in their order. *)
Definition pasted {Image Canvas : Type}
    (imaging_Paste : Canvas -> Image -> Z -> Z -> Canvas)
    (combined : Canvas) (tiles : list (Image * (Z * Z))) : Canvas :=
  foldl (fun cv tile => imaging_Paste cv tile.1 tile.2.1 tile.2.2) combined tiles.

End Layout.

(** ** The download of one picture *)

Module Remote.
Local Open Scope Z_scope.

(** What [client.Get] comes back with. *)
Inductive HttpReply (Body : Type) : Type :=
| HttpFailed (e : string)
| HttpResponse (StatusCode : Z) (body : Body).

Arguments HttpFailed {Body} e.
Arguments HttpResponse {Body} StatusCode body.

Section Download.
Variable Image : Type.
Variable Body : Type.
(** [client.Get(url)] of a client with this [Timeout], in nanoseconds;
    0 is no timeout. *)
Variable client_Get : Z -> string -> HttpReply Body.
(** [image.Decode(resp.Body)] *)
Variable image_Decode : Body -> Image + string.

Definition openRemoteImageWithTimeout (url : string) (timeout : Z)
  : Image + string :=
  match client_Get timeout url with
  | HttpFailed e => inr ("failed to download image: " +:+ e)
  | HttpResponse StatusCode body =>
      if negb (StatusCode =? 200)
      then inr ("failed to download image: status code "
                +:+ Handler.fmt_d StatusCode)
      else
        match image_Decode body with
        | inr e => inr ("failed to decode image: " +:+ e)
        | inl img => inl img
        end
  end.

(** [openRemoteImage]: [http.Get] is the [Get] of the default client,
    which has no timeout. *)
Definition openRemoteImage (url : string) : Image + string :=
  match client_Get 0 url with
  | HttpFailed e => inr ("failed to download image: " +:+ e)
  | HttpResponse StatusCode body =>
      if negb (StatusCode =? 200)
      then inr ("failed to download image: status code "
                +:+ Handler.fmt_d StatusCode)
      else
        match image_Decode body with
        | inr e => inr ("failed to decode image: " +:+ e)
        | inl img => inl img
        end
  end.

(** What a worker of the pool does with the URL of its job:
    [openRemoteImageWithTimeout(job.URL, 30*time.Second)]. *)
Definition worker_fetch (job : Pool.ImageJob) : Image + string :=
  openRemoteImageWithTimeout (Pool.URL job) (30 * 1000000000).

(** No download of these pictures runs into the timeout of the pool's
    client. *)
Definition in_time (pictureUUIDs : list string) : Prop :=
  forall uuid, uuid ∈ pictureUUIDs ->
    client_Get 30000000000 ("https://api.imreally.gay/assets/" +:+ uuid)
    = client_Get 0 ("https://api.imreally.gay/assets/" +:+ uuid).

End Download.

(** An asset server that has every picture but ["b"], and bodies that
    are their own images. *)
Definition assets (timeout : Z) (url : string) : HttpReply string :=
  if String.eqb url "https://api.imreally.gay/assets/b"
  then HttpResponse 404 ""
  else HttpResponse 200 url.

Definition decode (body : string) : string + string := inl body.

End Remote.

(** ** The handler of the first version of [main], without pool and cache *)

Module Legacy.
Import Handler.
Local Open Scope Z_scope.

(** [rune(n)]: the conversion of an [int] to [int32]. *)
Definition rune (n : Z) : Z := (n + 2 ^ 31) mod 2 ^ 32 - 2 ^ 31.

Definition byte_of (n : Z) : ascii := ascii_of_N (Z.to_N n).

(** [string(r)] of a rune: its UTF-8 encoding, and that of U+FFFD for a
    value that is no Unicode code point. *)
Definition string_of_rune (r : Z) : string :=
  if (r <? 0) || (1114111 <? r) || ((55296 <=? r) && (r <=? 57343)) then
    String (byte_of 239) (String (byte_of 191) (String (byte_of 189) ""))
  else if r <? 128 then String (byte_of r) ""
  else if r <? 2048 then
    String (byte_of (Z.lor 192 (Z.shiftr r 6)))
      (String (byte_of (Z.lor 128 (Z.land r 63))) "")
  else if r <? 65536 then
    String (byte_of (Z.lor 224 (Z.shiftr r 12)))
      (String (byte_of (Z.lor 128 (Z.land (Z.shiftr r 6) 63)))
         (String (byte_of (Z.lor 128 (Z.land r 63))) ""))
  else
    String (byte_of (Z.lor 240 (Z.shiftr r 18)))
      (String (byte_of (Z.lor 128 (Z.land (Z.shiftr r 12) 63)))
         (String (byte_of (Z.lor 128 (Z.land (Z.shiftr r 6) 63)))
            (String (byte_of (Z.lor 128 (Z.land r 63))) ""))).

(** A decimal digit. *)
Definition is_digit (a : ascii) : bool :=
  ((48 <=? N_of_ascii a) && (N_of_ascii a <=? 57))%N.

(** What the handler does: it sends a response, or returns an error to
    the framework. *)
Inductive Outcome : Type :=
| Sent (r : Response)
| Returned (e : string).

Section FirstVersion.
Context {F : Float64}.
Variable Image : Type.
Variable Canvas : Type.
Variable Body : Type.
Variable imaging_New : Z -> Z -> Canvas.
Variable imaging_Paste : Canvas -> Image -> Z -> Z -> Canvas.
Variable imaging_Fill : Image -> Z -> Z -> Image.
Variable jpeg_Encode : Canvas -> list Byte.byte + string.
Variable client_Get : Z -> string -> Remote.HttpReply Body.
Variable image_Decode : Body -> Image + string.

(** [for i, pictureUUID := range pictureUUIDs]: the pictures from the
    index [i] on; [None] is the panic of a division by zero. *)
Fixpoint render (grid : Grid.GridDimensions) (i : Z) (pictureUUIDs : list string)
    (combined : Canvas) : option Canvas :=
  match pictureUUIDs with
  | [] => Some combined
  | pictureUUID :: rest =>
      if GoInt.mul (Grid.Cols grid) (Grid.Rows grid) <=? i then Some combined
      else
        let imageURL := "https://api.imreally.gay/assets/" +:+ pictureUUID in
        match Remote.openRemoteImage Image Body client_Get image_Decode imageURL with
        | inr _ => render grid (i + 1) rest combined
        | inl img =>
            let resizedImg :=
              imaging_Fill img (Grid.PicWidth grid) (Grid.PicHeight grid) in
            if Grid.Cols grid =? 0 then None
            else
              let col := GoInt.wrap (Z.rem i (Grid.Cols grid)) in
              let row := GoInt.wrap (Z.quot i (Grid.Cols grid)) in
              let x := GoInt.mul col (Grid.PicWidth grid) in
              let y := GoInt.mul row (Grid.PicHeight grid) in
              render grid (i + 1) rest (imaging_Paste combined resizedImg x y)
        end
  end.

(** The handler of [GET /]. *)
Definition handle (reply : ApiReply) : option Outcome :=
  match reply with
  | ApiFailed _ =>
      Some (Sent {| status := 500; headers := [];
                    body := Text "Failed to fetch images" |})
  | ApiAnswered statusCode Data =>
      if negb (statusCode =? 200) then
        Some (Sent {| status := 500; headers := [];
                      body := Text "API request failed" |})
      else
        let pictureUUIDs := Picture <$> Data in
        if (length pictureUUIDs =? 0)%nat then
          Some (Sent {| status := 404; headers := [];
                        body := Text "No images found" |})
        else
          let height := 2048 in
          let width := 1024 in
          let picturecount := Z.of_nat (length pictureUUIDs) in
          grid ← Grid.calculateOptimalGrid width height picturecount;
          combined ← render grid 0 pictureUUIDs (imaging_New width height);
          match jpeg_Encode combined with
          | inr e => Some (Returned e)
          | inl buf =>
              Some (Sent {| status := 200;
                            headers :=
                              [("Content-Type", "image/jpeg");
                               ("Content-Length",
                                string_of_rune (rune (Z.of_nat (length buf))))];
                            body := Raw buf |})
          end
  end.

(** The pictures from the index [i] on that the loop pastes, resized and
    with their places. *)
Fixpoint rendered (grid : Grid.GridDimensions) (i : Z)
    (pictureUUIDs : list string) : list (Image * (Z * Z)) :=
  match pictureUUIDs with
  | [] => []
  | pictureUUID :: rest =>
      if GoInt.mul (Grid.Cols grid) (Grid.Rows grid) <=? i then []
      else
        match Remote.openRemoteImage Image Body client_Get image_Decode
                ("https://api.imreally.gay/assets/" +:+ pictureUUID) with
        | inr _ => rendered grid (i + 1) rest
        | inl img =>
            (imaging_Fill img (Grid.PicWidth grid) (Grid.PicHeight grid),
             Layout.cell grid i) :: rendered grid (i + 1) rest
        end
  end.

End FirstVersion.

End Legacy.

(** * Part II: the properties *)

(** ** Integers that do not overflow *)

Module GoIntFacts.
Import GoInt.
Local Open Scope Z_scope.

Lemma wrap_spec z : wrap z = (z + 2 ^ 63) mod 2 ^ 64 - 2 ^ 63.
Proof.
  unfold wrap, min_int, max_int.
  destruct (_ && _) eqn:E; [|reflexivity].
  apply andb_true_iff in E as [E1 E2].
  apply Z.leb_le in E1, E2.
  rewrite Z.mod_small by lia. lia.
Qed.

Lemma wrap_small z : - 2 ^ 63 <= z < 2 ^ 63 -> wrap z = z.
Proof.
  unfold wrap, min_int, max_int. intros [H1 H2].
  rewrite (proj2 (Z.leb_le _ _)), (proj2 (Z.leb_le _ _)) by lia. reflexivity.
Qed.

Lemma mul_small a b : - 2 ^ 63 <= a * b < 2 ^ 63 -> mul a b = a * b.
Proof. apply wrap_small. Qed.

Lemma add_small a b : - 2 ^ 63 <= a + b < 2 ^ 63 -> add a b = a + b.
Proof. apply wrap_small. Qed.

Lemma quo_small a b : 0 <= a < 2 ^ 63 -> 0 < b -> quo a b = Some (a / b).
Proof.
  intros Ha Hb. unfold quo.
  destruct (Z.eqb_spec b 0); [lia|].
  rewrite Z.quot_div_nonneg by lia.
  rewrite wrap_small; [done|].
  assert (0 <= a / b <= a); [|lia].
  split; [apply Z.div_pos; lia|].
  apply Z.div_le_upper_bound; [lia|]. nia.
Qed.
End GoIntFacts.

(** ** Rational arithmetic satisfies the laws *)

Module ExactFacts.
Local Open Scope Z_scope.

Lemma Qdiv_inject_le (a a' b : Z) :
  0 < b -> (inject_Z a / inject_Z b <= inject_Z a' / inject_Z b)%Q <-> a <= a'.
Proof.
  intros Hb.
  assert (Hb' : (0 < inject_Z b)%Q) by (unfold Qlt; simpl; lia).
  assert (Hnz : ~ (inject_Z b == 0)%Q).
  { intros E. rewrite E in Hb'. revert Hb'. apply Qlt_irrefl. }
  rewrite (Zle_Qle a a').
  rewrite <- (Qmult_le_r (inject_Z a / inject_Z b) _ (inject_Z b)) by exact Hb'.
  unfold Qdiv. rewrite <- !Qmult_assoc, !(Qmult_comm (/ _)).
  rewrite !Qmult_inv_r, !Qmult_1_r by exact Hnz. reflexivity.
Qed.

Lemma exact_laws : Float64Laws exact.
Proof.
  split; simpl.
  - intros p c Hc Hp. unfold Qceiling.
    assert (E : (- (inject_Z p / inject_Z c) == inject_Z (- p) / inject_Z c)%Q).
    { rewrite inject_Z_opp. field. intros E. apply (inject_Z_injective c 0) in E. lia. }
    rewrite (Qfloor_comp _ _ E), <- Zdiv_Qdiv.
    apply Z.div_unique with (r := p + c - 1 + c * ((- p) / c)); [|lia].
    left. pose proof (Z.mod_pos_bound (-p) c ltac:(lia)) as Hm.
    rewrite Z.mod_eq in Hm by lia. lia.
  - intros a a' b Ha Ha' Hb.
    destruct (Qle_bool _ _) eqn:E; simpl.
    + apply Qle_bool_iff, Qdiv_inject_le in E; [|lia].
      symmetry. apply Z.ltb_ge. lia.
    + symmetry. apply Z.ltb_lt. apply Z.lt_nge. intros Hle.
      apply (Qdiv_inject_le a a' b) in Hle; [|lia].
      apply Qle_bool_iff in Hle. congruence.
  - intros a b Ha Hb.
    change 0%Q with (inject_Z 0).
    destruct (Qle_bool _ _) eqn:E; simpl.
    + apply Qle_bool_iff in E. symmetry. apply Z.ltb_ge.
      apply (Qmult_le_r _ _ (inject_Z b)) in E; [|unfold Qlt; simpl; lia].
      unfold Qdiv in E. rewrite <- Qmult_assoc, (Qmult_comm (/ _)), Qmult_inv_r, Qmult_1_r, Qmult_0_l in E.
      * unfold Qle in E; simpl in E. lia.
      * intros E'. apply (inject_Z_injective b 0) in E'. lia.
    + symmetry. apply Z.ltb_lt. apply Z.lt_nge. intros Hle.
      assert (a = 0) as -> by lia.
      vm_compute in E. discriminate.
Qed.

End ExactFacts.

(** ** The grid planner *)

Module GridFacts.
Import Grid GoIntFacts ExactFacts.
Local Open Scope Z_scope.

Section PlannerFacts.
Context {F : Float64} {L : Float64Laws F}.
Variables W H p : Z.
Hypothesis HW : 1 <= W.
Hypothesis HH : 1 <= H.
Hypothesis Hp : 1 <= p < 2 ^ 53.
Hypothesis HWH : W * H < 2 ^ 53.

Lemma rows_for_bounds c : 1 <= c <= p -> 1 <= rows_for p c <= p.
Proof.
  intros Hc. unfold rows_for. split.
  - apply Z.div_le_lower_bound; lia.
  - apply Z.div_le_upper_bound; [lia|]. nia.
Qed.

Lemma canvas_bounds : W < 2 ^ 53 /\ H < 2 ^ 53.
Proof. split; nia. Qed.

Lemma candidate_facts c g :
  1 <= c <= p -> candidate W H p c = Some g ->
  Cols g = c /\ Rows g = rows_for p c /\
  0 <= PicWidth g /\ 0 <= PicHeight g /\
  Cols g * PicWidth g <= W /\ Rows g * PicHeight g <= H /\
  2 * PicWidth g <= PicHeight g <= 2 * PicWidth g + 1.
Proof.
  intros Hc. pose proof (rows_for_bounds c Hc) as Hr.
  unfold candidate.
  set (r := rows_for p c) in *.
  assert (HtW : 0 <= W / c) by (apply Z.div_pos; lia).
  assert (HtH : 0 <= H / r) by (apply Z.div_pos; lia).
  assert (HcW : c * (W / c) <= W) by (apply Z.mul_div_le; lia).
  assert (HrH : r * (H / r) <= H) by (apply Z.mul_div_le; lia).
  destruct (Z.ltb_spec (2 * (W / c)) (H / r)) as [Hlt|Hge].
  - destruct (Z.leb_spec (2 * (W / c) * r) H); [|done].
    intros [= <-]; simpl. repeat split; try lia.
  - destruct (Z.leb_spec (H / r / 2 * c) W); [|done].
    intros [= <-]; simpl.
    assert (0 <= H / r / 2) by (apply Z.div_pos; lia).
    pose proof (Z.div_mod (H / r) 2 ltac:(lia)).
    pose proof (Z.mod_pos_bound (H / r) 2 ltac:(lia)).
    repeat split; try lia.
Qed.

Lemma candidate_accepted c : 1 <= c <= p -> is_Some (candidate W H p c).
Proof.
  intros Hc. pose proof (rows_for_bounds c Hc) as Hr.
  unfold candidate.
  set (r := rows_for p c) in *.
  assert (HtW : 0 <= W / c) by (apply Z.div_pos; lia).
  assert (HtH : 0 <= H / r) by (apply Z.div_pos; lia).
  assert (HcW : c * (W / c) <= W) by (apply Z.mul_div_le; lia).
  assert (HrH : r * (H / r) <= H) by (apply Z.mul_div_le; lia).
  destruct (Z.ltb_spec (2 * (W / c)) (H / r)) as [Hlt|Hge].
  - destruct (Z.leb_spec (2 * (W / c) * r) H); [eauto|]. nia.
  - destruct (Z.leb_spec (H / r / 2 * c) W); [eauto|].
    pose proof (Z.div_mod (H / r) 2 ltac:(lia)).
    pose proof (Z.mod_pos_bound (H / r) 2 ltac:(lia)).
    nia.
Qed.

Lemma candidate_area c g :
  1 <= c <= p -> candidate W H p c = Some g ->
  0 <= PicWidth g * Cols g <= W /\
  0 <= PicWidth g * Cols g * PicHeight g <= W * H /\
  0 <= area g <= W * H.
Proof.
  intros Hc Hg. pose proof (rows_for_bounds c Hc) as Hr.
  destruct (candidate_facts c g Hc Hg) as (HC & HR & Hw & Hh & HCw & HRh & _).
  unfold area. rewrite HC, HR in *.
  set (r := rows_for p c) in *.
  assert (0 <= PicWidth g * c <= W) by nia.
  assert (PicHeight g <= H) by nia.
  assert (0 <= PicHeight g * r <= H) by nia.
  split; [lia|]. split; [nia|].
  rewrite <- Z.mul_assoc. nia.
Qed.


Lemma gt_bestFit s a :
  tracked W H s -> 0 <= a <= W * H ->
  f64_gt (f64_div (f64_of_int a) (f64_of_int (W * H))) (bestFit s)
  = (area (best s) <? a).
Proof.
  intros [->|[Ha' ->]] Ha.
  - simpl. apply f64_gt_zero; lia.
  - apply f64_gt_div; lia.
Qed.

Lemma consider_spec s g :
  tracked W H s -> 0 <= PicWidth g * Cols g <= W ->
  0 <= PicWidth g * Cols g * PicHeight g <= W * H ->
  0 <= area g <= W * H ->
  consider W H s (Cols g) (Rows g) (PicWidth g) (PicHeight g) = better W H s g.
Proof.
  intros Hs H1 H2 H3. unfold consider, utilization, better.
  pose proof canvas_bounds as [HW' HH'].
  rewrite (mul_small (PicWidth g)) by nia.
  rewrite (mul_small (_ * _) (PicHeight g)) by nia.
  rewrite (mul_small _ (Rows g)) by (unfold area in H3; nia).
  rewrite (mul_small W H) by nia.
  fold (area g). rewrite gt_bestFit by done.
  destruct g; reflexivity.
Qed.

Lemma grid_body_spec c s :
  1 <= c <= p -> tracked W H s ->
  grid_body W H p c s = Some (pick W H s (candidate W H p c)).
Proof.
  intros Hc Hs. pose proof (rows_for_bounds c Hc) as Hr.
  pose proof canvas_bounds as [HW' HH'].
  pose proof (candidate_facts c) as Hfacts.
  pose proof (candidate_area c) as Harea.
  unfold grid_body, candidate in *.
  rewrite f64_ceil_div by lia. fold (rows_for p c) in *.
  set (r := rows_for p c) in *.
  assert (HtW : 0 <= W / c) by (apply Z.div_pos; lia).
  assert (HtH : 0 <= H / r) by (apply Z.div_pos; lia).
  assert (HcW : c * (W / c) <= W) by (apply Z.mul_div_le; lia).
  assert (HrH : r * (H / r) <= H) by (apply Z.mul_div_le; lia).
  rewrite (quo_small W c) by lia. cbn [mbind option_bind].
  rewrite (quo_small H r) by lia. cbn [mbind option_bind].
  assert (HtW' : W / c <= W) by nia.
  assert (HtH' : H / r <= H) by nia.
  rewrite (mul_small 2) by lia.
  destruct (Z.ltb_spec (2 * (W / c)) (H / r)) as [Hlt|Hge].
  - rewrite (mul_small _ r) by nia.
    destruct (Z.leb_spec (2 * (W / c) * r) H); [|done].
    specialize (Harea _ Hc eq_refl) as (A1 & A2 & A3).
    f_equal. simpl. apply (consider_spec s {| Cols := c |}); done.
  - assert (0 <= H / r / 2) by (apply Z.div_pos; lia).
    assert (H / r / 2 <= H / r).
    { apply Z.div_le_upper_bound; lia. }
    rewrite (quo_small (H / r) 2) by nia. cbn [mbind option_bind].
    assert (H / r / 2 * c <= W).
    { pose proof (Z.div_mod (H / r) 2 ltac:(lia)).
      pose proof (Z.mod_pos_bound (H / r) 2 ltac:(lia)). nia. }
    rewrite (mul_small _ c) by nia.
    destruct (Z.leb_spec (H / r / 2 * c) W); [|done].
    specialize (Harea _ Hc eq_refl) as (A1 & A2 & A3).
    f_equal. simpl. apply (consider_spec s {| Cols := c |}); done.
Qed.


Lemma scanned_tracked k s : 0 <= k <= p -> scanned W H p k s -> tracked W H s.
Proof.
  intros Hk [_ [->|(c0 & Hc0 & Hcand & Hpos & Hfit & _)]]; [by left|right].
  destruct (candidate_area c0 _ ltac:(lia) Hcand) as (_ & _ & ?).
  split; [lia|done].
Qed.

Lemma scanned_init : scanned W H p 0 search_init.
Proof. split; [intros; lia|by left]. Qed.

Lemma scanned_step k s :
  0 <= k < p -> scanned W H p k s ->
  scanned W H p (k + 1) (pick W H s (candidate W H p (k + 1))).
Proof.
  intros Hk [Hmax Hfirst].
  destruct (candidate W H p (k + 1)) as [g|] eqn:Hg; simpl.
  2:{ split.
      - intros c g' Hc Hg'. destruct (decide (c = k + 1)) as [->|]; [congruence|].
        apply Hmax with c; [lia|done].
      - destruct Hfirst as [->|(c0 & ? & ?)]; [by left|right].
        exists c0. split; [lia|tauto]. }
  destruct (candidate_area (k + 1) g ltac:(lia) Hg) as (_ & _ & Ha).
  unfold better. destruct (Z.ltb_spec (area (best s)) (area g)) as [Hlt|Hge].
  - split; simpl.
    + intros c g' Hc Hg'. destruct (decide (c = k + 1)) as [->|].
      * assert (g' = g) as -> by congruence. lia.
      * pose proof (Hmax c g' ltac:(lia) Hg'). lia.
    + right. exists (k + 1). split; [lia|]. split; [done|].
      assert (0 <= area (best s)).
      { destruct Hfirst as [->|(c0 & ? & ? & ? & _)]; [done|lia]. }
      split; [lia|]. split; [done|].
      intros c g' Hc Hg'. pose proof (Hmax c g' ltac:(lia) Hg'). lia.
  - split.
    + intros c g' Hc Hg'. destruct (decide (c = k + 1)) as [->|].
      * assert (g' = g) as -> by congruence. lia.
      * apply Hmax with c; [lia|done].
    + destruct Hfirst as [->|(c0 & ? & ?)]; [by left|right].
      exists c0. split; [lia|tauto].
Qed.

Lemma grid_loop_scanned n : forall k s,
  0 <= k -> k + Z.of_nat n <= p -> scanned W H p k s ->
  exists s', grid_loop W H p n (k + 1) s = Some s' /\
             scanned W H p (k + Z.of_nat n) s'.
Proof.
  induction n as [|n IH]; intros k s Hk Hn Hs.
  - exists s. split; [done|]. by rewrite Z.add_0_r.
  - cbn [grid_loop].
    rewrite grid_body_spec; [|lia|by apply (scanned_tracked k); [lia|]].
    cbn [mbind option_bind].
    rewrite add_small by lia.
    destruct (IH (k + 1) (pick W H s (candidate W H p (k + 1)))) as (s' & Hs' & Hinv).
    + lia.
    + lia.
    + apply scanned_step; [lia|done].
    + exists s'. split; [done|].
      by replace (k + Z.of_nat (S n)) with (k + 1 + Z.of_nat n) by lia.
Qed.

Lemma calculateOptimalGrid_scanned :
  exists s, calculateOptimalGrid W H p = Some (best s) /\ scanned W H p p s.
Proof.
  destruct (grid_loop_scanned (Z.to_nat p) 0 search_init) as (s & Hs & Hinv).
  - lia.
  - lia.
  - apply scanned_init.
  - exists s. unfold calculateOptimalGrid. change (0 + 1) with 1 in Hs.
    rewrite Hs. split; [done|].
    assert (E : 0 + Z.of_nat (Z.to_nat p) = p) by lia.
    by rewrite E in Hinv.
Qed.

End PlannerFacts.

Lemma coverage_le W H g g' :
  0 < W * H -> (coverage W H g' <= coverage W H g)%Q <-> area g' <= area g.
Proof. intros. by apply Qdiv_inject_le. Qed.

Lemma coverage_eq W H g g' :
  0 < W * H -> (coverage W H g' == coverage W H g)%Q <-> area g' = area g.
Proof.
  intros HWH. split.
  - intros E. apply Z.le_antisymm; apply (coverage_le W H); try done;
      rewrite E; apply Qle_refl.
  - intros E. unfold coverage. by rewrite E.
Qed.

Lemma coverage_zero W H : (coverage W H zero_grid == 0)%Q.
Proof. unfold coverage, Qdiv. change (area zero_grid) with 0. apply Qmult_0_l. Qed.

Lemma coverage_pos W H g :
  0 < W * H -> (0 < coverage W H g)%Q <-> 0 < area g.
Proof.
  intros HWH. split.
  - intros Hlt. apply Z.lt_nge. intros Hle.
    apply (coverage_le W H zero_grid g HWH) in Hle.
    rewrite coverage_zero in Hle. by apply Qlt_not_le in Hlt.
  - intros Hpos. apply Qnot_le_lt. intros Hle.
    rewrite <- (coverage_zero W H) in Hle.
    apply coverage_le in Hle; [|done]. change (area zero_grid) with 0 in Hle. lia.
Qed.


Section PlannerTheorems.
Context {F : Float64} {L : Float64Laws F}.
Variables W H p : Z.
Hypothesis HW : 1 <= W.
Hypothesis HH : 1 <= H.
Hypothesis Hp : 1 <= p < 2 ^ 53.
Hypothesis HWH : W * H < 2 ^ 53.

(** The part of the invariants of [GridDimensions] that the planner keeps:
    on a canvas of less than 2^53 pixels and for less than 2^53 pictures
    (so that no [int] overflows and the laws of [float64] apply) it returns
    the zero value, or tiles that fit the canvas in both directions with a
    height of twice the width, or of one pixel more. *)
Theorem calculateOptimalGrid_fits :
  exists g, calculateOptimalGrid W H p = Some g /\
    (g = zero_grid \/
     (Cols g * PicWidth g <= W /\ Rows g * PicHeight g <= H /\
      2 * PicWidth g <= PicHeight g <= 2 * PicWidth g + 1)).
Proof.
  destruct (calculateOptimalGrid_scanned W H p HW HH Hp HWH) as (s & -> & _ & Hs).
  exists (best s). split; [done|].
  destruct Hs as [->|(c0 & Hc0 & Hcand & _)]; [by left|right].
  destruct (candidate_facts W H p HW HH Hp c0 _ ltac:(lia) Hcand)
    as (_ & _ & _ & _ & ? & ? & ?). done.
Qed.

(** Claim C9, amended.  On a canvas of at least 1x1 and less than 2^53
    pixels and for at least one and less than 2^53 pictures,
    [calculateOptimalGrid]
    returns (without a panic) either the all-zero value or an arrangement
    whose four fields are all strictly positive: a candidate is selected
    only when its utilization is strictly positive.  So [Cols > 0] alone
    tells that the tiles cover a positive area. *)
Theorem calculateOptimalGrid_zero_or_positive :
  exists g, calculateOptimalGrid W H p = Some g /\
    (g = zero_grid \/
     (0 < Cols g /\ 0 < Rows g /\ 0 < PicWidth g /\ 0 < PicHeight g)) /\
    (0 < Cols g <-> 0 < area g).
Proof.
  destruct (calculateOptimalGrid_scanned W H p HW HH Hp HWH) as (s & -> & _ & Hs).
  exists (best s). split; [done|].
  destruct Hs as [->|(c0 & Hc0 & Hcand & Hpos & _)].
  { split; [by left|]. done. }
  destruct (candidate_facts W H p HW HH Hp c0 _ ltac:(lia) Hcand)
    as (HC & HR & Hw & Hh & _).
  pose proof (rows_for_bounds p Hp c0 ltac:(lia)) as Hr.
  unfold area in *. rewrite HC, HR in *.
  assert (0 < PicWidth (best s) /\ 0 < PicHeight (best s)) as [? ?] by nia.
  split; [right; lia|]. split; [done|lia].
Qed.

(** Claim C3, amended.  In the same range of inputs, no accepted candidate
    with a column count in [1 .. pictureCount] has a greater utilization
    than the returned value; when some accepted candidate has a positive
    utilization, the returned value is the accepted candidate of the
    smallest column count among those of the greatest utilization; when
    none has, the returned value is the zero value and no candidate. *)
Theorem calculateOptimalGrid_covers_most :
  exists g, calculateOptimalGrid W H p = Some g /\
    covers_most W H p g /\
    ((exists c g', 1 <= c <= p /\ candidate W H p c = Some g' /\
                   (0 < coverage W H g')%Q) ->
     first_of_the_best W H p g) /\
    ((forall c g', 1 <= c <= p -> candidate W H p c = Some g' ->
                   (coverage W H g' == 0)%Q) ->
     g = zero_grid).
Proof.
  destruct (calculateOptimalGrid_scanned W H p HW HH Hp HWH) as (s & -> & Hmax & Hs).
  assert (HWH' : 0 < W * H) by nia.
  exists (best s). split; [done|]. split; [|split].
  - intros c g' Hc Hg'. apply coverage_le; [done|]. by apply Hmax with c.
  - intros (c & g' & Hc & Hg' & Hpos).
    apply coverage_pos in Hpos; [|done].
    pose proof (Hmax c g' Hc Hg') as Hle.
    destruct Hs as [->|(c0 & Hc0 & Hcand & _ & _ & Hfirst)].
    { simpl in Hle. change (area zero_grid) with 0 in Hle. lia. }
    exists c0. split; [done|]. split; [done|].
    intros c' g'' Hc' Hg'' Heq. apply coverage_eq in Heq; [|done].
    destruct (Z.le_gt_cases c0 c') as [|Hlt]; [done|].
    pose proof (Hfirst c' g'' ltac:(lia) Hg''). lia.
  - intros Hall.
    destruct Hs as [->|(c0 & Hc0 & Hcand & Hpos & _)]; [done|].
    specialize (Hall c0 _ Hc0 Hcand).
    apply (coverage_pos W H) in Hpos; [|done].
    rewrite Hall in Hpos. by apply Qlt_irrefl in Hpos.
Qed.

End PlannerTheorems.

(** The deployed canvas of 1024x2048 with six pictures. *)
Lemma calculateOptimalGrid_fits_witness :
  exists g, calculateOptimalGrid (F := exact) 1024 2048 6 = Some g /\
    (g = zero_grid \/
     (Cols g * PicWidth g <= 1024 /\ Rows g * PicHeight g <= 2048 /\
      2 * PicWidth g <= PicHeight g <= 2 * PicWidth g + 1)).
Proof.
  apply (calculateOptimalGrid_fits (F := exact) (L := exact_laws) 1024 2048 6); lia.
Defined.

Lemma calculateOptimalGrid_zero_or_positive_witness :
  exists g, calculateOptimalGrid (F := exact) 1024 2048 6 = Some g /\
    (g = zero_grid \/
     (0 < Cols g /\ 0 < Rows g /\ 0 < PicWidth g /\ 0 < PicHeight g)) /\
    (0 < Cols g <-> 0 < area g).
Proof.
  apply (calculateOptimalGrid_zero_or_positive (F := exact) (L := exact_laws)
           1024 2048 6); lia.
Defined.

Lemma calculateOptimalGrid_covers_most_witness :
  exists g, calculateOptimalGrid (F := exact) 1024 2048 6 = Some g /\
    covers_most 1024 2048 6 g /\
    ((exists c g', 1 <= c <= 6 /\ candidate 1024 2048 6 c = Some g' /\
                   (0 < coverage 1024 2048 g')%Q) ->
     first_of_the_best 1024 2048 6 g) /\
    ((forall c g', 1 <= c <= 6 -> candidate 1024 2048 6 c = Some g' ->
                   (coverage 1024 2048 g' == 0)%Q) ->
     g = zero_grid).
Proof.
  apply (calculateOptimalGrid_covers_most (F := exact) (L := exact_laws)
           1024 2048 6); lia.
Defined.

(** Claim C1, at a failing input.  With binary64 arithmetic and the canvas
    of the handler, 17 pictures give tiles of 204x409: the height is not
    twice the width (the height-limited branch halves an odd height),
    while both bounds of the canvas hold. *)
Theorem calculateOptimalGrid_odd_height :
  calculateOptimalGrid (F := ieee) 1024 2048 17
  = Some {| Cols := 4; Rows := 5; PicWidth := 204; PicHeight := 409 |} /\
  409 <> 2 * 204 /\ 4 * 204 <= 1024 /\ 5 * 409 <= 2048.
Proof. split; [vm_compute; reflexivity|lia]. Qed.

(** Claim C3 as stated fails on a canvas of one pixel with one picture:
    the only candidate, of one column, passes the fit check with a
    utilization of zero, the greatest there is, and the zero value is
    returned in its place. *)
Lemma calculateOptimalGrid_returns_no_candidate :
  calculateOptimalGrid (F := ieee) 1 1 1 = Some zero_grid /\
  candidate 1 1 1 1
  = Some {| Cols := 1; Rows := 1; PicWidth := 0; PicHeight := 1 |} /\
  covers_most 1 1 1 zero_grid /\
  ~ first_of_the_best 1 1 1 zero_grid.
Proof.
  split; [vm_compute; reflexivity|]. split; [reflexivity|]. split.
  - intros c g' Hc Hg'. assert (c = 1) as -> by lia.
    vm_compute in Hg'. injection Hg' as <-. vm_compute. discriminate.
  - intros (c0 & Hc0 & Hcand & _). assert (c0 = 1) as -> by lia.
    vm_compute in Hcand. discriminate.
Qed.

(** Claim C9 as stated fails beyond that range.  On a canvas of
    MaxInt64 x MaxInt64 with one picture, [2 * tempWidth] overflows to
    -2, so the width counts as the limit and the tile gets the height
    -2; the two products of the utilization wrap around to 2 and 1, the
    utilization 2.0 is above [bestFit], and the candidate is selected.
    The value returned is not the zero value, its [Cols] is positive,
    its [PicHeight] is not, and neither is the area of its tiles. *)
Lemma calculateOptimalGrid_negative_height :
  exists g,
    calculateOptimalGrid (F := ieee) GoInt.max_int GoInt.max_int 1 = Some g /\
    g = {| Cols := 1; Rows := 1; PicWidth := GoInt.max_int; PicHeight := -2 |} /\
    ~ (g = zero_grid \/
       (0 < Cols g /\ 0 < Rows g /\ 0 < PicWidth g /\ 0 < PicHeight g)) /\
    ~ (0 < Cols g <-> 0 < area g).
Proof.
  eexists. split; [vm_compute; reflexivity|]. split; [reflexivity|].
  split.
  - intros [E|(_ & _ & _ & Hh)]; [discriminate E|]. simpl in Hh. lia.
  - intros [Hpos _]. unfold area in Hpos. simpl in Hpos. lia.
Qed.

(** Binary64 is not proved to satisfy [Float64Laws] here; it is run: on
    the canvas of the handler and on small canvases the search returns
    what it returns with exact arithmetic, and the laws hold at the ends
    of their range. *)
Example binary64_agrees_on_the_wall :
  forallb (same_result 1024 2048) (seqZ 1 48) = true.
Proof. vm_compute. reflexivity. Qed.

Example binary64_agrees_on_small_canvases :
  forallb (fun W => forallb (fun H => forallb (same_result W H) (seqZ 1 6))
                      (seqZ 1 6)) (seqZ 1 6) = true.
Proof. vm_compute. reflexivity. Qed.

Example binary64_ceiling_samples :
  forallb (fun p => forallb (ceil_ok p) (seqZ 1 p)) (seqZ 1 40) = true /\
  forallb (fun p => ceil_ok p 3 && ceil_ok p 7 && ceil_ok p 1023)
    [9007199254740991; 9007199254740990; 9007199254740989; 4503599627370497]
  = true.
Proof. split; vm_compute; reflexivity. Qed.

Example binary64_comparison_samples :
  (let ends := [0; 1; 2; 3; 1395372; 1395373; 2097151; 2097152] in
   forallb (fun a => forallb (gt_ok 2097152 a) ends) ends = true) /\
  (let ends := [0; 1; 2; 4503599627370495; 4503599627370496;
                4503599627370497; 9007199254740989; 9007199254740990;
                9007199254740991] in
   forallb (fun a => forallb (gt_ok 9007199254740991 a) ends) ends = true).
Proof. split; vm_compute; reflexivity. Qed.

(** On the canvas of the handler, more than 2^20 pictures leave no room
    for a tile of one pixel by two: the zero value is returned. *)
Lemma calculateOptimalGrid_crowded {F : Float64} {L : Float64Laws F} (p : Z) :
  2 ^ 20 < p < 2 ^ 53 ->
  calculateOptimalGrid 1024 2048 p = Some zero_grid.
Proof.
  intros Hp.
  destruct (calculateOptimalGrid_scanned 1024 2048 p) as (s & -> & _ & Hs);
    [lia..|].
  destruct Hs as [->|(c & Hc & Hg' & Hpos & _)]; [done|exfalso].
  destruct (candidate_facts 1024 2048 p ltac:(lia) ltac:(lia) ltac:(lia) c _
              ltac:(lia) Hg') as (HC & HR & Hw & Hh & HCw & HRh & Hasp).
  pose proof (rows_for_bounds p ltac:(lia) c ltac:(lia)) as Hr.
  assert (p <= c * rows_for p c).
  { unfold rows_for.
    pose proof (Z.div_mod (p + c - 1) c ltac:(lia)).
    pose proof (Z.mod_pos_bound (p + c - 1) c ltac:(lia)). lia. }
  unfold area in Hpos. rewrite HC, HR in *.
  assert (1 <= PicWidth (best s)) by nia.
  assert (2 <= PicHeight (best s)) by lia.
  assert (c <= 1024) by nia. assert (rows_for p c <= 1024) by nia.
  assert (c * rows_for p c <= 1024 * 1024) by nia. lia.
Qed.

End GridFacts.

(** ** The worker pool *)

Module PoolFacts.
Import Pool.
Local Open Scope Z_scope.

Lemma holding_insert {Image} (ws : list (Worker Image)) w k k' :
  ws !! w = Some k ->
  held k ++ holding (<[w := k']> ws) ≡ₚ held k' ++ holding ws.
Proof.
  revert w. induction ws as [|k0 ws IH]; intros [|w] Hw; simplify_eq/=.
  - unfold holding; simpl. apply Permutation_app_swap_app.
  - unfold holding in *; simpl.
    rewrite Permutation_app_swap_app, (IH w Hw).
    apply Permutation_app_swap_app.
Qed.

Lemma worker_fuel_insert {Image} (ws : list (Worker Image)) w k k' :
  ws !! w = Some k ->
  (sum_list (worker_fuel <$> <[w := k']> ws) + worker_fuel k
   = sum_list (worker_fuel <$> ws) + worker_fuel k')%nat.
Proof.
  revert w. induction ws as [|k0 ws IH]; intros [|w] Hw; simplify_eq/=.
  - lia.
  - specialize (IH w Hw). lia.
Qed.

Lemma holding_replicate {Image} n :
  holding (replicate n (Idle (Image := Image))) = [].
Proof. induction n; [done|]. unfold holding in *. by simpl. Qed.

Lemma holding_nil {Image} (ws : list (Worker Image)) :
  holding ws = [] ->
  (exists w, ws !! w = Some Idle) \/ Forall (fun k => k = Exited) ws.
Proof.
  induction ws as [|k ws IH]; [by right|].
  unfold holding in *; simpl. destruct k; simpl; try done.
  - intros _. left. by exists 0%nat.
  - intros Hh. destruct (IH Hh) as [[w Hw]|HF].
    + left. by exists (S w).
    + right. by constructor.
Qed.

Lemma holding_cons {Image} (ws : list (Worker Image)) r rs :
  holding ws = r :: rs -> exists w r', ws !! w = Some (Holding r').
Proof.
  induction ws as [|k ws IH]; [done|].
  unfold holding in *; simpl. destruct k; simpl.
  - intros Hh. destruct (IH Hh) as (w & r' & Hw). by exists (S w), r'.
  - intros _. by exists 0%nat, r0.
  - intros Hh. destruct (IH Hh) as (w & r' & Hw). by exists (S w), r'.
Qed.

Section Collect.
Context {Image : Type}.
Implicit Types (l : list (ImageResult Image)) (m : gmap Z Image).

(** What the collector's map holds when no index comes twice. *)
Lemma collect_lookup l i img :
  NoDup (res_Index <$> l) ->
  foldl collect ∅ l !! i = Some img <->
  exists r, r ∈ l /\ res_Index r = i /\ res_outcome r = inl img.
Proof.
  induction l as [|r l IH] using rev_ind; intros Hnd.
  - simpl. rewrite lookup_empty. split; [done|].
    intros (r & Hr & _). by apply elem_of_nil in Hr.
  - rewrite fmap_app in Hnd. apply NoDup_app in Hnd as (Hnd & Hfresh & _).
    specialize (IH Hnd). rewrite foldl_snoc. unfold collect at 1.
    assert (Hother : forall r', r' ∈ l -> res_Index r' <> res_Index r).
    { intros r' Hr' E. apply (Hfresh (res_Index r)); [|simpl; left].
      apply list_elem_of_fmap. by exists r'. }
    destruct (res_outcome r) as [img_r|e] eqn:Hout.
    + destruct (decide (res_Index r = i)) as [<-|Hne].
      * rewrite lookup_insert_eq. split.
        -- intros [= <-]. exists r. split; [|done]. apply elem_of_app. right. by left.
        -- intros (r' & Hr' & Hi & Ho). apply elem_of_app in Hr' as [Hr'|Hr'].
           ++ by destruct (Hother r' Hr').
           ++ apply list_elem_of_singleton in Hr' as ->. congruence.
      * rewrite lookup_insert_ne by done. rewrite IH. split.
        -- intros (r' & Hr' & ?). exists r'. split; [|done].
           apply elem_of_app. by left.
        -- intros (r' & Hr' & Hi & Ho). exists r'. split; [|done].
           apply elem_of_app in Hr' as [Hr'|Hr']; [done|].
           apply list_elem_of_singleton in Hr' as ->. done.
    + rewrite IH. split.
      * intros (r' & Hr' & ?). exists r'. split; [|done].
        apply elem_of_app. by left.
      * intros (r' & Hr' & Hi & Ho). exists r'. split; [|done].
        apply elem_of_app in Hr' as [Hr'|Hr']; [done|].
        apply list_elem_of_singleton in Hr' as ->. congruence.
Qed.

(** The order in which the results arrive does not matter. *)
Lemma collect_permutation l l' :
  NoDup (res_Index <$> l) -> l ≡ₚ l' ->
  foldl collect ∅ l = foldl collect ∅ l'.
Proof.
  intros Hnd Hperm. apply map_eq. intros i. apply option_eq. intros img.
  rewrite !collect_lookup; [|by rewrite <- Hperm|done].
  by setoid_rewrite Hperm.
Qed.

(** One entry for every result without an error. *)
Lemma collect_size l :
  NoDup (res_Index <$> l) ->
  size (foldl collect ∅ l)
  = length (filter (fun r => Is_true (succeeded r)) l).
Proof.
  induction l as [|r l IH] using rev_ind; intros Hnd; [done|].
  pose proof (collect_lookup l (res_Index r)) as Hlook.
  rewrite fmap_app in Hnd. apply NoDup_app in Hnd as (Hnd & Hfresh & _).
  rewrite foldl_snoc, filter_app, length_app. unfold collect at 1.
  rewrite <- (IH Hnd).
  destruct (res_outcome r) as [img|e] eqn:Hout.
  - rewrite filter_cons_True.
    2:{ unfold succeeded. by rewrite Hout. }
    rewrite map_size_insert_None; [simpl; lia|].
    apply eq_None_not_Some. intros [img' Himg'].
    apply Hlook in Himg' as (r' & Hr' & Hi & _); [|done].
    apply (Hfresh (res_Index r)); [|simpl; left].
    apply list_elem_of_fmap. by exists r'.
  - rewrite filter_cons_False.
    2:{ unfold succeeded. rewrite Hout. by intros []. }
    simpl. lia.
Qed.

End Collect.

Section Pool.
Context {Image : Type}.
Variable fetch : ImageJob -> Image + string.
Variable imaging_Fill : Image -> Z -> Z -> Image.
Variable pictureUUIDs : list string.
Variable grid : Grid.GridDimensions.
Variable maxWorkers : Z.

Local Abbreviation process := (process fetch imaging_Fill).
Local Abbreviation step := (step fetch imaging_Fill pictureUUIDs grid).
Local Abbreviation inv :=
  (pool_inv fetch imaging_Fill pictureUUIDs grid maxWorkers).
Local Abbreviation init := (pool_init (Image := Image) pictureUUIDs maxWorkers).
Local Abbreviation dispatch_from := (dispatch_from grid).
Local Abbreviation slots := (slots grid).
Implicit Types (s : PoolState Image).

Lemma dispatch_from_lookup uuids : forall i n job,
  dispatch_from i uuids !! n = Some job <->
  exists uuid, uuids !! n = Some uuid /\ i + Z.of_nat n < slots /\
               job = job_for grid (i + Z.of_nat n) uuid.
Proof.
  induction uuids as [|uuid uuids IH]; intros i n job; simpl.
  { split; [done|]. by intros (? & ? & _). }
  destruct (Z.leb_spec slots i) as [Hle|Hlt].
  - split; [done|]. intros (? & _ & ? & _). lia.
  - destruct n as [|n]; simpl.
    + rewrite Z.add_0_r. split.
      * intros [= <-]. by exists uuid.
      * intros (? & [= <-] & _ & ->). done.
    + rewrite IH. replace (i + 1 + Z.of_nat n) with (i + Z.of_nat (S n)) by lia.
      done.
Qed.

Lemma dispatch_from_length uuids : forall i,
  Z.of_nat (length (dispatch_from i uuids))
  = Z.max 0 (Z.min (Z.of_nat (length uuids)) (slots - i)).
Proof.
  induction uuids as [|uuid uuids IH]; intros i; simpl.
  { lia. }
  destruct (Z.leb_spec slots i) as [Hle|Hlt]; simpl; [lia|].
  rewrite Nat2Z.inj_succ, IH. lia.
Qed.

Lemma dispatch_from_Index uuids i :
  Index <$> dispatch_from i uuids
  = (fun n => i + Z.of_nat n) <$> seq 0 (length (dispatch_from i uuids)).
Proof.
  revert i. induction uuids as [|uuid uuids IH]; intros i; simpl; [done|].
  destruct (Z.leb_spec slots i); simpl; [done|].
  rewrite IH, Z.add_0_r. f_equal.
  rewrite <- fmap_S_seq, <- list_fmap_compose.
  apply list_fmap_ext. intros _ n _. simpl. lia.
Qed.

Lemma dispatch_from_NoDup uuids i :
  NoDup (res_Index <$> (process <$> dispatch_from i uuids)).
Proof.
  rewrite <- list_fmap_compose.
  change (res_Index ∘ process) with Index.
  rewrite dispatch_from_Index. apply NoDup_fmap_2; [|apply NoDup_seq].
  intros n1 n2. lia.
Qed.

Lemma inv_init : inv init.
Proof.
  split; [|split; [|split; [|split; [|split]]]]; simpl.
  - exists []. rewrite holding_replicate. done.
  - done.
  - unfold unsent; simpl. lia.
  - done.
  - intros Hin. apply elem_of_replicate in Hin as [? _]. done.
  - apply length_replicate.
Qed.


Lemma elem_of_insert_inv {A} (l : list A) i x y :
  x ∈ <[i := y]> l -> x = y \/ x ∈ l.
Proof.
  intros Hin. apply list_elem_of_lookup in Hin as [j Hj].
  apply list_lookup_insert_Some in Hj as [(_ & <- & _)|[_ Hj]]; [by left|right].
  by apply list_elem_of_lookup_2 in Hj.
Qed.

Lemma inv_step s s' : inv s -> step s s' -> inv s'.
Proof.
  intros ((consumed & Hperm & Himg & Hcol) & Hnext & Hlen & Hclosed & Hexit & Hws)
         Hstep.
  inversion Hstep as
    [s0 uuid rest Hc Hp Hn Hcap|s0 Hc Hend|s0 w job rest Hw Hj
    |s0 w r Hw Hcap|s0 w Hw Hj Hc|s0 r rest Hcing Hr]; subst s0 s';
    unfold pool_inv, unsent in *;
    cbn [next pending jobs closed workers results collected images] in *.
  - (* the dispatcher sends a job *)
    rewrite Hp in *. simpl in Hperm, Hlen.
    destruct (Z.leb_spec slots (next s)); [lia|]. simpl in Hperm, Hlen.
    split; [|split; [lia|split; [|split; [congruence|split; [|done]]]]].
    + exists consumed. split; [|done].
      rewrite <- Hperm, fmap_app, <- !app_assoc. done.
    + lia.
    + intros Hin. destruct (Hexit Hin). congruence.
  - (* the dispatcher closes the channel *)
    split; [by exists consumed|]. split; [done|]. split; [done|].
    split; [|split; [|done]].
    + intros _. destruct Hend as [->|Hle]; [done|].
      destruct (pending s); [done|]. simpl.
      by destruct (Z.leb_spec slots (next s)); [|lia].
    + intros Hin. by destruct (Hexit Hin) as [_ ?].
  - (* a worker takes a job *)
    rewrite Hj in *.
    split; [|split; [done|split; [done|split; [done|split]]]].
    + exists consumed. split; [|done].
      pose proof (holding_insert (workers s) w Idle (Holding (process job)) Hw)
        as Hh. simpl in Hh.
      rewrite <- Hperm, Hh. simpl.
      rewrite <- !Permutation_middle. done.
    + intros Hin. apply elem_of_insert_inv in Hin as [?|Hin]; [done|].
      by destruct (Hexit Hin).
    + by rewrite length_insert.
  - (* a worker sends its result *)
    split; [|split; [done|split; [done|split; [done|split]]]].
    + exists consumed. split; [|done].
      pose proof (holding_insert (workers s) w (Holding r) Idle Hw) as Hh.
      simpl in Hh.
      rewrite <- Hperm, <- Hh, <- !app_assoc. simpl.
      rewrite <- !Permutation_middle. done.
    + intros Hin. apply elem_of_insert_inv in Hin as [?|Hin]; [done|].
      by apply Hexit.
    + by rewrite length_insert.
  - (* a worker leaves its loop *)
    split; [|split; [done|split; [done|split; [done|split]]]].
    + exists consumed. split; [|done].
      pose proof (holding_insert (workers s) w Idle Exited Hw) as Hh.
      simpl in Hh. by rewrite Hh.
    + done.
    + by rewrite length_insert.
  - (* the collector receives a result *)
    rewrite Hr in *.
    split; [|done].
    exists (consumed ++ [r]). split; [|split].
    + rewrite <- Hperm, <- !app_assoc. done.
    + by rewrite foldl_snoc, Himg.
    + rewrite length_app. simpl. lia.
Qed.

Lemma inv_steps s s' : rtc step s s' -> inv s -> inv s'.
Proof. induction 1; [done|]. intros Hs. eauto using inv_step. Qed.

Lemma step_fuel s s' : step s s' -> (fuel s' < fuel s)%nat.
Proof.
  intros Hstep.
  inversion Hstep as
    [s0 uuid rest Hc Hp Hn Hcap|s0 Hc Hend|s0 w job rest Hw Hj
    |s0 w r Hw Hcap|s0 w Hw Hj Hc|s0 r rest Hcing Hr]; subst s0 s';
    unfold fuel;
    cbn [next pending jobs closed workers results collected images].
  - rewrite Hc, Hp, length_app. simpl. lia.
  - rewrite Hc. lia.
  - pose proof (worker_fuel_insert (workers s) w Idle (Holding (process job)) Hw).
    rewrite Hj. simpl in *. lia.
  - pose proof (worker_fuel_insert (workers s) w (Holding r) Idle Hw).
    rewrite length_app. simpl in *. lia.
  - pose proof (worker_fuel_insert (workers s) w Idle Exited Hw).
    simpl in *. lia.
  - rewrite Hr. simpl. lia.
Qed.

Lemma job_count_length :
  Z.of_nat (length (dispatch_from 0 pictureUUIDs))
  = job_count pictureUUIDs grid.
Proof. rewrite dispatch_from_length. unfold job_count. by rewrite Z.sub_0_r. Qed.

Lemma inv_progress s :
  1 <= maxWorkers -> inv s -> collecting pictureUUIDs grid s ->
  exists s', step s s'.
Proof.
  intros Hmax ((consumed & Hperm & Himg & Hcol) & Hnext & Hlen & Hclosed & Hexit & Hws)
         [Hc1 Hc2].
  destruct (results s) as [|r rest] eqn:Hr.
  2:{ eexists. by eapply step_collect. }
  destruct (holding (workers s)) as [|r rs] eqn:Hh.
  2:{ destruct (holding_cons _ _ _ Hh) as (w & r' & Hw).
      eexists. eapply step_emit; [done|]. rewrite Hr. unfold capacity. simpl. lia. }
  destruct (jobs s) as [|job rest] eqn:Hj.
  - (* a job is still to be sent *)
    apply Permutation_length in Hperm.
    rewrite !length_app, !length_fmap in Hperm. simpl in Hperm.
    pose proof job_count_length as Hk. unfold job_count in Hk. unfold unsent in *.
    destruct (closed s) eqn:Hcl.
    { rewrite Hclosed in Hperm by done. simpl in Hperm. lia. }
    destruct (pending s) as [|uuid rest'] eqn:Hp.
    { simpl in Hperm. lia. }
    simpl in Hperm. destruct (Z.leb_spec slots (next s)) as [|Hlt].
    { simpl in Hperm. lia. }
    eexists. eapply step_send; [done..|]. rewrite Hj. unfold capacity. simpl. lia.
  - (* a worker is free *)
    destruct (holding_nil _ Hh) as [[w Hw]|HF].
    + eexists. by eapply step_take.
    + destruct (workers s) as [|k ks] eqn:Hks; [simpl in Hws; lia|].
      inversion HF as [|? ? -> _]; subst.
      destruct Hexit as [_ ?]; [by left|done].
Qed.

Lemma inv_return s :
  inv s -> ~ collecting pictureUUIDs grid s ->
  images s = downloadImagesWithWorkerPool fetch imaging_Fill pictureUUIDs grid /\
  collected s = job_count pictureUUIDs grid /\
  next s = job_count pictureUUIDs grid.
Proof.
  intros ((consumed & Hperm & Himg & Hcol) & Hnext & Hlen & Hclosed & Hexit & Hws)
         Hdone.
  pose proof job_count_length as Hk.
  pose proof (Permutation_length Hperm) as Hl.
  rewrite !length_app, !length_fmap in Hl.
  assert (Hall : length consumed = length (dispatch_from 0 pictureUUIDs)).
  { unfold collecting in Hdone. unfold job_count in Hk. lia. }
  assert (Hnil : forall {A} (l : list A), length l = 0%nat -> l = []).
  { intros A []; [done|simpl; lia]. }
  assert (Hr : results s = []) by (apply Hnil; lia).
  assert (Hh : holding (workers s) = []) by (apply Hnil; lia).
  assert (Hj : jobs s = []) by (apply Hnil; lia).
  assert (Hu : unsent grid s = []) by (apply Hnil; lia).
  rewrite Hr, Hh, Hj, Hu in Hperm. simpl in Hperm. rewrite app_nil_r in Hperm.
  split; [|split].
  - rewrite Himg. unfold downloadImagesWithWorkerPool.
    symmetry. apply collect_permutation; [apply dispatch_from_NoDup|done].
  - lia.
  - rewrite Hu in Hlen. simpl in Hlen. lia.
Qed.

(** The entries of the map that the pool returns. *)
Lemma pool_map_lookup z img :
  downloadImagesWithWorkerPool fetch imaging_Fill pictureUUIDs grid !! z
  = Some img <->
  exists n uuid, z = Z.of_nat n /\ pictureUUIDs !! n = Some uuid /\
                 z < slots /\
                 outcome_at fetch imaging_Fill grid n uuid = Some img.
Proof.
  unfold downloadImagesWithWorkerPool.
  rewrite collect_lookup by apply dispatch_from_NoDup. split.
  - intros (r & Hr & Hi & Ho).
    apply list_elem_of_fmap in Hr as (job & -> & Hjob).
    apply list_elem_of_lookup in Hjob as [n Hn].
    apply dispatch_from_lookup in Hn as (uuid & Hu & Hlt & ->).
    exists n, uuid. simpl in *. split; [lia|]. split; [done|]. split; [lia|].
    unfold outcome_at. rewrite Z.add_0_l in Ho. by destruct (fetch _); simplify_eq.
  - intros (n & uuid & -> & Hu & Hlt & Ho).
    exists (process (job_for grid (Z.of_nat n) uuid)). split; [|split; [done|]].
    + apply list_elem_of_fmap. eexists. split; [done|].
      apply list_elem_of_lookup. exists n. apply dispatch_from_lookup.
      exists uuid. rewrite Z.add_0_l. done.
    + unfold outcome_at in Ho. simpl. by destruct (fetch _); simplify_eq.
Qed.

Lemma nsteps_fuel n s s' :
  nsteps step n s s' -> (n + fuel s' <= fuel s)%nat.
Proof.
  induction 1 as [|n s1 s2 s3 Hs _ IH]; [lia|].
  pose proof (step_fuel _ _ Hs). lia.
Qed.

(** Claim C7.  With one worker at least, whatever the order in which the
    goroutines of [downloadImagesWithWorkerPool] move: while the collector
    waits for a result some goroutine can move (nothing is awaited that
    never comes), no run is longer than [fuel] of the initial state, and
    when the collector's loop ends it has read [job_count] results, the
    dispatcher has sent [job_count] jobs, and the map is that of
    [downloadImagesWithWorkerPool].  That map holds, at the index of its
    job, the resized image of every dispatched job that succeeded, and
    nothing else: it has as many entries as there are such jobs. *)
Theorem pool_returns :
  1 <= maxWorkers ->
  (forall s, rtc step init s ->
     (collecting pictureUUIDs grid s -> exists s', step s s') /\
     (~ collecting pictureUUIDs grid s ->
      images s
      = downloadImagesWithWorkerPool fetch imaging_Fill pictureUUIDs grid /\
      collected s = job_count pictureUUIDs grid /\
      next s = job_count pictureUUIDs grid)) /\
  (forall n s, nsteps step n init s -> (n <= fuel init)%nat) /\
  (forall z img,
     downloadImagesWithWorkerPool fetch imaging_Fill pictureUUIDs grid !! z
     = Some img <->
     exists n uuid, z = Z.of_nat n /\ pictureUUIDs !! n = Some uuid /\
                    z < job_count pictureUUIDs grid /\
                    outcome_at fetch imaging_Fill grid n uuid = Some img) /\
  size (downloadImagesWithWorkerPool fetch imaging_Fill pictureUUIDs grid)
  = length (filter (fun r => Is_true (succeeded r))
              (process <$> dispatch_from 0 pictureUUIDs)) /\
  Z.of_nat (length (dispatch_from 0 pictureUUIDs))
  = job_count pictureUUIDs grid.
Proof.
  intros Hmax. split; [|split; [|split; [|split]]].
  - intros s Hs. pose proof (inv_steps _ _ Hs inv_init) as Hinv.
    split; [by apply inv_progress|by apply inv_return].
  - intros n s Hs. pose proof (nsteps_fuel _ _ _ Hs). lia.
  - intros z img. rewrite pool_map_lookup. unfold job_count.
    split; intros (n & uuid & -> & Hu & Hlt & Ho); exists n, uuid;
      (split; [done|]; split; [done|]; split; [|done]).
    + apply lookup_lt_Some in Hu. lia.
    + lia.
  - apply collect_size, dispatch_from_NoDup.
  - apply job_count_length.
Qed.

End Pool.

Lemma pool_returns_witness :
  (forall s,
     rtc (step Sample.fetch Sample.fill Sample.pictures Sample.two_cells)
         (pool_init Sample.pictures 10) s ->
     (collecting Sample.pictures Sample.two_cells s ->
      exists s', step Sample.fetch Sample.fill Sample.pictures
                   Sample.two_cells s s') /\
     (~ collecting Sample.pictures Sample.two_cells s ->
      images s
      = downloadImagesWithWorkerPool Sample.fetch Sample.fill Sample.pictures
          Sample.two_cells /\
      collected s = job_count Sample.pictures Sample.two_cells /\
      next s = job_count Sample.pictures Sample.two_cells)) /\
  (forall n s,
     nsteps (step Sample.fetch Sample.fill Sample.pictures Sample.two_cells)
            n (pool_init Sample.pictures 10) s ->
     (n <= fuel (pool_init (Image := string) Sample.pictures 10))%nat) /\
  (forall z img,
     downloadImagesWithWorkerPool Sample.fetch Sample.fill Sample.pictures
       Sample.two_cells !! z = Some img <->
     exists n uuid, z = Z.of_nat n /\ Sample.pictures !! n = Some uuid /\
                    z < job_count Sample.pictures Sample.two_cells /\
                    outcome_at Sample.fetch Sample.fill Sample.two_cells n uuid
                    = Some img) /\
  size (downloadImagesWithWorkerPool Sample.fetch Sample.fill Sample.pictures
          Sample.two_cells)
  = length (filter (fun r => Is_true (succeeded r))
              (process Sample.fetch Sample.fill
                 <$> dispatch_from Sample.two_cells 0 Sample.pictures)) /\
  Z.of_nat (length (dispatch_from Sample.two_cells 0 Sample.pictures))
  = job_count Sample.pictures Sample.two_cells.
Proof.
  apply (pool_returns Sample.fetch Sample.fill Sample.pictures
           Sample.two_cells 10).
  lia.
Defined.

(** The sample pool: two jobs, and one entry, for the first picture. *)
Example pool_sample :
  downloadImagesWithWorkerPool Sample.fetch Sample.fill Sample.pictures
    Sample.two_cells = {[ 0 := "a" ]} /\
  job_count Sample.pictures Sample.two_cells = 2.
Proof. split; reflexivity. Qed.

End PoolFacts.

(** ** The file cache *)

Module CacheFacts.
Import Cache.
Local Open Scope Z_scope.

Lemma time_Sub_mono t t' u : t <= t' -> time_Sub t u <= time_Sub t' u.
Proof. unfold time_Sub. lia. Qed.

Lemma time_Sub_le t u : 0 <= t - u -> time_Sub t u <= t - u.
Proof. unfold time_Sub, GoInt.min_int, GoInt.max_int. lia. Qed.

Section Sequential.
Variable Ext : Type.
Variable digest : string -> string.
Variable filepath_Join : string -> string -> string.

Local Abbreviation World := (World Ext).
Local Abbreviation filePath := (filePath digest filepath_Join).
Local Abbreviation Get := (Get digest filepath_Join).
Local Abbreviation GetOrCreate := (GetOrCreate digest filepath_Join).
Local Abbreviation regenerate := (regenerate digest filepath_Join).
Local Abbreviation writeFileAtomically := (writeFileAtomically digest filepath_Join).
Local Abbreviation fresh_artifact := (fresh_artifact digest filepath_Join).
Local Abbreviation empty_artifact := (empty_artifact digest filepath_Join).

Implicit Types (c : FileCache) (key : string) (w : World) (g : Generator Ext).

(** [Get] reads the disk, the clock and the faults only. *)
Lemma Get_ext c key w w' :
  disk w' = disk w -> now w' = now w -> io w' = io w ->
  Get c key w' = Get c key w.
Proof.
  intros Hd Hn Hi. unfold Cache.Get, os_Stat, os_Open, io_ReadAll, time_Since.
  by rewrite Hd, Hn, Hi.
Qed.

Lemma Get_getPerKeyMutex c key w :
  Get c key (getPerKeyMutex key w) = Get c key w.
Proof. by apply Get_ext. Qed.

(** What [Get] answers on a disk without I/O errors. *)
Lemma Get_healthy c key w :
  io w = no_faults ->
  Get c key w =
    match disk w !! filePath c key with
    | None => miss
    | Some f =>
        if Z.of_nat (length (content f)) =? 0 then miss
        else if TTL c <? time_Since w (modTime f) then miss
        else cached (content f)
    end.
Proof.
  intros Hio. unfold Cache.Get, os_Stat, os_Open, io_ReadAll. rewrite Hio. simpl.
  destruct (disk w !! _) as [f|]; [|done].
  by repeat case_match.
Qed.

Lemma Get_hit_fresh c key w :
  hit (Get c key w) = true ->
  exists f, disk w !! filePath c key = Some f /\ content f <> [] /\
            time_Since w (modTime f) <= TTL c /\
            Get c key w = cached (content f).
Proof.
  unfold Cache.Get, os_Stat, os_Open, io_ReadAll.
  destruct (stat_fault _ _); [done|].
  destruct (disk w !! _) as [f|] eqn:Hf; [|done].
  destruct (Z.eqb_spec (Z.of_nat (length (content f))) 0); [done|].
  destruct (Z.ltb_spec (TTL c) (time_Since w (modTime f))); [done|].
  destruct (open_fault _ _); [done|].
  destruct (read_fault _ _); [done|]. intros _.
  exists f. repeat split; try done; try lia.
  intros E. rewrite E in *. done.
Qed.

Lemma fresh_Get_hit c key w :
  io w = no_faults -> fresh_artifact c key w -> hit (Get c key w) = true.
Proof.
  intros Hio (f & Hf & Hne & Hage). rewrite Get_healthy, Hf by done.
  destruct (Z.eqb_spec (Z.of_nat (length (content f))) 0) as [E|].
  { destruct (content f); [done|simpl in E; lia]. }
  destruct (Z.ltb_spec (TTL c) (time_Since w (modTime f))); [lia|done].
Qed.

Lemma GetOrCreate_missed c key g w :
  missed (Get c key w) ->
  GetOrCreate c key g w = regenerate c key g (getPerKeyMutex key w).
Proof.
  intros [Hh He]. unfold Cache.GetOrCreate.
  rewrite Get_getPerKeyMutex, He, Hh. done.
Qed.

Lemma GetOrCreate_hit c key g w :
  hit (Get c key w) = true ->
  GetOrCreate c key g w = Some (cached (data (Get c key w)), w).
Proof.
  intros Hh. unfold Cache.GetOrCreate.
  destruct (Get_hit_fresh c key w Hh) as (f & _ & _ & _ & ->). done.
Qed.

(** A miss stays a miss while the disk is as it is and time goes on. *)
Lemma missed_later c key w w' :
  disk w' = disk w -> io w' = io w -> now w <= now w' ->
  missed (Get c key w) -> missed (Get c key w').
Proof.
  intros Hd Hi Hn. unfold missed, Cache.Get, os_Stat, os_Open, io_ReadAll, time_Since.
  rewrite Hd, Hi.
  destruct (stat_fault _ _); [done|].
  destruct (disk w !! _) as [f|] eqn:Hf; [|done].
  destruct (Z.eqb_spec (Z.of_nat (length (content f))) 0); [done|].
  pose proof (time_Sub_mono (now w) (now w') (modTime f) Hn).
  destruct (Z.ltb_spec (TTL c) (time_Sub (now w) (modTime f))).
  - destruct (Z.ltb_spec (TTL c) (time_Sub (now w') (modTime f))); [done|lia].
  - destruct (open_fault _ _); [by intros [_ ?]|].
    destruct (read_fault _ _); [by intros [_ ?]|]. by intros [? _].
Qed.


Lemma regenerate_error c key g w e x :
  g (ext w) = Some (inr e, x) ->
  regenerate c key g w = Some (failure e, with_ext x w).
Proof. intros Hg. unfold Cache.regenerate. by rewrite Hg. Qed.

Lemma regenerate_bytes c key g w b x :
  g (ext w) = Some (inl b, x) -> write_fault (io w) = None ->
  regenerate c key g w =
    Some (fresh b,
          with_disk (<[filePath c key := {| content := b; modTime := now w |}]>
                       (disk w)) (with_ext x w)).
Proof.
  intros Hg Hw. unfold Cache.regenerate, Cache.writeFileAtomically.
  rewrite Hg. simpl. by rewrite Hw.
Qed.

(** Claim C5.  On a disk without I/O errors, [Get] reports a hit if and
    only if the artifact of the key exists, is not empty, and its age
    [time.Since(modTime)] is at most the TTL, and so does [GetOrCreate],
    whose fast path then returns the bytes of the artifact and leaves the
    generator alone.  An artifact older than the TTL is a miss:
    [GetOrCreate] runs the generator and writes its bytes over the
    artifact. *)
Theorem hit_iff_fresh_artifact c key w :
  io w = no_faults ->
  (hit (Get c key w) = true <-> fresh_artifact c key w) /\
  (forall g r w', GetOrCreate c key g w = Some (r, w') ->
     (hit r = true <-> fresh_artifact c key w)) /\
  (forall g f, disk w !! filePath c key = Some f -> fresh_artifact c key w ->
     GetOrCreate c key g w = Some (cached (content f), w)) /\
  (forall g f b x,
     disk w !! filePath c key = Some f ->
     TTL c < time_Since w (modTime f) ->
     g (ext w) = Some (inl b, x) ->
     Get c key w = miss /\
     exists w', GetOrCreate c key g w = Some (fresh b, w') /\
       disk w' !! filePath c key = Some {| content := b; modTime := now w |} /\
       ext w' = x).
Proof.
  intros Hio.
  assert (Hiff : hit (Get c key w) = true <-> fresh_artifact c key w).
  { split; [|by apply fresh_Get_hit].
    intros Hh. destruct (Get_hit_fresh c key w Hh) as (f & ? & ? & ? & _).
    by exists f. }
  split; [done|]. split; [|split].
  - intros g r w' Hr. rewrite <- Hiff.
    destruct (hit (Get c key w)) eqn:Hh.
    + rewrite GetOrCreate_hit in Hr by done. by injection Hr as <- <-.
    + assert (Hm : missed (Get c key w)).
      { split; [done|]. rewrite Get_healthy by done. by repeat case_match. }
      rewrite GetOrCreate_missed in Hr by done.
      unfold Cache.regenerate, Cache.writeFileAtomically in Hr.
      destruct (g _) as [[[b|e] x]|]; simpl in Hr; [|by injection Hr as <- <-|done].
      destruct (write_fault _); by injection Hr as <- <-.
  - intros g f Hf Hfresh. rewrite GetOrCreate_hit by by apply Hiff.
    destruct (Get_hit_fresh c key w) as (f' & Hf' & _ & _ & ->); [by apply Hiff|].
    by assert (f' = f) as -> by congruence.
  - intros g f b x Hf Hold Hg.
    assert (Hget : Get c key w = miss).
    { rewrite Get_healthy, Hf by done.
      destruct (Z.ltb_spec (TTL c) (time_Since w (modTime f))); [|lia].
      by case_match. }
    split; [done|].
    rewrite GetOrCreate_missed by by rewrite Hget.
    erewrite regenerate_bytes; [|done|by simpl; rewrite Hio].
    eexists. split; [done|]. simpl. by rewrite lookup_insert_eq.
Qed.

(** Claim C6.  When the cache misses and the generator returns an error,
    [GetOrCreate] returns that error and leaves the disk as it was; a call
    that follows, at the same or a later time and with the disk still as
    it was, misses again and runs its generator. *)
Theorem generator_error_is_not_cached c key g w e x :
  missed (Get c key w) ->
  g (ext w) = Some (inr e, x) ->
  exists w', GetOrCreate c key g w = Some (failure e, w') /\
    disk w' = disk w /\ ext w' = x /\
    forall g2 w2, disk w2 = disk w' -> io w2 = io w' -> now w' <= now w2 ->
      missed (Get c key w2) /\
      GetOrCreate c key g2 w2 = regenerate c key g2 (getPerKeyMutex key w2).
Proof.
  intros Hm Hg. rewrite GetOrCreate_missed by done.
  erewrite regenerate_error by exact Hg.
  eexists. split; [done|]. split; [done|]. split; [done|].
  intros g2 w2 Hd Hi Hn.
  assert (missed (Get c key w2)).
  { by apply (missed_later c key w w2). }
  split; [done|]. by apply GetOrCreate_missed.
Qed.

(** Claim C10.  When the cache misses and the generator returns no bytes
    and no error, [GetOrCreate] writes an empty artifact and returns the
    empty bytes as a miss.  Whenever the artifact of the key is empty,
    at whatever time, [Get] misses and [GetOrCreate] runs the generator;
    if that one returns no bytes either, the artifact is empty again. *)
Theorem empty_bytes_are_never_a_hit c key g w x :
  missed (Get c key w) -> write_fault (io w) = None ->
  g (ext w) = Some (inl [], x) ->
  (exists w', GetOrCreate c key g w = Some (fresh [], w') /\
     disk w' !! filePath c key = Some {| content := []; modTime := now w |} /\
     empty_artifact c key w') /\
  (forall g2 w2, empty_artifact c key w2 -> stat_fault (io w2) (filePath c key) = None ->
     Get c key w2 = miss /\
     GetOrCreate c key g2 w2 = regenerate c key g2 (getPerKeyMutex key w2) /\
     forall x2, g2 (ext w2) = Some (inl [], x2) -> write_fault (io w2) = None ->
       exists w3, GetOrCreate c key g2 w2 = Some (fresh [], w3) /\
                  empty_artifact c key w3 /\ ext w3 = x2).
Proof.
  intros Hm Hw Hg.
  assert (Hempty : forall w2, empty_artifact c key w2 ->
            stat_fault (io w2) (filePath c key) = None -> Get c key w2 = miss).
  { intros w2 [t Ht] Hs. unfold Cache.Get, os_Stat. by rewrite Hs, Ht. }
  assert (Hrun : forall g2 w2 x2, missed (Get c key w2) ->
            g2 (ext w2) = Some (inl [], x2) -> write_fault (io w2) = None ->
            exists w3, GetOrCreate c key g2 w2 = Some (fresh [], w3) /\
              disk w3 !! filePath c key
              = Some {| content := []; modTime := now w2 |} /\ ext w3 = x2).
  { intros g2 w2 x2 Hm2 Hg2 Hw2. rewrite GetOrCreate_missed by done.
    erewrite regenerate_bytes; [|done|done].
    eexists. split; [done|]. simpl. by rewrite lookup_insert_eq. }
  split.
  - destruct (Hrun g w x Hm Hg Hw) as (w' & ? & ? & ?).
    exists w'. split; [done|]. split; [done|]. by eexists.
  - intros g2 w2 He Hs. pose proof (Hempty w2 He Hs) as Hget.
    assert (missed (Get c key w2)) by by rewrite Hget.
    split; [done|]. split; [by apply GetOrCreate_missed|].
    intros x2 Hg2 Hw2. destruct (Hrun g2 w2 x2) as (w3 & ? & ? & ?); [done..|].
    exists w3. split; [done|]. split; [by eexists|done].
Qed.

End Sequential.

(** A fresh artifact, and the same artifact two hours later. *)
Lemma hit_iff_fresh_artifact_witness :
  (hit (Get Sample.digest Sample.join Sample.cache "wall" Sample.stale) = true
   <-> fresh_artifact Sample.digest Sample.join Sample.cache "wall" Sample.stale) /\
  (forall (g : Generator nat) r w',
     GetOrCreate Sample.digest Sample.join Sample.cache "wall" g Sample.stale
     = Some (r, w') ->
     (hit r = true
      <-> fresh_artifact Sample.digest Sample.join Sample.cache "wall" Sample.stale)) /\
  (forall (g : Generator nat) f,
     disk Sample.stale !! filePath Sample.digest Sample.join Sample.cache "wall"
     = Some f ->
     fresh_artifact Sample.digest Sample.join Sample.cache "wall" Sample.stale ->
     GetOrCreate Sample.digest Sample.join Sample.cache "wall" g Sample.stale
     = Some (cached (content f), Sample.stale)) /\
  (forall (g : Generator nat) f b x,
     disk Sample.stale !! filePath Sample.digest Sample.join Sample.cache "wall"
     = Some f ->
     TTL Sample.cache < time_Since Sample.stale (modTime f) ->
     g (ext Sample.stale) = Some (inl b, x) ->
     Get Sample.digest Sample.join Sample.cache "wall" Sample.stale = miss /\
     exists w',
       GetOrCreate Sample.digest Sample.join Sample.cache "wall" g Sample.stale
       = Some (fresh b, w') /\
       disk w' !! filePath Sample.digest Sample.join Sample.cache "wall"
       = Some {| content := b; modTime := now Sample.stale |} /\
       ext w' = x).
Proof.
  apply (hit_iff_fresh_artifact nat Sample.digest Sample.join Sample.cache
           "wall" Sample.stale).
  reflexivity.
Defined.

Lemma generator_error_is_not_cached_witness :
  exists w',
    GetOrCreate Sample.digest Sample.join Sample.cache "wall"
      (Sample.generator_of (inr "api status 503")) (Sample.world 0 0)
    = Some (failure "api status 503", w') /\
    disk w' = disk (Sample.world 0 0) /\ ext w' = 1%nat /\
    forall (g2 : Generator nat) (w2 : World nat), disk w2 = disk w' -> io w2 = io w' -> now w' <= now w2 ->
      missed (Get Sample.digest Sample.join Sample.cache "wall" w2) /\
      GetOrCreate Sample.digest Sample.join Sample.cache "wall" g2 w2
      = regenerate Sample.digest Sample.join Sample.cache "wall" g2
          (getPerKeyMutex "wall" w2).
Proof.
  apply (generator_error_is_not_cached nat Sample.digest Sample.join
           Sample.cache "wall" (Sample.generator_of (inr "api status 503"))
           (Sample.world 0 0) "api status 503" 1%nat).
  - split; reflexivity.
  - reflexivity.
Defined.

Lemma empty_bytes_are_never_a_hit_witness :
  (exists w',
     GetOrCreate Sample.digest Sample.join Sample.cache "wall"
       (Sample.generator_of (inl [])) (Sample.world 0 0)
     = Some (fresh [], w') /\
     disk w' !! filePath Sample.digest Sample.join Sample.cache "wall"
     = Some {| content := []; modTime := now (Sample.world 0 0) |} /\
     empty_artifact Sample.digest Sample.join Sample.cache "wall" w') /\
  (forall (g2 : Generator nat) (w2 : World nat),
     empty_artifact Sample.digest Sample.join Sample.cache "wall" w2 ->
     stat_fault (io w2)
       (filePath Sample.digest Sample.join Sample.cache "wall") = None ->
     Get Sample.digest Sample.join Sample.cache "wall" w2 = miss /\
     GetOrCreate Sample.digest Sample.join Sample.cache "wall" g2 w2
     = regenerate Sample.digest Sample.join Sample.cache "wall" g2
         (getPerKeyMutex "wall" w2) /\
     forall x2, g2 (ext w2) = Some (inl [], x2) -> write_fault (io w2) = None ->
       exists w3,
         GetOrCreate Sample.digest Sample.join Sample.cache "wall" g2 w2
         = Some (fresh [], w3) /\
         empty_artifact Sample.digest Sample.join Sample.cache "wall" w3 /\
         ext w3 = x2).
Proof.
  apply (empty_bytes_are_never_a_hit nat Sample.digest Sample.join
           Sample.cache "wall" (Sample.generator_of (inl []))
           (Sample.world 0 0) 1%nat).
  - split; reflexivity.
  - reflexivity.
  - reflexivity.
Defined.

Lemma critical_insert ks i k k' :
  ks !! i = Some k ->
  (critical (<[i := k']> ks) + (if in_critical k then 1 else 0)
   = critical ks + (if in_critical k' then 1 else 0))%nat.
Proof.
  revert i. induction ks as [|k0 ks IH]; intros [|i] Hi; simplify_eq/=.
  - lia.
  - specialize (IH i Hi). lia.
Qed.

Lemma critical_zero ks i k :
  critical ks = 0%nat -> ks !! i = Some k -> in_critical k = false.
Proof.
  revert i. induction ks as [|k0 ks IH]; intros [|i] Hz Hi; simplify_eq/=.
  - by destruct (in_critical k).
  - apply (IH i); [lia|done].
Qed.

Lemma critical_alone ks i k :
  ks !! i = Some k -> in_critical k = true -> critical ks = 1%nat ->
  forall j k2, j <> i -> ks !! j = Some k2 -> in_critical k2 = false.
Proof.
  revert i. induction ks as [|k0 ks IH]; intros [|i] Hi Hk Hc [|j] k2 Hj Hk2;
    simplify_eq/=.
  - rewrite Hk in Hc. apply (critical_zero ks j); [lia|done].
  - destruct (in_critical k2) eqn:E; [|done].
    assert (in_critical k = false); [|congruence].
    apply (critical_zero ks i); [lia|done].
  - destruct (in_critical k0) eqn:E.
    + assert (in_critical k = false); [|congruence].
      apply (critical_zero ks i); [lia|done].
    + apply (IH i Hi Hk Hc j); [lia|done].
Qed.

Lemma critical_replicate n : critical (replicate n AtFastPath) = 0%nat.
Proof. induction n; simpl; lia. Qed.

Section SingleFlight.
Variable Ext : Type.
Variable digest : string -> string.
Variable filepath_Join : string -> string -> string.
Variable c : FileCache.
Variable key : string.
Variable generator : Generator Ext.
Variable w0 : World Ext.
Variable b : list Byte.byte.
Variable x1 : Ext.
Variable n : nat.

Hypothesis Hmiss : missed (Get digest filepath_Join c key w0).
Hypothesis Hio : io w0 = no_faults.
Hypothesis Hgen : generator (ext w0) = Some (inl b, x1).
Hypothesis Hb : b <> [].
Hypothesis Httl : 0 <= TTL c.

Local Abbreviation Get := (Get digest filepath_Join c key).
Local Abbreviation step := (step digest filepath_Join c key generator).
Local Abbreviation flight := (single_flight digest filepath_Join c key w0 b n).
Implicit Types (w : World Ext) (p : Process Ext).

Lemma flight_enter : flight (enter n w0).
Proof.
  split; [done|]. split; [done|]. split; [simpl; lia|].
  split; [apply length_replicate|].
  left. split; [done|]. split; [done|]. split; [done|].
  split; [by apply Forall_replicate|apply critical_replicate].
Qed.

(** Before the bytes are written, every [Get] misses. *)
Lemma Get_before w :
  disk w = disk w0 -> io w = no_faults -> now w0 <= now w -> missed (Get w).
Proof.
  intros Hd Hi Hn. apply (missed_later Ext digest filepath_Join c key w0 w); try done.
  congruence.
Qed.

(** Once they are, and until the TTL has passed, every [Get] hits. *)
Lemma Get_after w t :
  io w = no_faults -> now w0 <= t -> now w <= now w0 + TTL c ->
  disk w !! filePath digest filepath_Join c key
  = Some {| content := b; modTime := t |} ->
  Get w = cached b.
Proof.
  intros Hi Ht Hn Hf. rewrite Get_healthy, Hf by done. simpl.
  destruct (Z.eqb_spec (Z.of_nat (length b)) 0) as [E|_].
  { destruct b; [done|simpl in E; lia]. }
  destruct (Z.ltb_spec (TTL c) (time_Since w t)) as [Hlt|]; [|done].
  exfalso. unfold time_Since, time_Sub, GoInt.min_int, GoInt.max_int in Hlt. lia.
Qed.

Lemma flight_step p p' :
  flight p -> step p p' -> now (world p') <= now w0 + TTL c -> flight p'.
Proof.
  intros (Hc & Hi & Hn & Hlen & Hphase) Hstep Hdl.
  inversion Hstep as
    [p0 i _ Hk|p0 i _ Hk|p0 i _ Hk Hl|p0 i _ Hk|p0 i out x _ Hk Hg
    |p0 i _ Hk Hg|p0 i b' _ Hk|p0 i r _ Hk|p0 dt _ Hdt];
    subst p0 p'; unfold single_flight;
    cbn [world locked callers invocations crashed] in *.
  - (* the first Get *)
    split; [done|]. split; [done|]. split; [done|].
    split; [by rewrite length_insert|].
    destruct Hphase as [(Hinv & Hd & Hx & HF & Hcr)|[(Hinv & Hd & Hl & HF & Hone)|(Hinv & (t & Ht & Hf) & HF)]].
    + left. destruct (Get_before (world p) Hd Hi Hn) as [Hh He].
      unfold fast_path. rewrite He, Hh.
      repeat split; try done.
      * by apply Forall_insert.
      * pose proof (critical_insert _ i _ AtGetMutex Hk). simpl in *. lia.
    + right; left. destruct (Get_before (world p) Hd Hi Hn) as [Hh He].
      unfold fast_path. rewrite He, Hh.
      repeat split; try done; [by apply Forall_insert|].
      pose proof (critical_insert _ i _ AtGetMutex Hk). simpl in *. lia.
    + right; right. rewrite (Get_after (world p) t) by done.
      split; [done|]. split; [by exists t|]. apply Forall_insert; [done|by left].
  - (* getPerKeyMutex *)
    split; [done|]. split; [done|]. split; [done|].
    split; [by rewrite length_insert|].
    destruct Hphase as [(Hinv & Hd & Hx & HF & Hcr)|[(Hinv & Hd & Hl & HF & Hone)|(Hinv & (t & Ht & Hf) & HF)]].
    + left. repeat split; try done.
      * by apply Forall_insert.
      * pose proof (critical_insert _ i _ AtLock Hk). simpl in *. lia.
    + right; left. repeat split; try done; [by apply Forall_insert|].
      pose proof (critical_insert _ i _ AtLock Hk). simpl in *. lia.
    + right; right. split; [done|]. split; [by exists t|]. by apply Forall_insert.
  - (* m.Lock() *)
    split; [done|]. split; [done|]. split; [done|].
    split; [by rewrite length_insert|].
    destruct Hphase as [(Hinv & Hd & Hx & HF & Hcr)|[(Hinv & Hd & Hl' & HF & Hone)|(Hinv & (t & Ht & Hf) & HF)]].
    + left. repeat split; try done.
      * by apply Forall_insert.
      * pose proof (critical_insert _ i _ AtRecheck Hk). rewrite Hl in Hcr.
        simpl in *. lia.
    + congruence.
    + right; right. split; [done|]. split; [by exists t|]. by apply Forall_insert.
  - (* the second Get *)
    split; [done|]. split; [done|]. split; [done|].
    split; [by rewrite length_insert|].
    destruct Hphase as [(Hinv & Hd & Hx & HF & Hcr)|[(Hinv & Hd & Hl & HF & Hone)|(Hinv & (t & Ht & Hf) & HF)]].
    + left. destruct (Get_before (world p) Hd Hi Hn) as [Hh He].
      unfold recheck. rewrite He, Hh.
      repeat split; try done.
      * by apply Forall_insert.
      * pose proof (critical_insert _ i _ AtGenerate Hk). simpl in *. lia.
    + by pose proof (Forall_lookup_1 _ _ _ _ HF Hk).
    + right; right. rewrite (Get_after (world p) t) by done.
      split; [done|]. split; [by exists t|]. apply Forall_insert; [done|by left].
  - (* generator() *)
    split; [done|]. split; [done|]. split; [done|].
    split; [by rewrite length_insert|].
    destruct Hphase as [(Hinv & Hd & Hx & HF & Hcr)|[(Hinv & Hd & Hl & HF & Hone)|(Hinv & (t & Ht & Hf) & HF)]].
    + right; left. rewrite Hx, Hgen in Hg. injection Hg as <- <-.
      assert (Hone : critical (callers p) = 1%nat /\ locked p = true).
      { pose proof (critical_insert _ i _ AtFastPath Hk) as E. simpl in E.
        destruct (locked p); [done|lia]. }
      destruct Hone as [Hone Hl].
      split; [lia|]. split; [done|]. split; [done|]. split.
      2:{ pose proof (critical_insert _ i _ (AtWrite b) Hk). simpl in *. lia. }
      apply Forall_lookup. intros j k2 Hj.
      destruct (decide (j = i)) as [->|Hne].
      * rewrite list_lookup_insert_eq in Hj by by eapply lookup_lt_Some.
        by injection Hj as <-.
      * rewrite list_lookup_insert_ne in Hj by done.
        pose proof (critical_alone _ i _ Hk eq_refl Hone j k2 Hne Hj) as Hout.
        pose proof (Forall_lookup_1 _ _ _ _ HF Hj) as Hin.
        by destruct k2.
    + by pose proof (Forall_lookup_1 _ _ _ _ HF Hk).
    + by pose proof (Forall_lookup_1 _ _ _ _ HF Hk).
  - (* a panic of the generator *)
    exfalso.
    destruct Hphase as [(Hinv & Hd & Hx & HF & Hcr)|[(Hinv & Hd & Hl & HF & Hone)|(Hinv & (t & Ht & Hf) & HF)]].
    + rewrite Hx, Hgen in Hg. done.
    + by pose proof (Forall_lookup_1 _ _ _ _ HF Hk).
    + by pose proof (Forall_lookup_1 _ _ _ _ HF Hk).
  - (* writeFileAtomically *)
    unfold writeFileAtomically in *. rewrite Hi in *.
    cbn [write_fault no_faults fst snd with_disk disk now io ext] in *.
    split; [done|]. split; [done|]. split; [done|].
    split; [by rewrite length_insert|].
    destruct Hphase as [(Hinv & Hd & Hx & HF & Hcr)|[(Hinv & Hd & Hl & HF & Hone)|(Hinv & (t & Ht & Hf) & HF)]].
    + by pose proof (Forall_lookup_1 _ _ _ _ HF Hk).
    + right; right. pose proof (Forall_lookup_1 _ _ _ _ HF Hk) as Hb'.
      simpl in Hb'. subst b'.
      split; [done|]. split.
      { exists (now (world p)). split; [done|]. by rewrite lookup_insert_eq. }
      apply Forall_lookup. intros j k2 Hj.
      destruct (decide (j = i)) as [->|Hne].
      * rewrite list_lookup_insert_eq in Hj by by eapply lookup_lt_Some.
        injection Hj as <-. by right.
      * rewrite list_lookup_insert_ne in Hj by done.
        pose proof (critical_alone _ i _ Hk eq_refl Hone j k2 Hne Hj) as Hout.
        pose proof (Forall_lookup_1 _ _ _ _ HF Hj) as Hin.
        by destruct k2.
    + by pose proof (Forall_lookup_1 _ _ _ _ HF Hk).
  - (* m.Unlock() *)
    split; [done|]. split; [done|]. split; [done|].
    split; [by rewrite length_insert|].
    destruct Hphase as [(Hinv & Hd & Hx & HF & Hcr)|[(Hinv & Hd & Hl & HF & Hone)|(Hinv & (t & Ht & Hf) & HF)]].
    + by pose proof (Forall_lookup_1 _ _ _ _ HF Hk).
    + by pose proof (Forall_lookup_1 _ _ _ _ HF Hk).
    + right; right. split; [done|]. split; [by exists t|].
      apply Forall_insert; [done|]. apply (Forall_lookup_1 _ _ _ _ HF Hk).
  - (* time passes *)
    split; [done|]. split; [done|]. split; [simpl; lia|]. split; [done|].
    destruct Hphase as [?|[?|(Hinv & (t & Ht & Hf) & HF)]]; [by left|by right; left|].
    right; right. split; [done|]. split; [by exists t|done].
Qed.

Lemma step_now p p' : step p p' -> now (world p) <= now (world p').
Proof.
  intros Hstep. inversion Hstep; subst; simpl; try lia.
  unfold writeFileAtomically. by destruct (write_fault _).
Qed.

Lemma steps_now p p' : rtc step p p' -> now (world p) <= now (world p').
Proof.
  induction 1 as [|p q r Hs _ IH]; [done|].
  pose proof (step_now p q Hs). lia.
Qed.

Lemma flight_steps p p' :
  rtc step p p' -> flight p -> now (world p') <= now w0 + TTL c -> flight p'.
Proof.
  induction 1 as [|p q r Hs Hrest IH]; intros Hf Hdl; [done|].
  apply IH; [|done]. apply (flight_step p q); [done..|].
  pose proof (steps_now q r Hrest). lia.
Qed.

Lemma flight_result p :
  rtc step (enter n w0) p ->
  now (world p) <= now w0 + TTL c ->
  (invocations p <= 1)%nat /\
  (all_returned p -> (0 < n)%nat ->
   invocations p = 1%nat /\
   forall i r, callers p !! i = Some (Returned r) ->
               r = cached b \/ r = fresh b).
Proof.
  intros Hsteps Hdl.
  destruct (flight_steps _ _ Hsteps flight_enter Hdl)
    as (Hc & Hi & Hn & Hlen & Hphase).
  split.
  { destruct Hphase as [(-> & _)|[(-> & _)|(-> & _)]]; lia. }
  intros Hall Hpos.
  destruct (callers p) as [|k ks] eqn:Hks; [simpl in Hlen; lia|].
  destruct (Hall 0%nat k) as [r0 ->]; [by rewrite Hks|].
  destruct Hphase as [(_ & _ & _ & HF & _)|[(_ & _ & _ & HF & _)|(Hinv & _ & HF)]].
  - by inversion HF.
  - by inversion HF.
  - split; [done|]. intros i r Hr.
    apply (Forall_lookup_1 _ _ _ _ HF Hr).
Qed.

End SingleFlight.

Section Schedules.
Variable Ext : Type.
Variable digest : string -> string.
Variable filepath_Join : string -> string -> string.
Variable c : FileCache.
Variable key : string.
Variable generator : Generator Ext.

Local Abbreviation step := (step digest filepath_Join c key generator).
Local Abbreviation exec := (exec digest filepath_Join c key generator).
Local Abbreviation run := (run digest filepath_Join c key generator).
Implicit Types (w : World Ext) (p : Process Ext).

(** [exec] makes the steps of the relation, and all of them. *)
Lemma exec_step a p p' : exec a p = Some p' -> step p p'.
Proof.
  unfold Cache.exec. destruct (crashed p) eqn:Hc; [done|].
  destruct a as [i|dt].
  - destruct (callers p !! i) as [k|] eqn:Hk; [|done].
    destruct k; try done.
    + intros [= <-]. by apply step_fast_path.
    + intros [= <-]. by apply step_get_mutex.
    + destruct (locked p) eqn:Hl; [done|]. intros [= <-]. by apply step_lock.
    + intros [= <-]. by apply step_recheck.
    + destruct (generator _) as [[out x]|] eqn:Hg; intros [= <-].
      * by apply step_generate.
      * by apply (step_panic _ _ _ _ _ _ p i).
    + intros [= <-]. by apply step_write.
    + intros [= <-]. by apply step_unlock.
  - destruct (Z.leb_spec 0 dt); [|done]. intros [= <-]. by apply step_tick.
Qed.

Lemma step_exec p p' : step p p' -> exists a, exec a p = Some p'.
Proof.
  intros Hstep.
  inversion Hstep as
    [p0 i Hc Hk|p0 i Hc Hk|p0 i Hc Hk Hl|p0 i Hc Hk|p0 i out x Hc Hk Hg
    |p0 i Hc Hk Hg|p0 i b' Hc Hk|p0 i r Hc Hk|p0 dt Hc Hdt]; subst p0 p';
    [exists (Run i)..|exists (Tick dt)];
    unfold Cache.exec; rewrite Hc, ?Hk, ?Hl, ?Hg; try done.
  by destruct (Z.leb_spec 0 dt); [|lia].
Qed.

Lemma run_steps schedule p p' : run schedule p = Some p' -> rtc step p p'.
Proof.
  revert p. induction schedule as [|a schedule IH]; intros p; simpl.
  - by intros [= <-].
  - destruct (exec a p) as [q|] eqn:Hq; [|done]. simpl. intros Hrun.
    eapply rtc_l; [by apply (exec_step a)|by apply IH].
Qed.

Lemma not_fresh_missed w :
  io w = no_faults -> ~ fresh_artifact digest filepath_Join c key w ->
  missed (Get digest filepath_Join c key w).
Proof.
  intros Hio Hnf. rewrite Get_healthy by done.
  destruct (disk w !! _) as [f|] eqn:Hf; [|done].
  destruct (Z.eqb_spec (Z.of_nat (length (content f))) 0) as [|Hne]; [done|].
  destruct (Z.ltb_spec (TTL c) (time_Since w (modTime f))); [done|].
  exfalso. apply Hnf. exists f. split; [done|]. split; [|done].
  intros E. by rewrite E in Hne.
Qed.

(** Claim C4, amended.  Let the artifact of the key be absent, empty or
    stale on a disk without I/O errors, and let the generator answer, when
    it is first run, bytes that are not empty.  For any number of
    concurrent callers of [GetOrCreate] with that key and any
    interleaving of their statements, as long as the TTL has not passed
    since they entered: the generator has run at most once, and when all
    callers have returned it has run exactly once and every caller has
    received the bytes of that run, from the cache or from the generator. *)
Theorem single_flight_runs_the_generator_once w0 b x1 n p :
  io w0 = no_faults ->
  ~ fresh_artifact digest filepath_Join c key w0 ->
  generator (ext w0) = Some (inl b, x1) -> b <> [] ->
  0 < TTL c -> (0 < n)%nat ->
  rtc step (enter n w0) p ->
  now (world p) <= now w0 + TTL c ->
  (invocations p <= 1)%nat /\
  (all_returned p ->
   invocations p = 1%nat /\
   forall i r, callers p !! i = Some (Returned r) ->
               r = cached b \/ r = fresh b).
Proof.
  intros Hio Hnf Hg Hb Httl Hn Hsteps Hdl.
  destruct (flight_result Ext digest filepath_Join c key generator w0 b x1 n)
    with (p := p) as [Hle Hall]; try done.
  - by apply not_fresh_missed.
  - lia.
  - split; [done|]. intros Hret. by apply Hall.
Qed.

End Schedules.

Lemma single_flight_runs_the_generator_once_witness :
  exists p,
    run Sample.digest Sample.join Sample.cache "wall"
      (Sample.generator_of (inl Sample.jpeg)) (Sample.one_by_one 4)
      (enter 2 (Sample.world 0 0)) = Some p /\
    (invocations p <= 1)%nat /\
    (all_returned p ->
     invocations p = 1%nat /\
     forall i r, callers p !! i = Some (Returned r) ->
                 r = cached Sample.jpeg \/ r = fresh Sample.jpeg).
Proof.
  eexists. split; [vm_compute; reflexivity|].
  apply (single_flight_runs_the_generator_once nat Sample.digest Sample.join
           Sample.cache "wall" (Sample.generator_of (inl Sample.jpeg))
           (Sample.world 0 0) Sample.jpeg 1%nat 2%nat).
  - reflexivity.
  - intros (f & Hf & _). vm_compute in Hf. discriminate.
  - reflexivity.
  - discriminate.
  - reflexivity.
  - lia.
  - apply (run_steps _ _ _ _ _ _ (Sample.one_by_one 4)). vm_compute. reflexivity.
  - vm_compute. discriminate.
Defined.

(** Claim C4 as stated fails for a generator that returns no bytes: the
    artifact it leaves is empty, so the second caller misses again under
    the mutex and runs the generator a second time. *)
Lemma empty_generator_runs_twice :
  ~ fresh_artifact Sample.digest Sample.join Sample.cache "wall" (Sample.world 0 0) /\
  exists p,
    rtc (step Sample.digest Sample.join Sample.cache "wall"
           (Sample.generator_of (inl [])))
        (enter 2 (Sample.world 0 0)) p /\
    all_returned p /\ invocations p = 2%nat /\
    now (world p) <= now (Sample.world 0 0) + TTL Sample.cache.
Proof.
  split.
  { intros (f & Hf & _). vm_compute in Hf. discriminate. }
  eexists. split.
  { apply (run_steps _ _ _ _ _ _ (Sample.one_by_one 6)). vm_compute. reflexivity. }
  split; [|split; [reflexivity|vm_compute; discriminate]].
  intros [|[|i]] k Hk; simpl in Hk; simplify_eq; eauto.
Qed.

End CacheFacts.

(** ** The route handler *)

Module HandlerFacts.
Import Handler.
Local Open Scope Z_scope.

(** The cache of [main] is the one that [NewFileCache] builds, when the
    directory can be made; when it cannot, [main] ends with the error. *)
Example cache_of_main os_MkdirAll :
  Cache.NewFileCache os_MkdirAll "cache" (24 * 3600000000000)
  = match os_MkdirAll "cache" with
    | Some e => inr ("creating cache dir: " +:+ e)
    | None => inl cache
    end.
Proof. reflexivity. Qed.

Lemma prefix_head a m b s :
  String.prefix (String a m) (String b s) = true -> a = b.
Proof. simpl. by destruct (Ascii.ascii_dec a b). Qed.

Lemma contains_mentions a m s :
  strings_Contains s (String a m) = true -> mentions a s = true.
Proof.
  induction s as [|b s IH].
  - simpl. done.
  - cbn [strings_Contains mentions].
    destruct (String.prefix (String a m) (String b s)) eqn:Hp.
    + apply prefix_head in Hp as ->. by rewrite Ascii.eqb_refl.
    + intros Hc. rewrite (IH Hc). by destruct (Ascii.eqb a b).
Qed.

Lemma mentions_app a s t :
  mentions a (s +:+ t) = mentions a s || mentions a t.
Proof.
  induction s as [|b s IH]; simpl; [done|].
  by destruct (Ascii.eqb a b).
Qed.

Lemma digits_no_n d : mentions "n"%char (NilEmpty.string_of_uint d) = false.
Proof. induction d; simpl; done. Qed.

Lemma fmt_d_no_n z : mentions "n"%char (fmt_d z) = false.
Proof.
  unfold fmt_d, NilZero.string_of_int, NilZero.string_of_uint.
  destruct (Z.to_int z) as [d|d]; destruct d; simpl; try done;
    apply digits_no_n.
Qed.

Lemma contains_shift a s m :
  String.prefix m (String a s) = false ->
  strings_Contains (String a s) m = strings_Contains s m.
Proof. intros Hp. cbn [strings_Contains]. by rewrite Hp. Qed.

(** The text that the handler looks for does not begin in the prefix of
    the error of the API request, nor in that of the JPEG encoder. *)
Lemma contains_api_request cause :
  strings_Contains (message (ApiRequest cause)) "no images found"
  = strings_Contains cause "no images found".
Proof. unfold message. simpl. done. Qed.

Lemma contains_encode_jpeg cause :
  strings_Contains (message (EncodeJpeg cause)) "no images found"
  = strings_Contains cause "no images found".
Proof. unfold message. simpl. destruct cause; done. Qed.

Lemma contains_api_status code :
  strings_Contains (message (ApiStatus code)) "no images found" = false.
Proof.
  destruct (strings_Contains _ _) eqn:Hc; [|done].
  apply contains_mentions in Hc. unfold message in Hc.
  rewrite mentions_app, fmt_d_no_n in Hc. done.
Qed.


Section Wall.
Context {F : Float64}.
Variable Image : Type.
Variable Canvas : Type.
Variable imaging_New : Z -> Z -> Canvas.
Variable imaging_Paste : Canvas -> Image -> Z -> Z -> Canvas.
Variable imaging_Fill : Image -> Z -> Z -> Image.
Variable jpeg_Encode : Canvas -> list Byte.byte + string.
Variable digest : string -> string.
Variable filepath_Join : string -> string -> string.

Local Abbreviation wall_generator :=
  (wall_generator Image Canvas imaging_New imaging_Paste imaging_Fill jpeg_Encode).
Local Abbreviation handle :=
  (handle Image Canvas imaging_New imaging_Paste imaging_Fill jpeg_Encode
     digest filepath_Join).
Local Abbreviation Get := (Cache.Get digest filepath_Join cache "wall").
Local Abbreviation path := (Cache.filePath digest filepath_Join cache "wall").
Implicit Types (o : Outside Image) (w : Cache.World (Outside Image)).

(** The closure leaves the outside as it is, and its errors are those of
    the four statements that return one. *)
Lemma wall_generator_failure o e o' :
  wall_generator o = Some (inr e, o') ->
  o' = o /\ exists f, e = message f /\ explains o f.
Proof.
  unfold Handler.wall_generator.
  destruct (api o) as [cause|code Data] eqn:Hapi.
  { intros [= <- <-]. split; [done|]. by exists (ApiRequest cause). }
  destruct (Z.eqb_spec code 200) as [->|Hne]; simpl.
  2:{ intros [= <- <-]. split; [done|]. exists (ApiStatus code).
      split; [done|]. simpl. split; [done|by exists Data]. }
  destruct Data as [|d Data]; simpl.
  { intros [= <- <-]. split; [done|]. by exists NoImages. }
  destruct (Grid.calculateOptimalGrid _ _ _) as [grid|]; [|done]. simpl.
  destruct (paste_loop _ _ _ _ _ _ _ _) as [combined|]; [|done]. simpl.
  destruct (jpeg_Encode combined) as [buf|cause]; [done|].
  intros [= <- <-]. split; [done|]. exists (EncodeJpeg cause).
  split; [done|]. simpl. by exists (d :: Data).
Qed.

(** No guard stands between a grid of no cells and the encoder. *)
Lemma wall_generator_zero_grid o Data :
  api o = ApiAnswered 200 Data -> Data <> [] ->
  Grid.calculateOptimalGrid 1024 2048 (Z.of_nat (length (Picture <$> Data)))
  = Some Grid.zero_grid ->
  wall_generator o
  = Some (match jpeg_Encode (imaging_New 1024 2048) with
          | inr e => inr (message (EncodeJpeg e))
          | inl buf => inl buf
          end, o).
Proof.
  intros Hapi Hne Hgrid. unfold Handler.wall_generator. rewrite Hapi.
  change (negb (200 =? 200)) with false. cbv iota.
  destruct Data as [|d Data]; [done|].
  replace (length (Picture <$> d :: Data) =? 0)%nat with false by done.
  cbv iota zeta. rewrite Hgrid. cbn [mbind option_bind].
  change (Z.to_nat (GoInt.mul (Grid.Cols Grid.zero_grid) (Grid.Rows Grid.zero_grid)))
    with 0%nat.
  cbn [paste_loop mbind option_bind].
  by destruct (jpeg_Encode _).
Qed.

Lemma handle_missed w out o' :
  Cache.missed (Get w) ->
  wall_generator (Cache.ext w) = Some (out, o') ->
  handle w
  = '(r, w') ← Cache.regenerate digest filepath_Join cache "wall"
                 wall_generator (Cache.getPerKeyMutex "wall" w);
    Some (respond r, w').
Proof.
  intros [Hh He] _. unfold Handler.handle, Cache.GetOrCreate.
  replace (Cache.Get digest filepath_Join cache "wall"
             (Cache.getPerKeyMutex "wall" w)) with (Get w) by done.
  by rewrite He, Hh.
Qed.


(** What the handler answers to a request that finds the cache empty and
    whose grid has no cell. *)
Lemma blank_wall w Data buf :
  api (Cache.ext w) = ApiAnswered 200 Data -> Data <> [] ->
  Grid.calculateOptimalGrid 1024 2048 (Z.of_nat (length (Picture <$> Data)))
  = Some Grid.zero_grid ->
  jpeg_Encode (imaging_New 1024 2048) = inl buf ->
  Cache.missed (Get w) -> Cache.write_fault (Cache.io w) = None ->
  wall_generator (Cache.ext w) = Some (inl buf, Cache.ext w) /\
  exists w',
    handle w = Some (respond (Cache.fresh buf), w') /\
    Cache.disk w' !! path
    = Some {| Cache.content := buf; Cache.modTime := Cache.now w |}.
Proof.
  intros Hapi Hne Hgrid Henc Hmiss Hwrite.
  pose proof (wall_generator_zero_grid _ _ Hapi Hne Hgrid) as Hgen.
  rewrite Henc in Hgen. split; [done|].
  rewrite (handle_missed w _ _ Hmiss Hgen).
  erewrite CacheFacts.regenerate_bytes; [|exact Hgen|exact Hwrite].
  eexists. split; [done|]. simpl. by rewrite lookup_insert_eq.
Qed.

(** Claim C2, amended.  When [calculateOptimalGrid] returns the zero value
    for a list of pictures that is not empty, the closure does not fail:
    no job is dispatched, nothing is pasted, and the background canvas
    alone is encoded; [GetOrCreate] writes these bytes to the cache and
    the handler serves them with status 200 as a miss. *)
Theorem zero_grid_renders_the_background w Data buf :
  api (Cache.ext w) = ApiAnswered 200 Data -> Data <> [] ->
  Grid.calculateOptimalGrid 1024 2048 (Z.of_nat (length (Picture <$> Data)))
  = Some Grid.zero_grid ->
  jpeg_Encode (imaging_New 1024 2048) = inl buf ->
  Cache.missed (Get w) -> Cache.write_fault (Cache.io w) = None ->
  wall_generator (Cache.ext w) = Some (inl buf, Cache.ext w) /\
  Pool.job_count (Picture <$> Data) Grid.zero_grid = 0 /\
  exists w',
    handle w
    = Some ({| status := 200;
               headers := [("Content-Type", "image/jpeg");
                           ("Content-Length", fmt_d (Z.of_nat (length buf)));
                           ("X-Cache", "MISS")];
               body := Raw buf |}, w') /\
    Cache.disk w' !! path
    = Some {| Cache.content := buf; Cache.modTime := Cache.now w |}.
Proof.
  intros Hapi Hne Hgrid Henc Hmiss Hwrite.
  destruct (blank_wall w Data buf) as (Hgen & w' & Hh & Hd); try done.
  split; [done|]. split.
  { unfold Pool.job_count, Pool.slots. simpl.
    change (GoInt.mul 0 0) with 0. lia. }
  by exists w'.
Qed.

(** How the handler chooses the status of a failure.  It answers 404
    when the message of the error contains the text "no images found",
    and 500 otherwise: an empty list of pictures always gives 404 and a
    status error of the API always 500; an error of the API request or
    of the encoder gives 500 unless the message of its cause contains
    that text.  Every error of the closure is one of these four, and
    reaches the handler as it is. *)
Theorem status_follows_the_message :
  (forall f,
     status (respond (Cache.failure (message f))) =
     match f with
     | NoImages => 404
     | ApiStatus _ => 500
     | ApiRequest cause | EncodeJpeg cause =>
         if strings_Contains cause "no images found" then 404 else 500
     end) /\
  (forall o e o', wall_generator o = Some (inr e, o') ->
     exists f, e = message f /\ explains o f) /\
  (forall w e o', Cache.missed (Get w) ->
     wall_generator (Cache.ext w) = Some (inr e, o') ->
     exists w', handle w = Some (respond (Cache.failure e), w')).
Proof.
  split; [|split].
  - intros f. unfold respond. cbn [Cache.err Cache.failure].
    destruct f as [cause|code| |cause].
    + rewrite contains_api_request. by destruct (strings_Contains _ _).
    + by rewrite contains_api_status.
    + done.
    + rewrite contains_encode_jpeg. by destruct (strings_Contains _ _).
  - intros o e o' Hgen. by destruct (wall_generator_failure o e o' Hgen).
  - intros w e o' Hmiss Hgen. rewrite (handle_missed w _ _ Hmiss Hgen).
    erewrite CacheFacts.regenerate_error by exact Hgen. by eexists.
Qed.

End Wall.

Import SampleWall.

Lemma crowd_length : Z.of_nat (length (Picture <$> crowd)) = 1048577.
Proof. unfold crowd. rewrite length_fmap, length_replicate. lia. Qed.

Lemma crowd_grid :
  Grid.calculateOptimalGrid (F := exact) 1024 2048
    (Z.of_nat (length (Picture <$> crowd))) = Some Grid.zero_grid.
Proof.
  rewrite crowd_length.
  apply (GridFacts.calculateOptimalGrid_crowded (L := ExactFacts.exact_laws)).
  lia.
Qed.

Lemma crowd_not_empty : crowd <> [].
Proof.
  intros E. pose proof crowd_length as Hl. rewrite E in Hl. simpl in Hl. lia.
Qed.

Lemma zero_grid_renders_the_background_witness :
  wall_generator (F := exact) string (list (string * Z * Z)) blank paste
    Sample.fill encode (Cache.ext (site (ApiAnswered 200 crowd)))
  = Some (inl Sample.jpeg, Cache.ext (site (ApiAnswered 200 crowd))) /\
  Pool.job_count (Picture <$> crowd) Grid.zero_grid = 0 /\
  exists w',
    handle (F := exact) string (list (string * Z * Z)) blank paste
      Sample.fill encode Sample.digest Sample.join
      (site (ApiAnswered 200 crowd))
    = Some ({| status := 200;
               headers := [("Content-Type", "image/jpeg");
                           ("Content-Length",
                            fmt_d (Z.of_nat (length Sample.jpeg)));
                           ("X-Cache", "MISS")];
               body := Raw Sample.jpeg |}, w') /\
    Cache.disk w' !! Cache.filePath Sample.digest Sample.join cache "wall"
    = Some {| Cache.content := Sample.jpeg;
              Cache.modTime := Cache.now (site (ApiAnswered 200 crowd)) |}.
Proof.
  apply (zero_grid_renders_the_background (F := exact) string
           (list (string * Z * Z)) blank paste Sample.fill encode
           Sample.digest Sample.join (site (ApiAnswered 200 crowd)) crowd
           Sample.jpeg).
  - reflexivity.
  - exact crowd_not_empty.
  - exact crowd_grid.
  - reflexivity.
  - split; reflexivity.
  - reflexivity.
Defined.

(** Claim C2 as stated fails for 2^20 + 1 pictures: the grid has no cell,
    the closure returns the bytes of the background canvas without an
    error, and the handler stores and serves them. *)
Lemma crowded_wall_is_served :
  Grid.calculateOptimalGrid (F := exact) 1024 2048
    (Z.of_nat (length (Picture <$> crowd))) = Some Grid.zero_grid /\
  Cache.err (Cache.fresh Sample.jpeg) = None /\
  exists w',
    handle (F := exact) string (list (string * Z * Z)) blank paste
      Sample.fill encode Sample.digest Sample.join
      (site (ApiAnswered 200 crowd))
    = Some (respond (Cache.fresh Sample.jpeg), w') /\
    status (respond (Cache.fresh Sample.jpeg)) = 200 /\
    Cache.disk w' !! "cache/wall.bin"
    = Some {| Cache.content := Sample.jpeg; Cache.modTime := 0 |}.
Proof.
  split; [exact crowd_grid|]. split; [done|].
  destruct (blank_wall (F := exact) string (list (string * Z * Z)) blank paste
              Sample.fill encode Sample.digest Sample.join
              (site (ApiAnswered 200 crowd)) crowd Sample.jpeg)
    as (_ & w' & Hh & Hd).
  - reflexivity.
  - exact crowd_not_empty.
  - exact crowd_grid.
  - reflexivity.
  - split; reflexivity.
  - reflexivity.
  - exists w'. split; [exact Hh|]. split; [reflexivity|exact Hd].
Qed.

(** Claim C8, at a failing input.  The handler tells the closure's own
    error "no images found" by a search for these words in the message
    of whatever error it gets, and the closure wraps the cause of a
    failed API request into its message.  For a request that fails with
    a certificate error whose text contains the words, the list of
    pictures was never received, the failure is not that of an empty
    list, and the answer is 404 where an error of the API request is
    meant to give 500. *)
Lemma certificate_error_answers_404 :
  explains (Cache.ext (site (ApiFailed bad_certificate)))
    (ApiRequest bad_certificate) /\
  exists resp w',
    handle (F := ieee) string (list (string * Z * Z)) blank paste
      Sample.fill encode Sample.digest Sample.join
      (site (ApiFailed bad_certificate))
    = Some (resp, w') /\
    status resp = 404.
Proof.
  split; [reflexivity|].
  eexists _, _. split; [vm_compute; reflexivity|reflexivity].
Qed.

(** The first version of the handler, which made no search in the
    message, answered the same failure with 500. *)
Example first_version_answers_500 :
  Legacy.handle (F := ieee) string (list (string * Z * Z)) string
    blank paste Sample.fill encode Remote.assets Remote.decode
    (ApiFailed bad_certificate)
  = Some (Legacy.Sent {| status := 500; headers := [];
                         body := Text "Failed to fetch images" |}).
Proof. reflexivity. Qed.

End HandlerFacts.

(** ** The grid planner: the room that a grid has *)

Module GridRoom.
Import Grid GoIntFacts GridFacts.
Local Open Scope Z_scope.

(** [c] columns and the rows for them hold [p] pictures, with less than a
    row to spare. *)
Lemma rows_for_slots p c : 1 <= c -> 1 <= p ->
  p <= c * rows_for p c < p + c.
Proof.
  intros Hc Hp. unfold rows_for.
  pose proof (Z.div_mod (p + c - 1) c ltac:(lia)).
  pose proof (Z.mod_pos_bound (p + c - 1) c ltac:(lia)). lia.
Qed.

(** A candidate covers some area when a column is a pixel wide at least
    and a row two pixels high. *)
Lemma candidate_positive W H p c g :
  1 <= W -> 1 <= H -> 1 <= p -> 1 <= c <= p ->
  candidate W H p c = Some g ->
  0 < area g <-> c <= W /\ 2 * rows_for p c <= H.
Proof.
  intros HW HH Hp Hc.
  assert (Hr : 1 <= rows_for p c).
  { unfold rows_for. apply Z.div_le_lower_bound; lia. }
  unfold candidate. set (r := rows_for p c) in *.
  assert (HtW : 0 <= W / c) by (apply Z.div_pos; lia).
  assert (HtH : 0 <= H / r) by (apply Z.div_pos; lia).
  assert (HW1 : 1 <= W / c <-> c <= W).
  { split; intros.
    - pose proof (Z.mul_div_le W c ltac:(lia)). nia.
    - apply Z.div_le_lower_bound; lia. }
  assert (HH2 : 2 <= H / r <-> 2 * r <= H).
  { split; intros.
    - pose proof (Z.mul_div_le H r ltac:(lia)). nia.
    - apply Z.div_le_lower_bound; lia. }
  destruct (Z.ltb_spec (2 * (W / c)) (H / r)) as [Hlt|Hge].
  - destruct (Z.leb_spec (2 * (W / c) * r) H); [|done].
    intros [= <-]; unfold area; simpl. split.
    + intros Hpos. assert (1 <= W / c) by nia. lia.
    + intros [? ?]. assert (1 <= W / c) by lia. nia.
  - destruct (Z.leb_spec (H / r / 2 * c) W); [|done].
    intros [= <-]; unfold area; simpl.
    assert (0 <= H / r / 2) by (apply Z.div_pos; lia).
    pose proof (Z.div_mod (H / r) 2 ltac:(lia)).
    pose proof (Z.mod_pos_bound (H / r) 2 ltac:(lia)).
    split.
    + intros Hpos. assert (1 <= H / r / 2) by nia. lia.
    + intros [? ?]. assert (2 <= H / r) by lia. assert (1 <= H / r / 2) by lia.
      assert (0 < H / r / 2 * c) by nia.
      assert (0 < H / r / 2 * c * (H / r)) by nia. nia.
Qed.

Section Room.
Context {F : Float64} {L : Float64Laws F}.
Variables W H p : Z.
Hypothesis HW : 1 <= W.
Hypothesis HH : 1 <= H.
Hypothesis Hp : 1 <= p < 2 ^ 53.
Hypothesis HWH : W * H < 2 ^ 53.

(** On a canvas of less than 2^53 pixels and for less than 2^53
    pictures, with numbers that satisfy [Float64Laws]: a grid that is
    not the zero value has between 1 and [pictureCount] columns, the
    least number of rows that holds the pictures in so many columns, and
    so a cell for every picture and no empty row.  The pool then makes a
    job of every picture, and of none when the grid is the zero value. *)
Theorem calculateOptimalGrid_has_room :
  exists g, calculateOptimalGrid W H p = Some g /\
    (g = zero_grid \/
     (1 <= Cols g <= p /\ Rows g = rows_for p (Cols g) /\
      p <= Cols g * Rows g < p + Cols g)) /\
    forall pictureUUIDs : list string,
      Z.of_nat (length pictureUUIDs) = p ->
      Pool.job_count pictureUUIDs g = (if Cols g =? 0 then 0 else p).
Proof.
  destruct (calculateOptimalGrid_scanned W H p HW HH Hp HWH) as (s & -> & _ & Hs).
  exists (best s). split; [done|].
  destruct Hs as [->|(c0 & Hc0 & Hcand & _)].
  { split; [by left|]. intros uuids Hl. unfold Pool.job_count, Pool.slots. simpl.
    change (GoInt.mul 0 0) with 0. lia. }
  destruct (candidate_facts W H p HW HH Hp c0 _ ltac:(lia) Hcand)
    as (HC & HR & _).
  pose proof (rows_for_slots p c0 ltac:(lia) ltac:(lia)) as Hslots.
  pose proof (rows_for_bounds p Hp c0 ltac:(lia)) as Hr.
  rewrite HR, HC. split; [right; lia|].
  intros uuids Hl. unfold Pool.job_count, Pool.slots. rewrite HC, HR.
  rewrite mul_small by nia.
  destruct (Z.eqb_spec c0 0); lia.
Qed.

(** In the same range, the zero value is returned if and only if no
    number of columns from 1 to [pictureCount] leaves a column of one
    pixel and rows of two pixels, that is, room for a tile of 1x2. *)
Theorem calculateOptimalGrid_zero_iff :
  exists g, calculateOptimalGrid W H p = Some g /\
    (g = zero_grid <->
     forall c, 1 <= c <= p -> W < c \/ H < 2 * rows_for p c).
Proof.
  destruct (calculateOptimalGrid_scanned W H p HW HH Hp HWH) as (s & -> & Hmax & Hs).
  exists (best s). split; [done|]. split.
  - intros Hz c Hc.
    destruct (candidate_accepted W H p HW HH Hp c Hc) as [g Hg].
    pose proof (Hmax c g Hc Hg) as Hle. rewrite Hz in Hle.
    change (area zero_grid) with 0 in Hle.
    pose proof (candidate_positive W H p c g HW HH ltac:(lia) Hc Hg) as Hpos.
    destruct (Z.le_gt_cases c W); [|by left].
    destruct (Z.le_gt_cases (2 * rows_for p c) H); [|by right].
    assert (0 < area g) by (apply Hpos; done). lia.
  - intros Hnone.
    destruct Hs as [->|(c0 & Hc0 & Hcand & Hpos & _)]; [done|exfalso].
    apply (candidate_positive W H p c0 _ HW HH ltac:(lia) ltac:(lia) Hcand) in Hpos.
    destruct (Hnone c0 ltac:(lia)); lia.
Qed.

End Room.

Lemma calculateOptimalGrid_has_room_witness :
  exists g, calculateOptimalGrid (F := exact) 1024 2048 6 = Some g /\
    (g = zero_grid \/
     (1 <= Cols g <= 6 /\ Rows g = rows_for 6 (Cols g) /\
      6 <= Cols g * Rows g < 6 + Cols g)) /\
    forall pictureUUIDs : list string,
      Z.of_nat (length pictureUUIDs) = 6 ->
      Pool.job_count pictureUUIDs g = (if Cols g =? 0 then 0 else 6).
Proof.
  apply (calculateOptimalGrid_has_room (F := exact) (L := ExactFacts.exact_laws)
           1024 2048 6); lia.
Defined.

Lemma calculateOptimalGrid_zero_iff_witness :
  exists g, calculateOptimalGrid (F := exact) 1024 2048 6 = Some g /\
    (g = zero_grid <->
     forall c, 1 <= c <= 6 -> 1024 < c \/ 2048 < 2 * rows_for 6 c).
Proof.
  apply (calculateOptimalGrid_zero_iff (F := exact) (L := ExactFacts.exact_laws)
           1024 2048 6); lia.
Defined.

(** The canvas of the handler, 1024x2048, has room for 2^20 pictures and
    for no more (with numbers that satisfy [Float64Laws]): up to 2^20
    pictures the grid has tiles of a positive size and a cell for every
    picture, and from 2^20 + 1 pictures on it is the zero value. *)
Theorem wall_holds_2_20_pictures {F : Float64} {L : Float64Laws F} (p : Z) :
  1 <= p < 2 ^ 53 ->
  exists g, calculateOptimalGrid 1024 2048 p = Some g /\
    (g = zero_grid <-> 2 ^ 20 < p) /\
    (p <= 2 ^ 20 ->
     0 < PicWidth g /\ 0 < PicHeight g /\ p <= Cols g * Rows g).
Proof.
  intros Hp.
  destruct (calculateOptimalGrid_scanned 1024 2048 p) as (s & -> & Hmax & Hs);
    [lia..|].
  exists (best s). split; [done|].
  assert (Hbig : 2 ^ 20 < p -> best s = zero_grid).
  { intros Hlt. destruct Hs as [->|(c & Hc & Hg' & Hpos & _)]; [done|exfalso].
    apply (candidate_positive 1024 2048 p c _ ltac:(lia) ltac:(lia) ltac:(lia)
             ltac:(lia) Hg') in Hpos.
    pose proof (rows_for_slots p c ltac:(lia) ltac:(lia)). nia. }
  assert (Hsmall : p <= 2 ^ 20 ->
    0 < PicWidth (best s) /\ 0 < PicHeight (best s) /\
    p <= Cols (best s) * Rows (best s)).
  { intros Hle.
    set (c := Z.min p 1024).
    assert (Hc : 1 <= c <= p) by lia.
    destruct (candidate_accepted 1024 2048 p ltac:(lia) ltac:(lia) Hp c Hc)
      as [g Hg].
    pose proof (Hmax c g Hc Hg) as Hge.
    assert (0 < area g) as Hpos.
    { apply (candidate_positive 1024 2048 p c g); try lia; try done.
      split; [lia|].
      pose proof (rows_for_slots p c ltac:(lia) ltac:(lia)).
      destruct (Z.le_gt_cases p 1024).
      - assert (c = p) by lia. nia.
      - assert (c = 1024) by lia. lia. }
    destruct Hs as [->|(c0 & Hc0 & Hcand & Hpos0 & _)].
    { change (area (best search_init)) with 0 in Hge. lia. }
    destruct (candidate_facts 1024 2048 p ltac:(lia) ltac:(lia) Hp c0 _
                ltac:(lia) Hcand) as (HC & HR & Hw & Hh & _).
    pose proof (rows_for_slots p c0 ltac:(lia) ltac:(lia)).
    pose proof (rows_for_bounds p Hp c0 ltac:(lia)).
    unfold area in Hpos0. rewrite HC, HR in *.
    split; [nia|]. split; [nia|lia]. }
  split; [|done]. split; [|done].
  intros Hz. destruct (Z.le_gt_cases p (2 ^ 20)) as [Hle|]; [|lia].
  destruct (Hsmall Hle) as (Hpw & _). rewrite Hz in Hpw. simpl in Hpw. lia.
Qed.

Lemma wall_holds_2_20_pictures_witness :
  exists g, calculateOptimalGrid (F := exact) 1024 2048 1048576 = Some g /\
    (g = zero_grid <-> 2 ^ 20 < 1048576) /\
    (1048576 <= 2 ^ 20 ->
     0 < PicWidth g /\ 0 < PicHeight g /\ 1048576 <= Cols g * Rows g).
Proof.
  apply (wall_holds_2_20_pictures (F := exact) (L := ExactFacts.exact_laws)
           1048576); lia.
Defined.

End GridRoom.

(** ** The worker pool without a worker *)

Module PoolIdle.
Import Pool PoolFacts.
Local Open Scope Z_scope.

Section NoWorker.
Context {Image : Type}.
Variable fetch : ImageJob -> Image + string.
Variable imaging_Fill : Image -> Z -> Z -> Image.
Variable pictureUUIDs : list string.
Variable grid : Grid.GridDimensions.
Variable maxWorkers : Z.

Local Abbreviation step := (step fetch imaging_Fill pictureUUIDs grid).
Local Abbreviation init := (pool_init (Image := Image) pictureUUIDs maxWorkers).
Implicit Types (s : PoolState Image).

(** Without a worker nothing reaches the collector. *)
Lemma idle_steps s :
  maxWorkers <= 0 -> rtc step init s ->
  workers s = [] /\ results s = [] /\ collected s = 0 /\ images s = ∅.
Proof.
  intros Hmax Hs. revert s Hs. apply rtc_ind_r.
  - simpl. replace (Z.to_nat maxWorkers) with 0%nat by lia. done.
  - intros s1 s2 _ Hstep (Hw & Hr & Hc & Hi).
    inversion Hstep as
      [s0 uuid rest Hcl Hp Hn Hcap|s0 Hcl Hend|s0 w job rest Hw' Hj
      |s0 w r Hw' Hcap|s0 w Hw' Hj Hcl|s0 r rest Hcing Hr']; subst;
      cbn [next pending jobs closed workers results collected images];
      try done.
    + by rewrite Hw in Hw'.
    + by rewrite Hw in Hw'.
    + by rewrite Hw in Hw'.
    + by rewrite Hr in Hr'.
Qed.

(** The dispatcher alone: it sends its jobs, which the channel has room
    for, and closes the channel. *)
Lemma dispatcher_finishes s :
  closed s = false ->
  (length (jobs s) + length (pending s) <= capacity pictureUUIDs)%nat ->
  exists s', rtc step s s' /\ closed s' = true /\
             workers s' = workers s /\ results s' = results s.
Proof.
  remember (pending s) as uuids eqn:Hp. revert s Hp.
  induction uuids as [|uuid rest IH]; intros s Hp Hcl Hcap.
  - eexists. split; [apply rtc_once, step_close; [done|by left; rewrite <- Hp]|].
    done.
  - destruct (Z.le_gt_cases (slots grid) (next s)) as [Hle|Hlt].
    { eexists. split; [apply rtc_once, step_close; [done|by right]|]. done. }
    edestruct (IH {| next := next s + 1; pending := rest;
                     jobs := jobs s ++ [job_for grid (next s) uuid];
                     closed := closed s; workers := workers s;
                     results := results s; collected := collected s;
                     images := images s |}) as (s' & Hs' & ? & ? & ?).
    + done.
    + done.
    + simpl. rewrite length_app. simpl in *. lia.
    + exists s'. split; [|done].
      eapply rtc_l; [|exact Hs'].
      apply step_send; [done|done|lia|simpl in Hcap; lia].
Qed.

(** With [maxWorkers <= 0] and one job at least,
    [downloadImagesWithWorkerPool] never returns: in every state that
    the goroutines can reach the collector is still in its loop and its
    map is empty; every run is finite, and the dispatcher can fill the
    channel and close it, after which no goroutine can move. *)
Theorem pool_without_workers_never_returns :
  maxWorkers <= 0 -> 1 <= job_count pictureUUIDs grid ->
  (forall s, rtc step init s ->
     collecting pictureUUIDs grid s /\ images s = ∅) /\
  (forall n s, nsteps step n init s -> (n <= fuel init)%nat) /\
  exists s, rtc step init s /\ forall s', ~ step s s'.
Proof.
  intros Hmax Hjobs. unfold job_count in Hjobs.
  split; [|split].
  - intros s Hs. destruct (idle_steps s Hmax Hs) as (_ & _ & Hc & Hi).
    split; [|done]. unfold collecting. rewrite Hc. lia.
  - intros n s Hs.
    pose proof (nsteps_fuel fetch imaging_Fill pictureUUIDs grid _ _ _ Hs). lia.
  - destruct (dispatcher_finishes init) as (s & Hs & Hcl & Hw & Hr).
    { done. } { simpl. unfold capacity. lia. }
    exists s. split; [done|].
    destruct (idle_steps s Hmax Hs) as (Hw' & Hr' & _).
    intros s' Hstep.
    inversion Hstep as
      [s0 uuid rest Hcl' Hp Hn Hcap|s0 Hcl' Hend|s0 w job rest Hw'' Hj
      |s0 w r Hw'' Hcap|s0 w Hw'' Hj Hcl'|s0 r rest Hcing Hr'']; subst;
      try congruence.
    + by rewrite Hw' in Hw''.
    + by rewrite Hw' in Hw''.
    + by rewrite Hw' in Hw''.
Qed.

End NoWorker.

Lemma pool_without_workers_never_returns_witness :
  (forall s,
     rtc (step Sample.fetch Sample.fill Sample.pictures Sample.two_cells)
         (pool_init Sample.pictures 0) s ->
     collecting Sample.pictures Sample.two_cells s /\ images s = ∅) /\
  (forall n s,
     nsteps (step Sample.fetch Sample.fill Sample.pictures Sample.two_cells)
            n (pool_init Sample.pictures 0) s ->
     (n <= fuel (pool_init (Image := string) Sample.pictures 0))%nat) /\
  exists s,
    rtc (step Sample.fetch Sample.fill Sample.pictures Sample.two_cells)
        (pool_init Sample.pictures 0) s /\
    forall s', ~ step Sample.fetch Sample.fill Sample.pictures
                   Sample.two_cells s s'.
Proof.
  apply (pool_without_workers_never_returns Sample.fetch Sample.fill
           Sample.pictures Sample.two_cells 0).
  - lia.
  - vm_compute. discriminate.
Defined.

End PoolIdle.

(** ** The worker pool: no goroutine is left behind *)

Module PoolEnds.
Import Pool PoolFacts.
Local Open Scope Z_scope.

Lemma holding_length {Image} (ws : list (Worker Image)) w r :
  ws !! w = Some (Holding r) -> (1 <= length (holding ws))%nat.
Proof.
  revert w. induction ws as [|k ws IH]; intros [|w] Hw; simplify_eq/=.
  - lia.
  - specialize (IH w Hw). unfold holding in *. simpl.
    rewrite length_app. lia.
Qed.

Section Ends.
Context {Image : Type}.
Variable fetch : ImageJob -> Image + string.
Variable imaging_Fill : Image -> Z -> Z -> Image.
Variable pictureUUIDs : list string.
Variable grid : Grid.GridDimensions.
Variable maxWorkers : Z.

Local Abbreviation process := (process fetch imaging_Fill).
Local Abbreviation step := (step fetch imaging_Fill pictureUUIDs grid).
Local Abbreviation inv :=
  (pool_inv fetch imaging_Fill pictureUUIDs grid maxWorkers).
Local Abbreviation init := (pool_init (Image := Image) pictureUUIDs maxWorkers).
Implicit Types (s : PoolState Image).

(** Where the results are, counted: there are as many as jobs, and not
    more than the channels have room for. *)
Lemma inv_count s :
  inv s ->
  (Z.to_nat (collected s) + length (results s) + length (holding (workers s))
   + length (jobs s) + length (unsent grid s)
   = length (dispatch_from grid 0 pictureUUIDs))%nat /\
  (length (dispatch_from grid 0 pictureUUIDs) <= capacity pictureUUIDs)%nat.
Proof.
  intros ((consumed & Hperm & _ & Hcol) & _).
  apply Permutation_length in Hperm.
  rewrite !length_app, !length_fmap in Hperm.
  split; [lia|].
  pose proof (job_count_length pictureUUIDs grid) as Hk.
  unfold job_count, capacity in *. lia.
Qed.

(** No goroutine of the pool is left waiting, whatever the number of
    workers.  In every state that the goroutines can reach, a worker
    that holds a result finds room for it in [results], and the
    dispatcher finds room in [jobs] for its next job: the channels have
    the capacity of the list of pictures, and no send blocks.  With one
    worker at least, a state in which no goroutine can move is one where
    the collector has left its loop, the channel of the jobs is closed
    and empty, no result is unread, and every worker has left its loop. *)
Theorem pool_leaves_no_goroutine s :
  rtc step init s ->
  (forall w r, workers s !! w = Some (Holding r) ->
     (length (results s) < capacity pictureUUIDs)%nat) /\
  (forall uuid rest, pending s = uuid :: rest -> next s < slots grid ->
     (length (jobs s) < capacity pictureUUIDs)%nat) /\
  (1 <= maxWorkers -> (forall s', ~ step s s') ->
   ~ collecting pictureUUIDs grid s /\ closed s = true /\
   jobs s = [] /\ results s = [] /\
   Forall (fun k => k = Exited) (workers s)).
Proof.
  intros Hs.
  pose proof (inv_steps fetch imaging_Fill pictureUUIDs grid maxWorkers
                _ _ Hs (inv_init _ _ _ _ _)) as Hinv.
  destruct (inv_count s Hinv) as [Hcount Hcap].
  assert (Hemit : forall w r, workers s !! w = Some (Holding r) ->
            (length (results s) < capacity pictureUUIDs)%nat).
  { intros w r Hw. pose proof (holding_length _ _ _ Hw). lia. }
  assert (Hsend : forall uuid rest, pending s = uuid :: rest ->
            next s < slots grid ->
            (length (jobs s) < capacity pictureUUIDs)%nat).
  { intros uuid rest Hp Hn. unfold unsent in Hcount. rewrite Hp in Hcount.
    simpl in Hcount.
    destruct (Z.leb_spec (slots grid) (next s)); [lia|]. simpl in Hcount. lia. }
  split; [done|]. split; [done|].
  intros Hmax Hstuck.
  assert (Hdone : ~ collecting pictureUUIDs grid s).
  { intros Hc.
    destruct (inv_progress fetch imaging_Fill pictureUUIDs grid maxWorkers
                s Hmax Hinv Hc) as [s' Hstep].
    by apply (Hstuck s'). }
  assert (Hclosed : closed s = true).
  { destruct (closed s) eqn:Hcl; [done|exfalso].
    destruct (pending s) as [|uuid rest] eqn:Hp.
    - eapply Hstuck. apply step_close; [done|by left].
    - destruct (Z.le_gt_cases (slots grid) (next s)).
      + eapply Hstuck. apply step_close; [done|by right].
      + eapply Hstuck. eapply step_send; [done|done|lia|by eapply Hsend]. }
  assert (Hexited : Forall (fun k => k = Exited) (workers s)).
  { apply Forall_lookup. intros w k Hw. destruct k as [|r|]; [| |done]; exfalso.
    - destruct (jobs s) as [|job rest] eqn:Hj.
      + eapply Hstuck. by eapply step_exit.
      + eapply Hstuck. by eapply step_take.
    - eapply Hstuck. eapply step_emit; [done|by eapply Hemit]. }
  destruct Hinv as (_ & _ & _ & _ & Hexit & Hws).
  assert (Hjobs : jobs s = []).
  { destruct (workers s) as [|k ks] eqn:Hks; [simpl in Hws; lia|].
    inversion Hexited as [|? ? -> _]; subst.
    destruct Hexit as [_ ?]; [by left|done]. }
  split; [done|]. split; [done|]. split; [done|]. split; [|done].
  destruct (results s) as [|r rest] eqn:Hr; [done|exfalso].
  pose proof (job_count_length pictureUUIDs grid) as Hk.
  unfold collecting, job_count, capacity in *. simpl in Hcount.
  assert (0 <= collected s).
  { destruct (inv_steps fetch imaging_Fill pictureUUIDs grid maxWorkers
                _ _ Hs (inv_init _ _ _ _ _)) as ((consumed & _ & _ & ->) & _).
    lia. }
  lia.
Qed.

End Ends.

(** One picture and one worker: the job is sent, taken, answered and
    collected, the channel is closed and the worker leaves. *)
Lemma pool_leaves_no_goroutine_witness :
  exists s,
    rtc (step Sample.fetch Sample.fill ["a"] Sample.two_cells)
        (pool_init ["a"] 1) s /\
    closed s = true /\ workers s = [Exited] /\ images s = {[ 0 := "a" ]} /\
    (forall w r, workers s !! w = Some (Holding r) ->
       (length (results s) < capacity ["a"])%nat) /\
    (forall uuid rest, pending s = uuid :: rest ->
       next s < slots Sample.two_cells ->
       (length (jobs s) < capacity ["a"])%nat) /\
    (1 <= 1 ->
     (forall s', ~ step Sample.fetch Sample.fill ["a"] Sample.two_cells s s') ->
     ~ collecting ["a"] Sample.two_cells s /\ closed s = true /\
     jobs s = [] /\ results s = [] /\
     Forall (fun k => k = Exited) (workers s)).
Proof.
  assert (Hrun : rtc (step Sample.fetch Sample.fill ["a"] Sample.two_cells)
            (pool_init ["a"] 1)
            {| next := 1; pending := []; jobs := []; closed := true;
               workers := [Exited]; results := []; collected := 1;
               images := {[ 0 := "a" ]} |}).
  { eapply rtc_l.
    { eapply step_send; [reflexivity|reflexivity|vm_compute; reflexivity|vm_compute; lia]. }
    cbn. eapply rtc_l.
    { eapply step_take with (w := 0%nat); reflexivity. }
    cbn. eapply rtc_l.
    { eapply step_emit with (w := 0%nat); [reflexivity|vm_compute; lia]. }
    cbn. eapply rtc_l.
    { eapply step_collect; [split; vm_compute; reflexivity|reflexivity]. }
    cbn. eapply rtc_l.
    { eapply step_close; [reflexivity|by left]. }
    cbn. eapply rtc_l.
    { eapply step_exit with (w := 0%nat); reflexivity. }
    cbn. apply rtc_refl. }
  eexists. split; [exact Hrun|]. split; [reflexivity|].
  split; [reflexivity|]. split; [reflexivity|].
  apply (pool_leaves_no_goroutine Sample.fetch Sample.fill ["a"]
           Sample.two_cells 1 _ Hrun).
Defined.

End PoolEnds.

(** ** The file cache in use: what is written is served, and nothing else is touched *)

Module CacheUse.
Import Cache CacheFacts.
Local Open Scope Z_scope.

Section Use.
Variable Ext : Type.
Variable digest : string -> string.
Variable filepath_Join : string -> string -> string.

Local Abbreviation World := (World Ext).
Local Abbreviation filePath := (filePath digest filepath_Join).
Local Abbreviation Get := (Get digest filepath_Join).
Local Abbreviation GetOrCreate := (GetOrCreate digest filepath_Join).
Local Abbreviation regenerate := (regenerate digest filepath_Join).
Local Abbreviation fresh_artifact := (fresh_artifact digest filepath_Join).

Implicit Types (c : FileCache) (key : string) (w : World) (g : Generator Ext).

(** What [GetOrCreate] leaves behind, by what it returns. *)
Lemma GetOrCreate_cases c key g w r w' :
  GetOrCreate c key g w = Some (r, w') ->
  (w' = w /\ (hit r = true \/ is_Some (err r))) \/
  (exists out x, g (ext w) = Some (out, x) /\
     match out with
     | inr e => r = failure e /\ w' = with_ext x (getPerKeyMutex key w)
     | inl b =>
         match write_fault (io w) with
         | Some e => r = failure e /\ w' = with_ext x (getPerKeyMutex key w)
         | None =>
             r = fresh b /\
             w' = with_disk
                    (<[filePath c key := {| content := b; modTime := now w |}]>
                       (disk w))
                    (with_ext x (getPerKeyMutex key w))
         end
     end).
Proof.
  unfold Cache.GetOrCreate. rewrite Get_getPerKeyMutex.
  destruct (err (Get c key w)) as [e|] eqn:He.
  { intros [= <- <-]. left. split; [done|]. right. by eexists. }
  destruct (hit (Get c key w)) eqn:Hh.
  { intros [= <- <-]. left. split; [done|]. by left. }
  unfold Cache.regenerate. cbn [ext getPerKeyMutex].
  destruct (g (ext w)) as [[out x]|] eqn:Hg; [|done].
  cbn [mbind option_bind]. intros Hr. right. exists out, x. split; [done|].
  destruct out as [b|e].
  - unfold Cache.writeFileAtomically in Hr. cbn [io with_ext getPerKeyMutex] in Hr.
    destruct (write_fault (io w)); by injection Hr as <- <-.
  - by injection Hr as <- <-.
Qed.

(** The bytes that [GetOrCreate] has generated and written are what it
    returns from the cache until the TTL has passed. *)
Lemma fresh_then_cached c key g w b w1 :
  GetOrCreate c key g w = Some (fresh b, w1) -> b <> [] ->
  disk w1 !! filePath c key = Some {| content := b; modTime := now w |} /\
  forall g2 w2, disk w2 = disk w1 -> io w2 = no_faults -> now w <= now w2 ->
    (now w2 <= now w + TTL c -> GetOrCreate c key g2 w2 = Some (cached b, w2)) /\
    (now w + TTL c < now w2 -> TTL c < GoInt.max_int ->
     GetOrCreate c key g2 w2 = regenerate c key g2 (getPerKeyMutex key w2)).
Proof.
  intros Hgoc Hb.
  assert (Hfile : disk w1 !! filePath c key
                  = Some {| content := b; modTime := now w |}).
  { destruct (GetOrCreate_cases _ _ _ _ _ _ Hgoc) as [[_ [?|[? ?]]]|(out & x & _ & Hout)];
      [done|done|].
    destruct out as [b'|e]; [|by destruct Hout].
    destruct (write_fault (io w)); [by destruct Hout|].
    destruct Hout as [[= ->] ->]. cbn [disk with_disk]. apply lookup_insert_eq. }
  split; [done|]. intros g2 w2 Hd Hio Hnow.
  assert (HG : Get c key w2
               = if TTL c <? time_Since w2 (now w) then miss else cached b).
  { rewrite Get_healthy, Hd, Hfile by done. cbn [content modTime].
    destruct (Z.eqb_spec (Z.of_nat (length b)) 0) as [E|]; [|done].
    destruct b; [done|simpl in E; lia]. }
  split.
  - intros Hle.
    assert (Hh : Get c key w2 = cached b).
    { rewrite HG. pose proof (time_Sub_le (now w2) (now w) ltac:(lia)).
      unfold time_Since.
      destruct (Z.ltb_spec (TTL c) (time_Sub (now w2) (now w))); [lia|done]. }
    rewrite GetOrCreate_hit; rewrite Hh; done.
  - intros Hlt Hmax. apply GetOrCreate_missed.
    rewrite HG. unfold time_Since, time_Sub, GoInt.min_int, GoInt.max_int in *.
    destruct (Z.ltb_spec (TTL c) (Z.max (-9223372036854775808)
                (Z.min 9223372036854775807 (now w2 - now w)))); [done|lia].
Qed.

(** For a cache that [NewFileCache] has accepted (its directory is not
    the empty string, its TTL is positive and [os.MkdirAll] has made the
    directory without an error): the bytes that
    [GetOrCreate] has generated, when they are not empty, are on the
    disk under the path of the key with the time of the call; as long as
    the disk stays as it is and reads do not fail, every later
    [GetOrCreate] of the key returns them as a hit, without running its
    generator, until the TTL has passed, and runs its generator again
    after that (for a TTL below the longest duration). *)
Theorem written_bytes_are_served os_MkdirAll dir ttl c key g w b w1 :
  NewFileCache os_MkdirAll dir ttl = inl c ->
  GetOrCreate c key g w = Some (fresh b, w1) -> b <> [] ->
  dir <> "" /\ 0 < ttl /\ os_MkdirAll dir = None /\
  disk w1 !! filePath c key = Some {| content := b; modTime := now w |} /\
  forall g2 w2, disk w2 = disk w1 -> io w2 = no_faults -> now w <= now w2 ->
    (now w2 <= now w + ttl -> GetOrCreate c key g2 w2 = Some (cached b, w2)) /\
    (now w + ttl < now w2 -> ttl < GoInt.max_int ->
     GetOrCreate c key g2 w2 = regenerate c key g2 (getPerKeyMutex key w2)).
Proof.
  intros Hnew Hgoc Hb.
  assert (Hc : dir <> "" /\ TTL c = ttl /\ 0 < ttl /\ os_MkdirAll dir = None).
  { unfold NewFileCache in Hnew.
    destruct (String.eqb_spec dir ""); [done|].
    destruct (Z.leb_spec ttl 0); [done|].
    destruct (os_MkdirAll dir); [done|]. injection Hnew as <-. done. }
  destruct Hc as (Hdir & <- & Hpos & Hmk).
  split; [done|]. split; [done|]. split; [done|].
  by apply (fresh_then_cached c key g).
Qed.

(** Whatever [GetOrCreate] returns, the only file that it may have
    changed is that of its key, so that [Get] of a key with another path
    answers as before; on a hit or an error the disk is as before (on a
    hit the whole world is); the clock and the faults are untouched and
    no mutex is ever removed from [perKeyMu]. *)
Theorem GetOrCreate_changes_its_file_only c key g w r w' :
  GetOrCreate c key g w = Some (r, w') ->
  (forall path, path <> filePath c key -> disk w' !! path = disk w !! path) /\
  (forall key', filePath c key' <> filePath c key ->
     Get c key' w' = Get c key' w) /\
  (hit r = true \/ is_Some (err r) -> disk w' = disk w) /\
  (hit r = true -> w' = w) /\
  now w' = now w /\ io w' = io w /\ perKeyMu w ⊆ perKeyMu w'.
Proof.
  intros Hgoc.
  assert (Hframe : (forall path, path <> filePath c key ->
                      disk w' !! path = disk w !! path) /\
                   (hit r = true \/ is_Some (err r) -> disk w' = disk w) /\
                   (hit r = true -> w' = w) /\
                   now w' = now w /\ io w' = io w /\ perKeyMu w ⊆ perKeyMu w').
  { destruct (GetOrCreate_cases _ _ _ _ _ _ Hgoc) as [[-> _]|(out & x & _ & Hout)].
    { done. }
    destruct out as [b|e].
    - destruct (write_fault (io w)) as [e|].
      + destruct Hout as [-> ->]. cbn.
        split; [done|]. split; [done|]. split; [done|].
        split; [done|]. split; [done|]. set_solver.
      + destruct Hout as [-> ->]. cbn.
        split. { intros path Hp. by rewrite lookup_insert_ne. }
        split. { intros [?|[? ?]]; done. }
        split; [done|]. split; [done|]. split; [done|]. set_solver.
    - destruct Hout as [-> ->]. cbn.
      split; [done|]. split; [done|]. split; [done|].
      split; [done|]. split; [done|]. set_solver. }
  destruct Hframe as (Hdisk & Hsame & Hhit & Hnow & Hio & Hmu).
  split; [done|]. split; [|done].
  intros key' Hne. unfold Cache.Get, os_Stat, os_Open, io_ReadAll, time_Since.
  by rewrite Hdisk, Hnow, Hio.
Qed.

(** The errors of [Get], and what [GetOrCreate] makes of them.  [Get]
    fails with "stat cache file: ..." when [os.Stat] fails otherwise
    than with "not exist"; an artifact that is absent, empty or expired
    is a miss whether the file can be opened or not; a fresh artifact
    that cannot be opened or read fails with "open cache file: ..." or
    "read cache file: ...".  [GetOrCreate] returns an error of [Get] as
    it is, without running the generator or changing the world. *)
Theorem Get_fails_when_the_disk_does c key w :
  (forall cause, stat_fault (io w) (filePath c key) = Some cause ->
     Get c key w = failure ("stat cache file: " +:+ cause)) /\
  (stat_fault (io w) (filePath c key) = None ->
   ~ fresh_artifact c key w -> Get c key w = miss) /\
  (forall cause, stat_fault (io w) (filePath c key) = None ->
     fresh_artifact c key w ->
     open_fault (io w) (filePath c key) = Some cause ->
     Get c key w = failure ("open cache file: " +:+ cause)) /\
  (forall cause, stat_fault (io w) (filePath c key) = None ->
     fresh_artifact c key w ->
     open_fault (io w) (filePath c key) = None ->
     read_fault (io w) (filePath c key) = Some cause ->
     Get c key w = failure ("read cache file: " +:+ cause)) /\
  (forall e g, err (Get c key w) = Some e ->
     GetOrCreate c key g w = Some (failure e, w)).
Proof.
  assert (Hfresh : forall f, disk w !! filePath c key = Some f ->
            fresh_artifact c key w <->
            (Z.of_nat (length (content f)) =? 0) = false /\
            (TTL c <? time_Since w (modTime f)) = false).
  { intros f Hf. split.
    - intros (f' & Hf' & Hne & Hage). assert (f' = f) as -> by congruence.
      split; [|apply Z.ltb_ge; lia].
      apply Z.eqb_neq. destruct (content f); [done|simpl; lia].
    - intros [Hne Hage]. exists f. split; [done|]. split.
      + intros E. rewrite E in Hne. done.
      + by apply Z.ltb_ge. }
  split; [|split; [|split; [|split]]].
  - intros cause Hst. unfold Cache.Get, os_Stat. by rewrite Hst.
  - intros Hst Hnf. unfold Cache.Get, os_Stat. rewrite Hst.
    destruct (disk w !! filePath c key) as [f|] eqn:Hf; [|done].
    destruct (_ =? 0) eqn:E1; [done|].
    destruct (_ <? _) eqn:E2; [done|].
    destruct Hnf. by apply (Hfresh f).
  - intros cause Hst (f & Hf & Hfr) Ho. unfold Cache.Get, os_Stat, os_Open.
    rewrite Hst, Hf, Ho.
    destruct (proj1 (Hfresh f Hf)) as [-> ->]; [by exists f|done].
  - intros cause Hst (f & Hf & Hfr) Ho Hr.
    unfold Cache.Get, os_Stat, os_Open, io_ReadAll.
    rewrite Hst, Hf, Ho, Hr.
    destruct (proj1 (Hfresh f Hf)) as [-> ->]; [by exists f|done].
  - intros e g He. unfold Cache.GetOrCreate. by rewrite He.
Qed.

End Use.

Lemma written_bytes_are_served_witness :
  exists w1,
    GetOrCreate Sample.digest Sample.join Sample.cache "wall"
      (Sample.generator_of (inl Sample.jpeg)) (Sample.world 0 0)
    = Some (fresh Sample.jpeg, w1) /\
    "cache" <> "" /\ 0 < 3600000000000 /\
    (fun _ : string => @None string) "cache" = None /\
    disk w1 !! filePath Sample.digest Sample.join Sample.cache "wall"
    = Some {| content := Sample.jpeg; modTime := now (Sample.world 0 0) |} /\
    forall (g2 : Generator nat) (w2 : World nat),
      disk w2 = disk w1 -> io w2 = no_faults ->
      now (Sample.world 0 0) <= now w2 ->
      (now w2 <= now (Sample.world 0 0) + 3600000000000 ->
       GetOrCreate Sample.digest Sample.join Sample.cache "wall" g2 w2
       = Some (cached Sample.jpeg, w2)) /\
      (now (Sample.world 0 0) + 3600000000000 < now w2 ->
       3600000000000 < GoInt.max_int ->
       GetOrCreate Sample.digest Sample.join Sample.cache "wall" g2 w2
       = regenerate Sample.digest Sample.join Sample.cache "wall" g2
           (getPerKeyMutex "wall" w2)).
Proof.
  eexists. split; [reflexivity|].
  apply (written_bytes_are_served nat Sample.digest Sample.join
           (fun _ => None) "cache" 3600000000000 Sample.cache "wall"
           (Sample.generator_of (inl Sample.jpeg)) (Sample.world 0 0)
           Sample.jpeg).
  - reflexivity.
  - reflexivity.
  - discriminate.
Defined.

Lemma GetOrCreate_changes_its_file_only_witness :
  exists r w',
    GetOrCreate Sample.digest Sample.join Sample.cache "wall"
      (Sample.generator_of (inl Sample.jpeg)) (Sample.world 0 0) = Some (r, w') /\
    (forall path,
       path <> filePath Sample.digest Sample.join Sample.cache "wall" ->
       disk w' !! path = disk (Sample.world 0 0) !! path) /\
    (forall key',
       filePath Sample.digest Sample.join Sample.cache key'
       <> filePath Sample.digest Sample.join Sample.cache "wall" ->
       Get Sample.digest Sample.join Sample.cache key' w'
       = Get Sample.digest Sample.join Sample.cache key' (Sample.world 0 0)) /\
    (hit r = true \/ is_Some (err r) -> disk w' = disk (Sample.world 0 0)) /\
    (hit r = true -> w' = Sample.world 0 0) /\
    now w' = now (Sample.world 0 0) /\ io w' = io (Sample.world 0 0) /\
    perKeyMu (Sample.world 0 0) ⊆ perKeyMu w'.
Proof.
  eexists _, _. split; [reflexivity|].
  apply (GetOrCreate_changes_its_file_only nat Sample.digest Sample.join
           Sample.cache "wall" (Sample.generator_of (inl Sample.jpeg))
           (Sample.world 0 0)).
  reflexivity.
Defined.

End CacheUse.

(** ** The file cache: the steps of the write, the purge, the mutex *)

Module CacheFilesFacts.
Import Cache CacheFacts CacheFiles.
Local Open Scope Z_scope.

Section Write.
Variable digest : string -> string.
Variable filepath_Join : string -> string -> string.

Local Abbreviation filePath := (filePath digest filepath_Join).
Local Abbreviation write := (CacheFiles.writeFileAtomically digest filepath_Join).
Local Abbreviation write_states := (write_states digest filepath_Join).

Implicit Types (c : FileCache) (key : string) (d : gmap string File).

(** The files that the steps leave when the temporary file is new and the
    deferred removal does not fail. *)
Lemma write_steps c key data o t d :
  (forall tmpPath, createTemp o = inl tmpPath ->
     d !! tmpPath = None /\ tmpPath <> filePath c key) ->
  forall path,
    (write c key data o t d).2 !! path =
    if decide (path = filePath c key) then
      match (write c key data o t d).1 with
      | None => Some {| content := data; modTime := t |}
      | Some _ => d !! path
      end
    else if decide (createTemp o = inl path) then
      if remove_err o then
        match mkdirAll_err o, write_err o with
        | Some _, _ => None
        | None, Some (n, _) => Some {| content := take n data; modTime := t |}
        | None, None =>
            match (write c key data o t d).1 with
            | None => None
            | Some _ => Some {| content := data; modTime := t |}
            end
        end
      else None
    else d !! path.
Proof.
  intros Hnew path. unfold CacheFiles.writeFileAtomically, cleanup, os_Rename.
  destruct (mkdirAll_err o) as [e|].
  { cbn. destruct (decide (path = _)); [done|].
    destruct (decide (createTemp o = inl path)) as [E|]; [|done].
    destruct (Hnew _ E) as [-> _]. by destruct (remove_err o). }
  destruct (createTemp o) as [tmp|e] eqn:Htmp.
  2:{ cbn. destruct (decide (path = _)); [done|].
      by destruct (decide (_ = _)). }
  destruct (Hnew tmp eq_refl) as [Hfresh Hne].
  destruct (decide (path = filePath c key)) as [->|Hpath].
  - (* the final path *)
    destruct (write_err o) as [[n e]|]; cbn.
    { destruct (remove_err o);
        rewrite ?lookup_delete_ne, !lookup_insert_ne by done; done. }
    destruct (sync_err o); cbn.
    { destruct (remove_err o);
        rewrite ?lookup_delete_ne, !lookup_insert_ne by done; done. }
    destruct (close_err o); cbn.
    { destruct (remove_err o);
        rewrite ?lookup_delete_ne, !lookup_insert_ne by done; done. }
    destruct (rename_err o); cbn.
    { destruct (remove_err o);
        rewrite ?lookup_delete_ne, !lookup_insert_ne by done; done. }
    rewrite lookup_insert_eq.
    destruct (remove_err o);
      rewrite ?lookup_delete_ne, lookup_insert_eq by done; done.
  - destruct (decide (inl tmp = inl path)) as [[= ->]|Hother].
    + (* the temporary file *)
      destruct (write_err o) as [[n e]|]; cbn.
      { destruct (remove_err o);
          rewrite ?lookup_delete_eq, ?lookup_insert_eq; done. }
      destruct (sync_err o); cbn.
      { destruct (remove_err o);
          rewrite ?lookup_delete_eq, ?lookup_insert_eq; done. }
      destruct (close_err o); cbn.
      { destruct (remove_err o);
          rewrite ?lookup_delete_eq, ?lookup_insert_eq; done. }
      destruct (rename_err o); cbn.
      { destruct (remove_err o);
          rewrite ?lookup_delete_eq, ?lookup_insert_eq; done. }
      rewrite lookup_insert_eq.
      destruct (remove_err o);
        rewrite ?lookup_delete_eq, ?lookup_insert_ne, ?lookup_delete_eq by done;
        done.
    + assert (tmp <> path) by congruence.
      destruct (write_err o) as [[n e]|]; cbn.
      { destruct (remove_err o);
          rewrite ?lookup_delete_ne, !lookup_insert_ne by done; done. }
      destruct (sync_err o); cbn.
      { destruct (remove_err o);
          rewrite ?lookup_delete_ne, !lookup_insert_ne by done; done. }
      destruct (close_err o); cbn.
      { destruct (remove_err o);
          rewrite ?lookup_delete_ne, !lookup_insert_ne by done; done. }
      destruct (rename_err o); cbn.
      { destruct (remove_err o);
          rewrite ?lookup_delete_ne, !lookup_insert_ne by done; done. }
      rewrite lookup_insert_eq.
      destruct (remove_err o);
        rewrite ?lookup_delete_ne, ?lookup_insert_ne, ?lookup_delete_ne,
          !lookup_insert_ne by done; done.
Qed.

(** [writeFileAtomically], followed through its calls of the operating
    system, whichever of them fails: when the temporary file is a new
    one and not the final path, the final path holds either all of
    [data] (no error is returned) or what it held before (an error is
    returned), and no other file than the temporary one is touched.
    When the deferred removal does not fail, no temporary file is left,
    and the result is that of [Cache.writeFileAtomically] with the
    returned error as its [write_fault]. *)
Theorem writeFileAtomically_all_or_nothing c key data o t d :
  (forall tmpPath, createTemp o = inl tmpPath ->
     d !! tmpPath = None /\ tmpPath <> filePath c key) ->
  (write c key data o t d).2 !! filePath c key
  = match (write c key data o t d).1 with
    | None => Some {| content := data; modTime := t |}
    | Some _ => d !! filePath c key
    end /\
  (forall path, path <> filePath c key -> createTemp o <> inl path ->
     (write c key data o t d).2 !! path = d !! path) /\
  (remove_err o = false ->
   (write c key data o t d).2
   = match (write c key data o t d).1 with
     | None => <[filePath c key := {| content := data; modTime := t |}]> d
     | Some _ => d
     end) /\
  (remove_err o = false ->
   forall (Ext : Type) (w : World Ext),
     disk w = d -> now w = t -> write_fault (io w) = (write c key data o t d).1 ->
     Cache.writeFileAtomically digest filepath_Join c key data w
     = ((write c key data o t d).1, with_disk (write c key data o t d).2 w)).
Proof.
  intros Hnew. pose proof (write_steps c key data o t d Hnew) as Hsteps.
  assert (Hall : remove_err o = false ->
    (write c key data o t d).2
    = match (write c key data o t d).1 with
      | None => <[filePath c key := {| content := data; modTime := t |}]> d
      | Some _ => d
      end).
  { intros Hrm. apply map_eq. intros path. rewrite Hsteps, Hrm.
    destruct (decide (path = filePath c key)) as [->|Hne].
    - destruct (write c key data o t d).1; [done|by rewrite lookup_insert_eq].
    - destruct (decide (createTemp o = inl path)) as [E|].
      + destruct (Hnew _ E) as [Hfresh _].
        destruct (write c key data o t d).1;
          rewrite ?lookup_insert_ne by done; done.
      + destruct (write c key data o t d).1;
          rewrite ?lookup_insert_ne by done; done. }
  split; [|split; [|split; [done|]]].
  - rewrite Hsteps. by rewrite decide_True.
  - intros path Hne Htmp. rewrite Hsteps.
    by rewrite decide_False, decide_False.
  - intros Hrm Ext w Hd Hn Hw. rewrite (Hall Hrm).
    unfold Cache.writeFileAtomically. rewrite Hw, Hd, Hn.
    destruct (write c key data o t d).1; [|done].
    f_equal. destruct w; cbn in *. by subst.
Qed.

(** The last state is what the call leaves. *)
Lemma write_states_last c key data o t d :
  last (write_states c key data o t d) = Some (write c key data o t d).2.
Proof.
  unfold CacheFiles.write_states, CacheFiles.writeFileAtomically.
  destruct (mkdirAll_err o); [done|].
  destruct (createTemp o) as [tmp|]; [|done].
  destruct (write_err o) as [[n e]|].
  { cbn [snd]. by rewrite last_cons, last_snoc. }
  cbn zeta. rewrite last_cons.
  destruct (sync_err o), (close_err o), (rename_err o); cbn [snd];
    rewrite ?last_snoc; try done.
  rewrite last_app. done.
Qed.

(** [Get] looks at the file of its key only. *)
Lemma Get_lookup {Ext} c key (w w' : World Ext) :
  disk w' !! filePath c key = disk w !! filePath c key ->
  now w' = now w -> io w' = io w ->
  Get digest filepath_Join c key w' = Get digest filepath_Join c key w.
Proof.
  intros Hd Hn Hi. unfold Cache.Get, os_Stat, os_Open, io_ReadAll, time_Since.
  by rewrite Hd, Hn, Hi.
Qed.

(** What another goroutine can see of the artifact while
    [writeFileAtomically] runs, when the temporary file is a new one and
    not the final path.  The states of the disk during the call, the
    growing temporary file included, end with the state that the call
    leaves; in each of them the final path holds what it held before
    the call, or all of [data] (and then the call returns no error), and
    every file but the temporary one is as before.  So a [Get] of the
    key during the call answers what it answered before the call, unless
    the complete new artifact is there already. *)
Theorem readers_see_all_or_nothing c key data o t d :
  (forall tmpPath, createTemp o = inl tmpPath ->
     d !! tmpPath = None /\ tmpPath <> filePath c key) ->
  last (write_states c key data o t d) = Some (write c key data o t d).2 /\
  forall d', d' ∈ write_states c key data o t d ->
    (d' !! filePath c key = d !! filePath c key \/
     (d' !! filePath c key = Some {| content := data; modTime := t |} /\
      (write c key data o t d).1 = None)) /\
    (forall path, path <> filePath c key -> createTemp o <> inl path ->
       d' !! path = d !! path) /\
    (forall (Ext : Type) (w w' : World Ext),
       disk w = d -> disk w' = d' -> now w' = now w -> io w' = io w ->
       Get digest filepath_Join c key w' = Get digest filepath_Join c key w \/
       disk w' !! filePath c key = Some {| content := data; modTime := t |}).
Proof.
  intros Hnew. split; [apply write_states_last|]. intros d' Hin.
  assert (Hstate :
    (d' !! filePath c key = d !! filePath c key \/
     (d' !! filePath c key = Some {| content := data; modTime := t |} /\
      (write c key data o t d).1 = None)) /\
    (forall path, path <> filePath c key -> createTemp o <> inl path ->
       d' !! path = d !! path)).
  { revert Hin. unfold CacheFiles.write_states, CacheFiles.writeFileAtomically.
    destruct (mkdirAll_err o).
    { intros ->%list_elem_of_singleton. split; [by left|done]. }
    destruct (createTemp o) as [tmp|] eqn:Htmp.
    2:{ intros ->%list_elem_of_singleton. split; [by left|done]. }
    destruct (Hnew tmp eq_refl) as [Hfresh Hne]. cbn zeta.
    set (created := <[tmp := {| content := []; modTime := t |}]> d).
    assert (Hgrow : forall n d0, d0 ∈ writing tmp data t created n ->
              d0 !! filePath c key = d !! filePath c key /\
              forall path, path <> filePath c key -> @inl string string tmp <> inl path ->
                           d0 !! path = d !! path).
    { intros n d0 (k & -> & _)%list_elem_of_fmap. unfold created. split.
      - by rewrite !lookup_insert_ne.
      - intros path _ Hp. rewrite !lookup_insert_ne; [done|congruence..]. }
    assert (Hclean : forall f,
              cleanup o tmp (<[tmp := f]> created) !! filePath c key
              = d !! filePath c key /\
              forall path, path <> filePath c key -> @inl string string tmp <> inl path ->
                cleanup o tmp (<[tmp := f]> created) !! path = d !! path).
    { intros f. unfold cleanup, created. split.
      - destruct (remove_err o);
          rewrite ?lookup_delete_ne, !lookup_insert_ne by done; done.
      - intros path _ Hp. assert (tmp <> path) by congruence.
        destruct (remove_err o);
          rewrite ?lookup_delete_ne, !lookup_insert_ne by done; done. }
    destruct (write_err o) as [[n e]|].
    { intros [->|[Hd'|Hend%list_elem_of_singleton]%elem_of_app]%elem_of_cons.
      - split; [by left|done].
      - destruct (Hgrow _ _ Hd'). split; [by left|done].
      - rewrite Hend.
        destruct (Hclean {| content := take n data; modTime := t |}).
        split; [by left|done]. }
    intros [->|[Hd'|Hend]%elem_of_app]%elem_of_cons.
    - split; [by left|done].
    - destruct (Hgrow _ _ Hd'). split; [by left|done].
    - destruct (Hclean {| content := data; modTime := t |}) as [Hc1 Hc2].
      destruct (sync_err o).
      { apply list_elem_of_singleton in Hend as ->. split; [by left|done]. }
      destruct (close_err o).
      { apply list_elem_of_singleton in Hend as ->. split; [by left|done]. }
      destruct (rename_err o).
      { apply list_elem_of_singleton in Hend as ->. split; [by left|done]. }
      cbn [fst]. unfold os_Rename, cleanup, created in Hend.
      rewrite lookup_insert_eq in Hend.
      assert (Hd' : d' !! filePath c key
                    = Some {| content := data; modTime := t |} /\
                    forall path, path <> filePath c key -> @inl string string tmp <> inl path ->
                                 d' !! path = d !! path).
      { apply elem_of_cons in Hend as [->|Hend%list_elem_of_singleton];
          [|rewrite Hend].
        - split; [by rewrite lookup_insert_eq|].
          intros path Hp Ht. assert (tmp <> path) by congruence.
          by rewrite lookup_insert_ne, lookup_delete_ne, !lookup_insert_ne.
        - split.
          + destruct (remove_err o);
              rewrite ?lookup_delete_ne, lookup_insert_eq by done; done.
          + intros path Hp Ht. assert (tmp <> path) by congruence.
            destruct (remove_err o);
              rewrite ?lookup_delete_ne, lookup_insert_ne, lookup_delete_ne,
                !lookup_insert_ne by done; done. }
      destruct Hd'. split; [by right|done]. }
  destruct Hstate as [Hfinal Hrest].
  split; [done|]. split; [done|].
  intros Ext w w' Hd Hd' Hn Hi.
  destruct Hfinal as [E|[E _]].
  - left. apply Get_lookup; [|done..]. by rewrite Hd, Hd'.
  - right. by rewrite Hd'.
Qed.

End Write.

(** A disk that is full when the temporary file is synced. *)
Lemma writeFileAtomically_all_or_nothing_witness :
  (CacheFiles.writeFileAtomically Sample.digest Sample.join Sample.cache "wall"
     Sample.jpeg disk_full 1000 (disk Sample.stored)).2
    !! filePath Sample.digest Sample.join Sample.cache "wall"
  = match (CacheFiles.writeFileAtomically Sample.digest Sample.join
             Sample.cache "wall" Sample.jpeg disk_full 1000
             (disk Sample.stored)).1 with
    | None => Some {| content := Sample.jpeg; modTime := 1000 |}
    | Some _ =>
        disk Sample.stored
          !! filePath Sample.digest Sample.join Sample.cache "wall"
    end /\
  (forall path,
     path <> filePath Sample.digest Sample.join Sample.cache "wall" ->
     createTemp disk_full <> inl path ->
     (CacheFiles.writeFileAtomically Sample.digest Sample.join Sample.cache
        "wall" Sample.jpeg disk_full 1000 (disk Sample.stored)).2 !! path
     = disk Sample.stored !! path) /\
  (remove_err disk_full = false ->
   (CacheFiles.writeFileAtomically Sample.digest Sample.join Sample.cache
      "wall" Sample.jpeg disk_full 1000 (disk Sample.stored)).2
   = match (CacheFiles.writeFileAtomically Sample.digest Sample.join
              Sample.cache "wall" Sample.jpeg disk_full 1000
              (disk Sample.stored)).1 with
     | None =>
         <[filePath Sample.digest Sample.join Sample.cache "wall"
           := {| content := Sample.jpeg; modTime := 1000 |}]>
           (disk Sample.stored)
     | Some _ => disk Sample.stored
     end) /\
  (remove_err disk_full = false ->
   forall (Ext : Type) (w : World Ext),
     disk w = disk Sample.stored -> now w = 1000 ->
     write_fault (io w)
     = (CacheFiles.writeFileAtomically Sample.digest Sample.join Sample.cache
          "wall" Sample.jpeg disk_full 1000 (disk Sample.stored)).1 ->
     Cache.writeFileAtomically Sample.digest Sample.join Sample.cache "wall"
       Sample.jpeg w
     = ((CacheFiles.writeFileAtomically Sample.digest Sample.join Sample.cache
           "wall" Sample.jpeg disk_full 1000 (disk Sample.stored)).1,
        with_disk
          (CacheFiles.writeFileAtomically Sample.digest Sample.join
             Sample.cache "wall" Sample.jpeg disk_full 1000
             (disk Sample.stored)).2 w)).
Proof.
  apply (writeFileAtomically_all_or_nothing Sample.digest Sample.join
           Sample.cache "wall" Sample.jpeg disk_full 1000 (disk Sample.stored)).
  intros tmp [= <-]. split; [reflexivity|discriminate].
Defined.

(** The disk that is full, seen from outside: the old artifact all along. *)
Lemma readers_see_all_or_nothing_witness :
  last (write_states Sample.digest Sample.join Sample.cache "wall"
          Sample.jpeg disk_full 1000 (disk Sample.stored))
  = Some (CacheFiles.writeFileAtomically Sample.digest Sample.join
            Sample.cache "wall" Sample.jpeg disk_full 1000
            (disk Sample.stored)).2 /\
  forall d',
    d' ∈ write_states Sample.digest Sample.join Sample.cache "wall"
           Sample.jpeg disk_full 1000 (disk Sample.stored) ->
    (d' !! filePath Sample.digest Sample.join Sample.cache "wall"
     = disk Sample.stored
         !! filePath Sample.digest Sample.join Sample.cache "wall" \/
     (d' !! filePath Sample.digest Sample.join Sample.cache "wall"
      = Some {| content := Sample.jpeg; modTime := 1000 |} /\
      (CacheFiles.writeFileAtomically Sample.digest Sample.join
         Sample.cache "wall" Sample.jpeg disk_full 1000
         (disk Sample.stored)).1 = None)) /\
    (forall path,
       path <> filePath Sample.digest Sample.join Sample.cache "wall" ->
       createTemp disk_full <> inl path ->
       d' !! path = disk Sample.stored !! path) /\
    (forall (Ext : Type) (w w' : World Ext),
       disk w = disk Sample.stored -> disk w' = d' ->
       now w' = now w -> io w' = io w ->
       Get Sample.digest Sample.join Sample.cache "wall" w'
       = Get Sample.digest Sample.join Sample.cache "wall" w \/
       disk w' !! filePath Sample.digest Sample.join Sample.cache "wall"
       = Some {| content := Sample.jpeg; modTime := 1000 |}).
Proof.
  apply (readers_see_all_or_nothing Sample.digest Sample.join Sample.cache
           "wall" Sample.jpeg disk_full 1000 (disk Sample.stored)).
  intros tmp [= <-]. split; [reflexivity|discriminate].
Defined.

(** The sample: the error of the sync is returned and the disk is as
    before. *)
Example writeFileAtomically_disk_full :
  CacheFiles.writeFileAtomically Sample.digest Sample.join Sample.cache "wall"
    Sample.jpeg disk_full 1000 (disk Sample.stored)
  = (Some "sync temp file: no space left on device", disk Sample.stored).
Proof.
  apply injective_projections; [reflexivity|].
  apply map_eq. intros path. cbn.
  destruct (decide (path = "cache/tmp-1")) as [->|Hne].
  - reflexivity.
  - by rewrite lookup_delete_ne, !lookup_insert_ne.
Qed.


Section Purge.
Variable Ext : Type.
Variable digest : string -> string.
Variable filepath_Join : string -> string -> string.
Variable os_ReadDir : World Ext -> string -> ReadDirResult.
Variable remove_fails : string -> bool.

Local Abbreviation World := (World Ext).
Local Abbreviation filePath := (filePath digest filepath_Join).
Local Abbreviation Get := (Get digest filepath_Join).
Local Abbreviation purge_entry := (purge_entry filepath_Join remove_fails).
Local Abbreviation PurgeExpired :=
  (PurgeExpired filepath_Join os_ReadDir remove_fails).
Local Abbreviation listed := (listed filepath_Join).

Implicit Types (c : FileCache) (key : string) (w : World) (e : DirEntry).

(** One entry: the clock, the faults and the rest of the world stay; a
    file is removed at most, and only one that is older than the deadline. *)
Lemma purge_entry_spec c deadline w e :
  now (purge_entry c deadline w e) = now w /\
  io (purge_entry c deadline w e) = io w /\
  ext (purge_entry c deadline w e) = ext w /\
  perKeyMu (purge_entry c deadline w e) = perKeyMu w /\
  forall path,
    disk (purge_entry c deadline w e) !! path = disk w !! path \/
    (disk (purge_entry c deadline w e) !! path = None /\
     IsDir e = false /\ path = filepath_Join (Dir c) (Name e) /\
     remove_fails path = false /\ stat_fault (io w) path = None /\
     exists f, disk w !! path = Some f /\ modTime f < deadline).
Proof.
  unfold CacheFiles.purge_entry, os_Remove, os_Stat.
  destruct (IsDir e) eqn:Hdir; [by repeat split; try left|].
  destruct (stat_fault (io w) _) eqn:Hfault; [by repeat split; try left|].
  destruct (disk w !! filepath_Join (Dir c) (Name e)) as [f|] eqn:Hf;
    [|by repeat split; try left].
  destruct (Z.ltb_spec (modTime f) deadline); [|by repeat split; try left].
  destruct (remove_fails _) eqn:Hrm; [by repeat split; try left|].
  repeat split; try done. intros path. cbn [disk with_disk].
  destruct (decide (path = filepath_Join (Dir c) (Name e))) as [->|Hne].
  - right. rewrite lookup_delete_eq. repeat split; try done. by exists f.
  - left. by rewrite lookup_delete_ne.
Qed.

Lemma purge_entries_spec c deadline entries : forall w,
  now (foldl (purge_entry c deadline) w entries) = now w /\
  io (foldl (purge_entry c deadline) w entries) = io w /\
  ext (foldl (purge_entry c deadline) w entries) = ext w /\
  perKeyMu (foldl (purge_entry c deadline) w entries) = perKeyMu w /\
  forall path,
    disk (foldl (purge_entry c deadline) w entries) !! path = disk w !! path \/
    (disk (foldl (purge_entry c deadline) w entries) !! path = None /\
     listed c entries path /\
     remove_fails path = false /\ stat_fault (io w) path = None /\
     exists f, disk w !! path = Some f /\ modTime f < deadline).
Proof.
  induction entries as [|e entries IH]; intros w; cbn [foldl].
  { by repeat split; try left. }
  destruct (purge_entry_spec c deadline w e) as (Hn & Hi & Hx & Hm & Hd).
  destruct (IH (purge_entry c deadline w e)) as (Hn' & Hi' & Hx' & Hm' & Hd').
  split; [congruence|]. split; [congruence|]. split; [congruence|].
  split; [congruence|]. intros path.
  destruct (Hd' path) as [E'|(Hnone & (e' & He' & Hdir & Hp) & Hrm & Hst & f & Hf & Hold)].
  - destruct (Hd path) as [E|(Hnone & Hdir & Hp & Hrm & Hst & f & Hf & Hold)].
    + left. congruence.
    + right. rewrite E'. split; [done|]. split.
      { exists e. split; [by left|done]. }
      split; [done|]. split; [done|]. by exists f.
  - destruct (Hd path) as [E|(Hnone' & _ & _ & _ & _ & f' & Hf' & _)].
    + right. split; [done|]. split.
      { exists e'. split; [by right|done]. }
      split; [done|]. split; [congruence|]. exists f. split; [congruence|done].
    + congruence.
Qed.

(** A listed file that is older than the deadline is gone afterwards. *)
Lemma purge_entries_removes c deadline entries : forall w path f,
  (forall p, remove_fails p = false) -> (forall p, stat_fault (io w) p = None) ->
  listed c entries path -> disk w !! path = Some f -> modTime f < deadline ->
  disk (foldl (purge_entry c deadline) w entries) !! path = None.
Proof.
  induction entries as [|e entries IH]; intros w path f Hrm Hst Hl Hf Hold.
  { destruct Hl as (e & He & _). by apply elem_of_nil in He. }
  cbn [foldl].
  destruct (purge_entry_spec c deadline w e) as (Hn & Hi & Hx & Hm & Hd).
  destruct (purge_entries_spec c deadline entries (purge_entry c deadline w e))
    as (_ & _ & _ & _ & Hd').
  destruct Hl as (e' & He' & Hdir & Hp).
  apply elem_of_cons in He' as [->|He'].
  - (* this entry *)
    assert (disk (purge_entry c deadline w e) !! path = None) as Hgone.
    { unfold CacheFiles.purge_entry, os_Remove, os_Stat.
      rewrite Hdir, <- Hp, Hst, Hf. cbn [modTime].
      destruct (Z.ltb_spec (modTime f) deadline); [|lia].
      rewrite Hrm. cbn [disk with_disk]. apply lookup_delete_eq. }
    destruct (Hd' path) as [E|[? _]]; [congruence|done].
  - destruct (Hd path) as [E|[Hnone _]].
    + apply (IH _ path f); try done.
      * intros p. rewrite Hi. apply Hst.
      * by exists e'.
      * congruence.
    + destruct (Hd' path) as [E|[? _]]; [congruence|done].
Qed.

(** [time.Since(t) > c.TTL] and [t.Before(time.Now().Add(-c.TTL))] agree
    on a TTL that is not the longest of all durations. *)
Lemma expired_iff c w t :
  GoInt.min_int < TTL c < GoInt.max_int ->
  TTL c < time_Since w t <-> t < now w + GoInt.wrap (- TTL c).
Proof.
  unfold time_Since, time_Sub, GoInt.wrap, GoInt.min_int, GoInt.max_int.
  intros Httl.
  destruct (Z.leb_spec (-9223372036854775808) (- TTL c)); [|lia].
  destruct (Z.leb_spec (- TTL c) 9223372036854775807); [|lia].
  cbn [andb]. lia.
Qed.

(** [PurgeExpired] and [Get] agree on what is expired, for a TTL that is
    not the longest of all durations: whatever the listing of the
    directory says and whichever calls fail, [Get] answers for every key
    after the purge what it answered before, and an artifact that was
    fresh is still there. *)
Theorem PurgeExpired_keeps_what_Get_returns c w key :
  GoInt.min_int < TTL c < GoInt.max_int ->
  Get c key (PurgeExpired c w).2 = Get c key w /\
  (fresh_artifact digest filepath_Join c key w ->
   fresh_artifact digest filepath_Join c key (PurgeExpired c w).2).
Proof.
  intros Httl. unfold CacheFiles.PurgeExpired.
  destruct (os_ReadDir w (Dir c)) as [entries| |cause]; cbn [snd]; [|done..].
  set (deadline := now w + GoInt.wrap (- TTL c)).
  destruct (purge_entries_spec c deadline entries w) as (Hn & Hi & _ & _ & Hd).
  set (w' := foldl (purge_entry c deadline) w entries) in *.
  destruct (Hd (filePath c key))
    as [E|(Hnone & _ & _ & Hst & f & Hf & Hold)].
  - split.
    + unfold Cache.Get, os_Stat, os_Open, io_ReadAll, time_Since.
      by rewrite E, Hn, Hi.
    + intros (f & Hf & Hne & Hage). exists f. split; [congruence|].
      split; [done|]. unfold time_Since in *. by rewrite Hn.
  - apply (expired_iff c w) in Hold; [|done]. split.
    + unfold Cache.Get, os_Stat. rewrite Hi, Hst, Hnone, Hf.
      destruct (_ =? 0); [done|].
      destruct (Z.ltb_spec (TTL c) (time_Since w (modTime f))); [done|lia].
    + intros (f' & Hf' & _ & Hage). assert (f' = f) as -> by congruence. lia.
Qed.

(** What [PurgeExpired] does when [os.Stat] and [os.Remove] do not fail.
    A cache directory that does not exist is no error and nothing
    changes; another error of [os.ReadDir] is returned as "read cache
    dir: ..." and nothing changes; otherwise no error is returned, and
    the files that are left are those that were there, but the regular
    files of the listing whose modification time is before
    [time.Now().Add(-c.TTL)]: no file is created or changed, and a file
    outside of the listing or of that age stays. *)
Theorem PurgeExpired_removes_the_expired c w :
  (forall p, remove_fails p = false) -> (forall p, stat_fault (io w) p = None) ->
  (os_ReadDir w (Dir c) = ReadDirNotExist -> PurgeExpired c w = (None, w)) /\
  (forall cause, os_ReadDir w (Dir c) = ReadDirError cause ->
     PurgeExpired c w = (Some ("read cache dir: " +:+ cause), w)) /\
  (forall entries, os_ReadDir w (Dir c) = ReadDirEntries entries ->
     (PurgeExpired c w).1 = None /\
     now (PurgeExpired c w).2 = now w /\ io (PurgeExpired c w).2 = io w /\
     ext (PurgeExpired c w).2 = ext w /\
     forall path f,
       disk (PurgeExpired c w).2 !! path = Some f <->
       disk w !! path = Some f /\
       ~ (listed c entries path /\ modTime f < now w + GoInt.wrap (- TTL c))).
Proof.
  intros Hrm Hst. unfold CacheFiles.PurgeExpired.
  split; [by intros ->|]. split; [by intros cause ->|].
  intros entries ->. cbn [fst snd].
  set (deadline := now w + GoInt.wrap (- TTL c)).
  destruct (purge_entries_spec c deadline entries w) as (Hn & Hi & Hx & _ & Hd).
  split; [done|]. split; [done|]. split; [done|]. split; [done|].
  intros path f. split.
  - intros Hf'.
    destruct (Hd path) as [E|[Hnone _]]; [|congruence].
    split; [congruence|]. intros [Hl Hold].
    rewrite (purge_entries_removes c deadline entries w path f) in Hf'; try done.
    congruence.
  - intros [Hf Hkeep].
    destruct (Hd path) as [E|(_ & Hl & _ & _ & f' & Hf' & Hold)]; [congruence|].
    assert (f' = f) as -> by congruence. destruct Hkeep. done.
Qed.

End Purge.

(** The cache directory of [Sample.stale]: a directory and the artifact
    of two hours ago, which the purge removes. *)
Lemma PurgeExpired_keeps_what_Get_returns_witness :
  Get Sample.digest Sample.join Sample.cache "wall"
    (PurgeExpired Sample.join listing never_fails Sample.cache Sample.stale).2
  = Get Sample.digest Sample.join Sample.cache "wall" Sample.stale /\
  (fresh_artifact Sample.digest Sample.join Sample.cache "wall" Sample.stale ->
   fresh_artifact Sample.digest Sample.join Sample.cache "wall"
     (PurgeExpired Sample.join listing never_fails Sample.cache Sample.stale).2).
Proof.
  apply (PurgeExpired_keeps_what_Get_returns nat Sample.digest Sample.join
           listing never_fails Sample.cache Sample.stale "wall").
  vm_compute. split; reflexivity.
Defined.

Lemma PurgeExpired_removes_the_expired_witness :
  (listing Sample.stale (Dir Sample.cache) = ReadDirNotExist ->
   PurgeExpired Sample.join listing never_fails Sample.cache Sample.stale
   = (None, Sample.stale)) /\
  (forall cause, listing Sample.stale (Dir Sample.cache) = ReadDirError cause ->
     PurgeExpired Sample.join listing never_fails Sample.cache Sample.stale
     = (Some ("read cache dir: " +:+ cause), Sample.stale)) /\
  (forall entries,
     listing Sample.stale (Dir Sample.cache) = ReadDirEntries entries ->
     (PurgeExpired Sample.join listing never_fails Sample.cache Sample.stale).1
     = None /\
     now (PurgeExpired Sample.join listing never_fails Sample.cache Sample.stale).2
     = now Sample.stale /\
     io (PurgeExpired Sample.join listing never_fails Sample.cache Sample.stale).2
     = io Sample.stale /\
     ext (PurgeExpired Sample.join listing never_fails Sample.cache Sample.stale).2
     = ext Sample.stale /\
     forall path f,
       disk (PurgeExpired Sample.join listing never_fails Sample.cache
               Sample.stale).2 !! path = Some f <->
       disk Sample.stale !! path = Some f /\
       ~ (listed Sample.join Sample.cache entries path /\
          modTime f < now Sample.stale + GoInt.wrap (- TTL Sample.cache))).
Proof.
  apply (PurgeExpired_removes_the_expired nat Sample.join listing never_fails
           Sample.cache Sample.stale); reflexivity.
Defined.

(** The sample: the stale artifact is gone after the purge, and the one
    of a microsecond ago stays. *)
Example PurgeExpired_sample :
  disk (PurgeExpired Sample.join listing never_fails Sample.cache Sample.stale).2
    !! "cache/wall.bin" = None /\
  disk (PurgeExpired Sample.join listing never_fails Sample.cache Sample.stored).2
    !! "cache/wall.bin" = disk Sample.stored !! "cache/wall.bin".
Proof. split; reflexivity. Qed.

(** With the longest TTL the two tests of expiry part: [time.Since]
    stops at the longest duration, which is not greater than the TTL,
    while the deadline of the purge is after a file of the year 1677.
    [Get] hits on the file, and the purge removes it. *)
Example PurgeExpired_longest_ttl :
  hit (Get Sample.digest Sample.join forever "wall" ancient) = true /\
  hit (Get Sample.digest Sample.join forever "wall"
         (PurgeExpired Sample.join listing never_fails forever ancient).2)
  = false.
Proof. split; reflexivity. Qed.

Lemma tally_insert f (ks : list Caller) i k k' :
  ks !! i = Some k ->
  (tally f (<[i := k']> ks) + (if f k then 1 else 0)
   = tally f ks + (if f k' then 1 else 0))%nat.
Proof.
  revert i. induction ks as [|k0 ks IH]; intros [|i] Hi; simplify_eq/=.
  - lia.
  - specialize (IH i Hi). lia.
Qed.

Lemma tally_length f ks : (tally f ks <= length ks)%nat.
Proof. induction ks as [|k ks IH]; simpl; [lia|]. destruct (f k); lia. Qed.

Lemma tally_short f (ks : list Caller) i k :
  ks !! i = Some k -> f k = false -> (tally f ks < length ks)%nat.
Proof.
  revert i. induction ks as [|k0 ks IH]; intros [|i] Hi Hk; simplify_eq/=.
  - rewrite Hk. pose proof (tally_length f ks). lia.
  - specialize (IH i Hi Hk). destruct (f k0); lia.
Qed.

Lemma critical_some (ks : list Caller) :
  (0 < critical ks)%nat -> exists i k, ks !! i = Some k /\ in_critical k = true.
Proof.
  induction ks as [|k ks IH]; simpl; [lia|].
  destruct (in_critical k) eqn:Hk.
  - intros _. by exists 0%nat, k.
  - intros Hpos. destruct IH as (i & k' & Hi & Hk'); [lia|].
    by exists (S i), k'.
Qed.

Lemma returned_or_not (ks : list Caller) :
  (forall i k, ks !! i = Some k -> exists r, k = Returned r) \/
  (exists i k, ks !! i = Some k /\ is_returned k = false).
Proof.
  induction ks as [|k ks [IH|(i & k' & Hi & Hk')]].
  - left. by intros i k.
  - destruct (is_returned k) eqn:Hk.
    + left. intros [|i] k' Hi; simplify_eq/=; [|by eapply IH].
      destruct k'; try done. by eexists.
    + right. by exists 0%nat, k.
  - right. by exists (S i), k'.
Qed.

Section Mutex.
Variable Ext : Type.
Variable digest : string -> string.
Variable filepath_Join : string -> string -> string.
Variable c : FileCache.
Variable key : string.
Variable generator : Generator Ext.

Local Abbreviation step := (step digest filepath_Join c key generator).
Local Abbreviation exec := (exec digest filepath_Join c key generator).
Implicit Types (w : World Ext) (p : Process Ext).

Lemma guarded_step n p p' : guarded n p -> step p p' -> guarded n p'.
Proof.
  intros (Hlen & Hcrit & Hinv) Hstep.
  inversion Hstep as
    [p0 i Hc Hk|p0 i Hc Hk|p0 i Hc Hk Hl|p0 i Hc Hk|p0 i out x Hc Hk Hg
    |p0 i Hc Hk Hg|p0 i b' Hc Hk|p0 i r Hc Hk|p0 dt Hc Hdt]; subst p0 p';
    unfold guarded; cbn [world locked callers invocations crashed];
    rewrite Hc in Hinv; rewrite ?length_insert.
  - (* the fast path *)
    set (k := fast_path (Get digest filepath_Join c key (world p))).
    pose proof (critical_insert _ _ _ k Hk) as Hci.
    pose proof (tally_insert spent _ _ _ k Hk) as Hti.
    assert (in_critical k = false) as E.
    { unfold k, fast_path. by repeat case_match. }
    rewrite E in Hci. simpl in Hci, Hti.
    split; [done|]. split; [lia|].
    destruct (spent k); lia.
  - pose proof (critical_insert _ _ _ AtLock Hk) as Hci.
    pose proof (tally_insert spent _ _ _ AtLock Hk) as Hti.
    simpl in Hci, Hti. split; [done|]. split; [lia|lia].
  - pose proof (critical_insert _ _ _ AtRecheck Hk) as Hci.
    pose proof (tally_insert spent _ _ _ AtRecheck Hk) as Hti.
    rewrite Hl in Hcrit. simpl in Hci, Hti. split; [done|]. split; [lia|lia].
  - (* the second look, under the mutex *)
    set (k := recheck (Get digest filepath_Join c key (world p))).
    pose proof (critical_insert _ _ _ k Hk) as Hci.
    pose proof (tally_insert spent _ _ _ k Hk) as Hti.
    assert (in_critical k = true) as E.
    { unfold k, recheck. by repeat case_match. }
    rewrite E in Hci. simpl in Hci, Hti.
    split; [done|]. split; [lia|].
    destruct (spent k); lia.
  - pose proof (critical_insert _ _ _ (generated out) Hk) as Hci.
    pose proof (tally_insert spent _ _ _ (generated out) Hk) as Hti.
    assert (in_critical (generated out) = true /\ spent (generated out) = true)
      as [E1 E2] by (by destruct out).
    rewrite E1 in Hci. rewrite E2 in Hti. simpl in Hci, Hti.
    split; [done|]. split; lia.
  - split; [done|]. split; [done|]. split; [lia|by exists i].
  - set (e := (Cache.writeFileAtomically digest filepath_Join c key b'
                 (world p)).1).
    pose proof (critical_insert _ _ _ (written b' e) Hk) as Hci.
    pose proof (tally_insert spent _ _ _ (written b' e) Hk) as Hti.
    assert (in_critical (written b' e) = true /\ spent (written b' e) = true)
      as [E1 E2] by (by destruct e).
    rewrite E1 in Hci. rewrite E2 in Hti. simpl in Hci, Hti.
    split; [done|]. split; lia.
  - pose proof (critical_insert _ _ _ (Returned r) Hk) as Hci.
    pose proof (tally_insert spent _ _ _ (Returned r) Hk) as Hti.
    simpl in Hci, Hti.
    split; [done|]. split; [|lia].
    destruct (locked p); lia.
  - done.
Qed.

Lemma guarded_enter n w0 : guarded n (enter n w0).
Proof.
  split; [apply length_replicate|]. split; [apply critical_replicate|].
  simpl. lia.
Qed.

Lemma guarded_steps n w0 p : rtc step (enter n w0) p -> guarded n p.
Proof.
  revert p. apply rtc_ind_r; [apply guarded_enter|].
  intros p p' _ Hstep Hg. by apply (guarded_step n p).
Qed.

(** The mutex of a key, for any number of concurrent callers of
    [GetOrCreate], any generator (failing, panicking or returning no
    bytes), any disk and any interleaving: the mutex is held exactly
    when one caller is between [m.Lock()] and the deferred
    [m.Unlock()], and by no two at once; the generator has been invoked
    at most once for each caller; when all callers have returned the
    mutex is free; and while the process has not panicked and some
    caller has not returned, some caller can make its next statement
    (none waits for a mutex that is never released). *)
Theorem mutex_is_held_by_one_caller n w0 p :
  rtc step (enter n w0) p ->
  critical (callers p) = (if locked p then 1 else 0)%nat /\
  (invocations p <= n)%nat /\
  (all_returned p -> locked p = false) /\
  (crashed p = false -> ~ all_returned p ->
   exists i p', exec (Run i) p = Some p').
Proof.
  intros Hsteps. destruct (guarded_steps n w0 p Hsteps) as (Hlen & Hcrit & Hinv).
  split; [done|]. split; [|split].
  - pose proof (tally_length spent (callers p)).
    destruct (crashed p).
    + destruct Hinv as [Hle [i Hi]].
      pose proof (tally_short spent _ _ _ Hi eq_refl). lia.
    + lia.
  - intros Hall. destruct (locked p); [|done].
    destruct (critical_some (callers p)) as (i & k & Hi & Hk); [lia|].
    destruct (Hall i k Hi) as [r ->]. done.
  - intros Hc Hnot.
    assert (Hmove : forall i k, callers p !! i = Some k ->
              is_returned k = false -> (k = AtLock -> locked p = false) ->
              exists p', exec (Run i) p = Some p').
    { intros i k Hi Hk Hl. unfold Cache.exec. rewrite Hc, Hi.
      destruct k; try done; try by eexists.
      - rewrite Hl by done. by eexists.
      - destruct (generator _) as [[out x]|]; by eexists. }
    destruct (locked p) eqn:Hl.
    + destruct (critical_some (callers p)) as (i & k & Hi & Hk); [lia|].
      exists i. apply (Hmove i k Hi); by destruct k.
    + destruct (returned_or_not (callers p)) as [Hall|(i & k & Hi & Hk)].
      { by destruct Hnot. }
      exists i. by apply (Hmove i k Hi).
Qed.

End Mutex.

Lemma mutex_is_held_by_one_caller_witness :
  exists p,
    run Sample.digest Sample.join Sample.cache "wall"
      (Sample.generator_of (inl [])) (Sample.one_by_one 2)
      (enter 2 (Sample.world 0 0)) = Some p /\
    critical (callers p) = (if locked p then 1 else 0)%nat /\
    (invocations p <= 2)%nat /\
    (all_returned p -> locked p = false) /\
    (crashed p = false -> ~ all_returned p ->
     exists i p',
       exec Sample.digest Sample.join Sample.cache "wall"
         (Sample.generator_of (inl [])) (Run i) p = Some p').
Proof.
  eexists. split; [vm_compute; reflexivity|].
  apply (mutex_is_held_by_one_caller nat Sample.digest Sample.join
           Sample.cache "wall" (Sample.generator_of (inl [])) 2
           (Sample.world 0 0)).
  apply (run_steps _ _ _ _ _ _ (Sample.one_by_one 2)). vm_compute. reflexivity.
Defined.

End CacheFilesFacts.

(** ** The wall, tile by tile *)

Module LayoutFacts.
Import Grid GoIntFacts GridFacts Layout Handler.
Local Open Scope Z_scope.

Section Paste.
Variable Image : Type.
Variable Canvas : Type.
Variable imaging_Paste : Canvas -> Image -> Z -> Z -> Canvas.

Local Abbreviation paste_loop := (paste_loop Image Canvas imaging_Paste).

(** The loop pastes the images of its cells in their order, and needs a
    grid of one column at least for that. *)
Lemma paste_loop_pasted grid images n : forall i combined,
  Cols grid <> 0 ->
  paste_loop grid images n i combined
  = Some (pasted imaging_Paste combined (placed grid images n i)).
Proof.
  induction n as [|n IH]; intros i combined Hc; cbn [Handler.paste_loop placed].
  { done. }
  destruct (images !! i) as [img|]; [|by apply IH].
  destruct (Z.eqb_spec (Cols grid) 0); [done|].
  rewrite IH by done. done.
Qed.

(** A cell of a grid whose tiles fit the canvas. *)
Lemma cell_spec W H grid i :
  0 < Cols grid -> 0 < Rows grid ->
  0 <= PicWidth grid -> 0 <= PicHeight grid ->
  Cols grid * PicWidth grid <= W -> Rows grid * PicHeight grid <= H ->
  W < 2 ^ 62 -> H < 2 ^ 62 -> Cols grid * Rows grid < 2 ^ 62 ->
  0 <= i < Cols grid * Rows grid ->
  cell grid i
  = (i mod Cols grid * PicWidth grid, i / Cols grid * PicHeight grid) /\
  0 <= i mod Cols grid < Cols grid /\ 0 <= i / Cols grid < Rows grid /\
  0 <= i mod Cols grid * PicWidth grid /\
  i mod Cols grid * PicWidth grid + PicWidth grid <= W /\
  0 <= i / Cols grid * PicHeight grid /\
  i / Cols grid * PicHeight grid + PicHeight grid <= H.
Proof.
  intros Hc Hr Hw Hh HW HH HW' HH' Hcr Hi.
  pose proof (Z.mod_pos_bound i (Cols grid) Hc) as Hmod.
  assert (Hdiv : 0 <= i / Cols grid < Rows grid).
  { split; [apply Z.div_pos; lia|]. apply Z.div_lt_upper_bound; lia. }
  pose proof (Z.mul_le_mono_nonneg_l 1 (Rows grid) (Cols grid)
                ltac:(lia) ltac:(lia)) as Hc'.
  pose proof (Z.mul_le_mono_nonneg_r 1 (Cols grid) (Rows grid)
                ltac:(lia) ltac:(lia)) as Hr'.
  pose proof (Z.mul_le_mono_nonneg_r (i mod Cols grid + 1) (Cols grid)
                (PicWidth grid) Hw ltac:(lia)) as Hx.
  pose proof (Z.mul_le_mono_nonneg_r (i / Cols grid + 1) (Rows grid)
                (PicHeight grid) Hh ltac:(lia)) as Hy.
  pose proof (Z.mul_nonneg_nonneg (i mod Cols grid) (PicWidth grid)
                ltac:(lia) Hw) as Hx0.
  pose proof (Z.mul_nonneg_nonneg (i / Cols grid) (PicHeight grid)
                ltac:(lia) Hh) as Hy0.
  rewrite Z.mul_add_distr_r in Hx, Hy.
  split; [|repeat split; lia]. unfold cell.
  rewrite Z.rem_mod_nonneg, Z.quot_div_nonneg by lia.
  rewrite (wrap_small (i mod _)) by lia.
  rewrite (wrap_small (i / _)) by lia.
  rewrite !mul_small; [done|lia|lia].
Qed.

End Paste.

Section Tiles.
Context {F : Float64} {L : Float64Laws F}.
Variable Image : Type.
Variable Canvas : Type.
Variable imaging_Paste : Canvas -> Image -> Z -> Z -> Canvas.
Variables W H p : Z.
Hypothesis HW : 1 <= W.
Hypothesis HH : 1 <= H.
Hypothesis Hp : 1 <= p < 2 ^ 53.
Hypothesis HWH : W * H < 2 ^ 53.

Local Abbreviation paste_loop := (paste_loop Image Canvas imaging_Paste).

(** The tiles of the wall, on a canvas of less than 2^53 pixels and for
    less than 2^53 pictures, with numbers that satisfy [Float64Laws].
    The loop of the closure over the cells of the grid of
    [calculateOptimalGrid] does not panic and pastes the images of its
    map in the order of their cells; the cell [i] is at
    [(i mod Cols) * PicWidth] and [(i / Cols) * PicHeight] (no [int]
    overflows), its tile lies within the canvas, and the tiles of two
    cells do not overlap: the later one is in a lower row, or in the
    same row further to the right. *)
Theorem tiles_lie_side_by_side :
  exists g, calculateOptimalGrid W H p = Some g /\
    (forall images combined,
       paste_loop g images (Z.to_nat (GoInt.mul (Cols g) (Rows g))) 0 combined
       = Some (pasted imaging_Paste combined
                 (placed g images (Z.to_nat (Cols g * Rows g)) 0))) /\
    (forall i, 0 <= i < Cols g * Rows g ->
       cell g i = (i mod Cols g * PicWidth g, i / Cols g * PicHeight g) /\
       0 <= (cell g i).1 /\ (cell g i).1 + PicWidth g <= W /\
       0 <= (cell g i).2 /\ (cell g i).2 + PicHeight g <= H) /\
    (forall i j, 0 <= i < j -> j < Cols g * Rows g ->
       (cell g i).2 + PicHeight g <= (cell g j).2 \/
       ((cell g i).2 = (cell g j).2 /\
        (cell g i).1 + PicWidth g <= (cell g j).1)).
Proof.
  destruct (calculateOptimalGrid_scanned W H p HW HH Hp HWH) as (s & -> & _ & Hs).
  exists (best s). split; [done|].
  destruct Hs as [->|(c0 & Hc0 & Hcand & Hpos & _)].
  { split; [done|]. cbn. split; intros; lia. }
  destruct (candidate_facts W H p HW HH Hp c0 _ ltac:(lia) Hcand)
    as (HC & HR & Hw & Hh & HCw & HRh & _).
  pose proof (rows_for_bounds p Hp c0 ltac:(lia)) as Hr.
  pose proof (canvas_bounds W H HW HH HWH) as [HW' HH'].
  set (g := best s) in *.
  assert (Hc : 0 < Cols g) by lia.
  assert (Hrows : 0 < Rows g) by lia.
  pose proof (GridRoom.rows_for_slots p c0 ltac:(lia) ltac:(lia)) as Hslots.
  assert (Hcr : Cols g * Rows g < 2 ^ 62) by (rewrite HC, HR; lia).
  assert (Hcell : forall i, 0 <= i < Cols g * Rows g ->
            cell g i = (i mod Cols g * PicWidth g, i / Cols g * PicHeight g) /\
            0 <= i mod Cols g < Cols g /\ 0 <= i / Cols g < Rows g /\
            0 <= i mod Cols g * PicWidth g /\
            i mod Cols g * PicWidth g + PicWidth g <= W /\
            0 <= i / Cols g * PicHeight g /\
            i / Cols g * PicHeight g + PicHeight g <= H).
  { intros i Hi. apply (cell_spec W H); lia. }
  split; [|split].
  - intros images combined. rewrite mul_small by lia.
    apply paste_loop_pasted. lia.
  - intros i Hi. destruct (Hcell i Hi) as (-> & _ & _ & ? & ? & ? & ?).
    cbn [fst snd]. done.
  - intros i j Hij Hj.
    destruct (Hcell i ltac:(lia)) as (-> & Hmi & Hdi & _).
    destruct (Hcell j ltac:(lia)) as (-> & Hmj & Hdj & _). cbn [fst snd].
    assert (Hle : i / Cols g <= j / Cols g) by (apply Z.div_le_mono; lia).
    destruct (Z.eq_dec (i / Cols g) (j / Cols g)) as [E|Hne].
    + right. rewrite E. split; [done|].
      pose proof (Z.div_mod i (Cols g) ltac:(lia)) as Ei.
      pose proof (Z.div_mod j (Cols g) ltac:(lia)) as Ej.
      rewrite E in Ei.
      pose proof (Z.mul_le_mono_nonneg_r (i mod Cols g + 1) (j mod Cols g)
                    (PicWidth g) Hw ltac:(lia)) as Hx.
      rewrite Z.mul_add_distr_r in Hx. lia.
    + left.
      pose proof (Z.mul_le_mono_nonneg_r (i / Cols g + 1) (j / Cols g)
                    (PicHeight g) Hh ltac:(lia)) as Hy.
      rewrite Z.mul_add_distr_r in Hy. lia.
Qed.

End Tiles.

Lemma tiles_lie_side_by_side_witness :
  exists g, calculateOptimalGrid (F := exact) 1024 2048 6 = Some g /\
    (forall (images : gmap Z string) (combined : list (string * Z * Z)),
       Handler.paste_loop string (list (string * Z * Z)) SampleWall.paste g images
         (Z.to_nat (GoInt.mul (Cols g) (Rows g))) 0 combined
       = Some (pasted SampleWall.paste combined
                 (placed g images (Z.to_nat (Cols g * Rows g)) 0))) /\
    (forall i, 0 <= i < Cols g * Rows g ->
       cell g i = (i mod Cols g * PicWidth g, i / Cols g * PicHeight g) /\
       0 <= (cell g i).1 /\ (cell g i).1 + PicWidth g <= 1024 /\
       0 <= (cell g i).2 /\ (cell g i).2 + PicHeight g <= 2048) /\
    (forall i j, 0 <= i < j -> j < Cols g * Rows g ->
       (cell g i).2 + PicHeight g <= (cell g j).2 \/
       ((cell g i).2 = (cell g j).2 /\
        (cell g i).1 + PicWidth g <= (cell g j).1)).
Proof.
  apply (tiles_lie_side_by_side (F := exact) (L := ExactFacts.exact_laws)
           string (list (string * Z * Z)) SampleWall.paste 1024 2048 6); lia.
Defined.

(** The tiles of the cells [k .. k + n - 1]. *)
Lemma elem_of_placed {Image} grid (images : gmap Z Image) n : forall k img pos,
  (img, pos) ∈ placed grid images n k <->
  exists i, k <= i < k + Z.of_nat n /\ images !! i = Some img /\
            pos = cell grid i.
Proof.
  induction n as [|n IH]; intros k img pos; cbn [placed].
  { split; [by intros ?%elem_of_nil|]. intros (i & ? & _). lia. }
  destruct (images !! k) as [img0|] eqn:Hk.
  - rewrite elem_of_cons, IH. split.
    + intros [[= -> ->]|(i & Hi & Him & ->)].
      * exists k. split; [lia|done].
      * exists i. split; [lia|done].
    + intros (i & Hi & Him & ->).
      destruct (Z.eq_dec i k) as [->|Hne].
      * left. congruence.
      * right. exists i. split; [lia|done].
  - rewrite IH. split.
    + intros (i & Hi & Him & ->). exists i. split; [lia|done].
    + intros (i & Hi & Him & ->).
      destruct (Z.eq_dec i k) as [->|Hne]; [congruence|].
      exists i. split; [lia|done].
Qed.

Section Wall.
Context {F : Float64} {L : Float64Laws F}.
Variable Image : Type.
Variable fetch : Pool.ImageJob -> Image + string.
Variable imaging_Fill : Image -> Z -> Z -> Image.
Variables W H : Z.
Variable pictureUUIDs : list string.
Hypothesis HW : 1 <= W.
Hypothesis HH : 1 <= H.
Hypothesis Hp : 1 <= Z.of_nat (length pictureUUIDs) < 2 ^ 53.
Hypothesis HWH : W * H < 2 ^ 53.

(** From the pictures to the wall, on a canvas of less than 2^53 pixels
    and for less than 2^53 pictures, with numbers that satisfy
    [Float64Laws]: when the grid is not the zero value, the loop of the
    closure pastes a tile for every picture whose download succeeded,
    the resized image at the cell of the picture's index, and no other
    tile; the grid leaves no picture without a cell.  When the grid is
    the zero value nothing is pasted. *)
Theorem every_picture_has_its_tile :
  exists g,
    calculateOptimalGrid W H (Z.of_nat (length pictureUUIDs)) = Some g /\
    (Cols g <> 0 ->
     forall resized pos,
       (resized, pos)
       ∈ placed g
           (Pool.downloadImagesWithWorkerPool fetch imaging_Fill pictureUUIDs g)
           (Z.to_nat (GoInt.mul (Cols g) (Rows g))) 0 <->
       exists n uuid img,
         pictureUUIDs !! n = Some uuid /\
         fetch (Pool.job_for g (Z.of_nat n) uuid) = inl img /\
         resized = imaging_Fill img (PicWidth g) (PicHeight g) /\
         pos = cell g (Z.of_nat n)) /\
    (Cols g = 0 ->
     placed g
       (Pool.downloadImagesWithWorkerPool fetch imaging_Fill pictureUUIDs g)
       (Z.to_nat (GoInt.mul (Cols g) (Rows g))) 0 = []).
Proof.
  set (p := Z.of_nat (length pictureUUIDs)) in *.
  destruct (calculateOptimalGrid_scanned W H p HW HH Hp HWH) as (s & -> & _ & Hs).
  exists (best s). split; [done|].
  destruct Hs as [->|(c0 & Hc0 & Hcand & _)].
  { split; [done|]. done. }
  destruct (candidate_facts W H p HW HH Hp c0 _ ltac:(lia) Hcand)
    as (HC & HR & _).
  pose proof (GridRoom.rows_for_slots p c0 ltac:(lia) ltac:(lia)) as Hslots.
  set (g := best s) in *. split; [|lia].
  intros _ resized pos.
  assert (Hmul : GoInt.mul (Cols g) (Rows g) = c0 * rows_for p c0).
  { rewrite HC, HR. apply mul_small. lia. }
  rewrite elem_of_placed, Hmul. split.
  - intros (i & Hi & Him & ->).
    apply PoolFacts.pool_map_lookup in Him as (n & uuid & -> & Hu & _ & Ho).
    unfold Pool.outcome_at in Ho.
    destruct (fetch _) as [img|] eqn:Hf; [|done].
    exists n, uuid, img. by simplify_eq.
  - intros (n & uuid & img & Hu & Hf & -> & ->).
    pose proof (lookup_lt_Some _ _ _ Hu) as Hn.
    exists (Z.of_nat n). split; [lia|]. split; [|done].
    apply PoolFacts.pool_map_lookup. exists n, uuid.
    split; [done|]. split; [done|]. split.
    + unfold Pool.slots. rewrite Hmul. lia.
    + unfold Pool.outcome_at. by rewrite Hf.
Qed.

End Wall.

Lemma every_picture_has_its_tile_witness :
  exists g,
    calculateOptimalGrid (F := exact) 1024 2048
      (Z.of_nat (length Sample.pictures)) = Some g /\
    (Cols g <> 0 ->
     forall resized pos,
       (resized, pos)
       ∈ placed g
           (Pool.downloadImagesWithWorkerPool Sample.fetch Sample.fill
              Sample.pictures g)
           (Z.to_nat (GoInt.mul (Cols g) (Rows g))) 0 <->
       exists n uuid img,
         Sample.pictures !! n = Some uuid /\
         Sample.fetch (Pool.job_for g (Z.of_nat n) uuid) = inl img /\
         resized = Sample.fill img (PicWidth g) (PicHeight g) /\
         pos = cell g (Z.of_nat n)) /\
    (Cols g = 0 ->
     placed g
       (Pool.downloadImagesWithWorkerPool Sample.fetch Sample.fill
          Sample.pictures g)
       (Z.to_nat (GoInt.mul (Cols g) (Rows g))) 0 = []).
Proof.
  apply (every_picture_has_its_tile (F := exact) (L := ExactFacts.exact_laws)
           string Sample.fetch Sample.fill 1024 2048 Sample.pictures);
    simpl; lia.
Defined.

End LayoutFacts.

(** ** The route handler: it always answers, and a miss is followed by hits *)

Module HandlerUse.
Import Handler.
Local Open Scope Z_scope.

Section Wall.
Context {F : Float64} {L : Float64Laws F}.
Variable Image : Type.
Variable Canvas : Type.
Variable imaging_New : Z -> Z -> Canvas.
Variable imaging_Paste : Canvas -> Image -> Z -> Z -> Canvas.
Variable imaging_Fill : Image -> Z -> Z -> Image.
Variable jpeg_Encode : Canvas -> list Byte.byte + string.
Variable digest : string -> string.
Variable filepath_Join : string -> string -> string.

Local Abbreviation wall_generator :=
  (wall_generator Image Canvas imaging_New imaging_Paste imaging_Fill jpeg_Encode).
Local Abbreviation handle :=
  (handle Image Canvas imaging_New imaging_Paste imaging_Fill jpeg_Encode
     digest filepath_Join).
Local Abbreviation GetOrCreate :=
  (Cache.GetOrCreate digest filepath_Join cache "wall" wall_generator).
Implicit Types (o : Outside Image) (w : Cache.World (Outside Image)).

(** The loop over the cells of a grid does not divide by zero: a grid
    without a column has no cell. *)
Lemma paste_loop_returns grid images combined :
  is_Some (paste_loop Image Canvas imaging_Paste grid images
             (Z.to_nat (GoInt.mul (Grid.Cols grid) (Grid.Rows grid)))
             0 combined).
Proof.
  destruct (Z.eq_dec (Grid.Cols grid) 0) as [E|Hne].
  - rewrite E. change (GoInt.mul 0 (Grid.Rows grid)) with 0. by eexists.
  - rewrite LayoutFacts.paste_loop_pasted by done. by eexists.
Qed.

(** The closure returns for every answer of the API. *)
Lemma wall_generator_returns o :
  (forall statusCode Data, api o = ApiAnswered statusCode Data ->
     Z.of_nat (length Data) < 2 ^ 53) ->
  exists out, wall_generator o = Some (out, o).
Proof.
  intros Hlen. unfold Handler.wall_generator.
  destruct (api o) as [cause|code Data] eqn:Hapi; [by eexists|].
  destruct (negb (code =? 200)); [by eexists|].
  specialize (Hlen _ _ eq_refl).
  destruct Data as [|d Data]; [by eexists|].
  set (uuids := Picture <$> d :: Data) in *.
  replace (length uuids =? 0)%nat with false by done.
  assert (Z.of_nat (length uuids) = Z.of_nat (length (d :: Data))) as Hl.
  { unfold uuids. by rewrite length_fmap. }
  destruct (GridFacts.calculateOptimalGrid_scanned 1024 2048
              (Z.of_nat (length uuids))) as (s & -> & _);
    [lia|lia|simpl in *; lia|lia|].
  cbn [mbind option_bind].
  destruct (paste_loop_returns (Grid.best s)
              (Pool.downloadImagesWithWorkerPool (fetch o) imaging_Fill uuids
                 (Grid.best s))
              (imaging_New 1024 2048)) as [combined ->].
  cbn [mbind option_bind].
  destruct (jpeg_Encode combined); by eexists.
Qed.

Lemma status_of_respond r :
  status (respond r) = 200 /\ Cache.err r = None \/
  (status (respond r) = 404 \/ status (respond r) = 500) /\
  is_Some (Cache.err r).
Proof.
  unfold respond. destruct (Cache.err r) as [e|]; [|by left].
  right. split; [|by eexists]. destruct (strings_Contains e _); [by left|by right].
Qed.

(** The handler of [GET /] does not panic: for numbers that satisfy
    [Float64Laws] and a list of less than 2^53 pictures, whatever
    the API, the asset server, the disk and the encoder answer, the
    closure returns (no division by zero is reached: a grid without a
    column has no cell), and the handler answers with the status 200,
    404 or 500. *)
Theorem handle_always_answers w :
  (forall statusCode Data, api (Cache.ext w) = ApiAnswered statusCode Data ->
     Z.of_nat (length Data) < 2 ^ 53) ->
  exists resp w',
    handle w = Some (resp, w') /\
    (status resp = 200 \/ status resp = 404 \/ status resp = 500) /\
    Cache.ext w' = Cache.ext w.
Proof.
  intros Hlen. destruct (wall_generator_returns _ Hlen) as [out Hgen].
  unfold Handler.handle, Cache.GetOrCreate.
  assert (Hst : forall r, status (respond r) = 200 \/
                  status (respond r) = 404 \/ status (respond r) = 500).
  { intros r. destruct (status_of_respond r) as [[? _]|[[?|?] _]]; auto. }
  destruct (Cache.err (Cache.Get _ _ _ _ w)); [by eexists _, _|].
  destruct (Cache.hit (Cache.Get _ _ _ _ w)); [by eexists _, _|].
  destruct (Cache.err (Cache.Get _ _ _ _ (Cache.getPerKeyMutex "wall" w)));
    [by eexists _, _|].
  destruct (Cache.hit (Cache.Get _ _ _ _ (Cache.getPerKeyMutex "wall" w)));
    [by eexists _, _|].
  unfold Cache.regenerate. cbn [Cache.ext Cache.getPerKeyMutex].
  rewrite Hgen. cbn [mbind option_bind].
  destruct out as [buf|e]; [|by eexists _, _].
  unfold Cache.writeFileAtomically.
  destruct (Cache.write_fault _); by eexists _, _.
Qed.

(** After a response with the status 200, bytes that are not empty and
    [X-Cache: MISS], every request of the next 24 hours is answered with
    the same bytes and [X-Cache: HIT], as long as the disk stays as it
    is and reads do not fail, whatever the API and the asset server
    would answer: they are not asked. *)
Theorem a_miss_is_followed_by_hits w resp w1 buf :
  handle w = Some (resp, w1) ->
  status resp = 200 -> body resp = Raw buf -> buf <> [] ->
  ("X-Cache", "MISS") ∈ headers resp ->
  forall w2,
    Cache.disk w2 = Cache.disk w1 -> Cache.io w2 = Cache.no_faults ->
    Cache.now w <= Cache.now w2 <= Cache.now w + 24 * 3600 * 1000000000 ->
    handle w2
    = Some ({| status := 200;
               headers := [("Content-Type", "image/jpeg");
                           ("Content-Length", fmt_d (Z.of_nat (length buf)));
                           ("X-Cache", "HIT")];
               body := Raw buf |}, w2).
Proof.
  unfold Handler.handle. intros Hh Hst Hbody Hbuf Hmiss w2 Hd Hio Hnow.
  destruct (GetOrCreate w) as [[r w1']|] eqn:Hgoc; [|done].
  cbn [mbind option_bind] in Hh. injection Hh as <- <-.
  assert (r = Cache.fresh buf) as ->.
  { unfold respond in *. destruct r as [data hit err]; cbn in *.
    destruct err as [e|].
    { destruct (strings_Contains e _); done. }
    cbn in *. injection Hbody as ->.
    destruct hit.
    - apply list_elem_of_In in Hmiss. simpl in Hmiss.
      destruct Hmiss as [?|[?|[?|[]]]]; done.
    - done. }
  destruct (CacheUse.fresh_then_cached _ digest filepath_Join cache "wall"
              wall_generator w buf w1' Hgoc Hbuf) as [_ Hlater].
  destruct (Hlater wall_generator w2 Hd Hio ltac:(lia)) as [Hhit _].
  rewrite Hhit by (cbn; lia). done.
Qed.

End Wall.

Import SampleWall.

Lemma handle_always_answers_witness :
  exists resp w',
    handle (F := exact) string (list (string * Z * Z)) blank paste
      Sample.fill encode Sample.digest Sample.join
      (site (ApiAnswered 200 [item "a"; item "b"; item "c"]))
    = Some (resp, w') /\
    (status resp = 200 \/ status resp = 404 \/ status resp = 500) /\
    Cache.ext w' = Cache.ext (site (ApiAnswered 200 [item "a"; item "b"; item "c"])).
Proof.
  apply (handle_always_answers (F := exact) (L := ExactFacts.exact_laws)
           string (list (string * Z * Z)) blank paste Sample.fill encode
           Sample.digest Sample.join
           (site (ApiAnswered 200 [item "a"; item "b"; item "c"]))).
  intros code Data [= <- <-]. simpl. lia.
Defined.

Lemma a_miss_is_followed_by_hits_witness :
  exists resp w1 buf,
    handle (F := exact) string (list (string * Z * Z)) blank paste
      Sample.fill encode Sample.digest Sample.join
      (site (ApiAnswered 200 [item "a"; item "b"; item "c"]))
    = Some (resp, w1) /\ body resp = Raw buf /\
    forall w2,
      Cache.disk w2 = Cache.disk w1 -> Cache.io w2 = Cache.no_faults ->
      Cache.now (site (ApiAnswered 200 [item "a"; item "b"; item "c"]))
      <= Cache.now w2
      <= Cache.now (site (ApiAnswered 200 [item "a"; item "b"; item "c"]))
         + 24 * 3600 * 1000000000 ->
      handle (F := exact) string (list (string * Z * Z)) blank paste
        Sample.fill encode Sample.digest Sample.join w2
      = Some ({| status := 200;
                 headers := [("Content-Type", "image/jpeg");
                             ("Content-Length", fmt_d (Z.of_nat (length buf)));
                             ("X-Cache", "HIT")];
                 body := Raw buf |}, w2).
Proof.
  eexists _, _, _. split; [vm_compute; reflexivity|]. split; [reflexivity|].
  eapply (a_miss_is_followed_by_hits (F := exact)
            string (list (string * Z * Z)) blank paste Sample.fill encode
            Sample.digest Sample.join
            (site (ApiAnswered 200 [item "a"; item "b"; item "c"]))).
  - vm_compute. reflexivity.
  - reflexivity.
  - reflexivity.
  - discriminate.
  - apply list_elem_of_In. simpl. auto.
Defined.

End HandlerUse.

(** ** The download of a picture, and the first version of the handler *)

Module RemoteFacts.
Import Pool PoolFacts Remote.
Local Open Scope Z_scope.

Section Assets.
Variable Image : Type.
Variable Body : Type.
Variable client_Get : Z -> string -> HttpReply Body.
Variable image_Decode : Body -> Image + string.
Variable imaging_Fill : Image -> Z -> Z -> Image.

Local Abbreviation openRemoteImageWithTimeout :=
  (openRemoteImageWithTimeout Image Body client_Get image_Decode).
Local Abbreviation worker_fetch :=
  (worker_fetch Image Body client_Get image_Decode).

(** An image is returned for a response with the status 200 and a body
    that decodes, and for no other. *)
Lemma openRemoteImageWithTimeout_image url timeout img :
  openRemoteImageWithTimeout url timeout = inl img <->
  exists body, client_Get timeout url = HttpResponse 200 body /\
               image_Decode body = inl img.
Proof.
  unfold Remote.openRemoteImageWithTimeout.
  destruct (client_Get timeout url) as [e|code body].
  { split; [done|]. by intros (? & ? & _). }
  destruct (Z.eqb_spec code 200) as [->|Hne]; simpl.
  - destruct (image_Decode body) as [img'|e] eqn:Hd.
    + split.
      * intros [= ->]. by exists body.
      * intros (b & [= <-] & Hb). congruence.
    + split; [done|]. intros (b & [= <-] & Hb). congruence.
  - split; [done|]. intros (b & [= ? _] & _). done.
Qed.

(** The map of the pool, when its workers download with
    [openRemoteImageWithTimeout]: it holds at the index [n] the image of
    the [n]-th picture, resized to the tile, if and only if [n] is below
    the number of cells, the asset server answered the request for
    "https://api.imreally.gay/assets/<uuid>" with the status 200, and
    the body decoded; a transport error, another status and a body that
    does not decode leave no entry. *)
Theorem pool_holds_the_assets_that_decode pictureUUIDs grid z resized :
  downloadImagesWithWorkerPool worker_fetch imaging_Fill pictureUUIDs grid !! z
  = Some resized <->
  exists n uuid body img,
    z = Z.of_nat n /\ pictureUUIDs !! n = Some uuid /\ z < slots grid /\
    client_Get 30000000000 ("https://api.imreally.gay/assets/" +:+ uuid)
    = HttpResponse 200 body /\
    image_Decode body = inl img /\
    resized = imaging_Fill img (Grid.PicWidth grid) (Grid.PicHeight grid).
Proof.
  rewrite pool_map_lookup. unfold outcome_at, Remote.worker_fetch.
  cbn [URL job_for]. split.
  - intros (n & uuid & -> & Hu & Hlt & Ho).
    destruct (openRemoteImageWithTimeout _ _) as [img|e] eqn:Hf; [|done].
    apply openRemoteImageWithTimeout_image in Hf as (body & Hget & Hdec).
    exists n, uuid, body, img. by simplify_eq.
  - intros (n & uuid & body & img & -> & Hu & Hlt & Hget & Hdec & ->).
    exists n, uuid. split; [done|]. split; [done|]. split; [done|].
    assert (openRemoteImageWithTimeout
              ("https://api.imreally.gay/assets/" +:+ uuid) (30 * 1000000000)
            = inl img) as ->; [|done].
    apply openRemoteImageWithTimeout_image. by exists body.
Qed.

End Assets.
End RemoteFacts.

Module LegacyFacts.
Import Handler Legacy Layout Remote.
Local Open Scope Z_scope.

Section TwoVersions.
Context {F : Float64}.
Variable Image : Type.
Variable Canvas : Type.
Variable Body : Type.
(** The second version and its pool import [github.com/kovidgoyal/imaging]. *)
Variable imaging_New : Z -> Z -> Canvas.
Variable imaging_Paste : Canvas -> Image -> Z -> Z -> Canvas.
Variable imaging_Fill : Image -> Z -> Z -> Image.
Variable image_Decode : Body -> Image + string.
(** The first version imports [github.com/disintegration/imaging], and
    [image.Decode] knows the formats that this library registers. *)
Variable disintegration_New : Z -> Z -> Canvas.
Variable disintegration_Paste : Canvas -> Image -> Z -> Z -> Canvas.
Variable disintegration_Fill : Image -> Z -> Z -> Image.
Variable disintegration_Decode : Body -> Image + string.
(** [image/jpeg] and [net/http] are those of the standard library in both. *)
Variable jpeg_Encode : Canvas -> list Byte.byte + string.
Variable client_Get : Z -> string -> HttpReply Body.

Local Abbreviation render :=
  (render Image Canvas Body imaging_Paste imaging_Fill client_Get image_Decode).
Local Abbreviation rendered :=
  (rendered Image Body imaging_Fill client_Get image_Decode).
Local Abbreviation worker_fetch :=
  (worker_fetch Image Body client_Get image_Decode).
Local Abbreviation paste_loop := (paste_loop Image Canvas imaging_Paste).
Local Abbreviation pool :=
  (Pool.downloadImagesWithWorkerPool worker_fetch imaging_Fill).

Local Abbreviation in_time := (in_time Body client_Get).

Lemma render_rendered grid : forall pictureUUIDs i combined,
  Grid.Cols grid <> 0 ->
  render grid i pictureUUIDs combined
  = Some (pasted imaging_Paste combined (rendered grid i pictureUUIDs)).
Proof.
  induction pictureUUIDs as [|uuid rest IH]; intros i combined Hc;
    cbn [Legacy.render Legacy.rendered]; [done|].
  destruct (_ <=? i); [done|].
  destruct (openRemoteImage _ _ _ _ _) as [img|e]; [|by apply IH].
  destruct (Z.eqb_spec (Grid.Cols grid) 0); [done|].
  rewrite IH by done. done.
Qed.

Lemma render_no_cell grid pictureUUIDs combined :
  Grid.Cols grid = 0 -> render grid 0 pictureUUIDs combined = Some combined.
Proof.
  intros E. destruct pictureUUIDs as [|uuid rest]; cbn [Legacy.render]; [done|].
  rewrite E. done.
Qed.

(** The cells from [k] on, of the map of the pool and of the loop. *)
Lemma placed_rendered grid pictureUUIDs :
  in_time pictureUUIDs ->
  forall n k,
    Z.of_nat n = Z.max 0 (Pool.slots grid - Z.of_nat k) ->
    placed grid (pool pictureUUIDs grid) n (Z.of_nat k)
    = rendered grid (Z.of_nat k) (drop k pictureUUIDs).
Proof.
  intros Htime. induction n as [|n IH]; intros k Hn; cbn [placed].
  - destruct (drop k pictureUUIDs) as [|uuid rest]; cbn [Legacy.rendered]; [done|].
    fold (Pool.slots grid).
    destruct (Z.leb_spec (Pool.slots grid) (Z.of_nat k)); [done|lia].
  - replace (Z.of_nat k + 1) with (Z.of_nat (S k)) by lia.
    rewrite IH by lia.
    destruct (pictureUUIDs !! k) as [uuid|] eqn:Hu.
    + rewrite (drop_S _ _ _ Hu). cbn [Legacy.rendered].
      fold (Pool.slots grid).
      destruct (Z.leb_spec (Pool.slots grid) (Z.of_nat k)); [lia|].
      assert (Hsame : openRemoteImage Image Body client_Get image_Decode
                        ("https://api.imreally.gay/assets/" +:+ uuid)
                      = worker_fetch (Pool.job_for grid (Z.of_nat k) uuid)).
      { unfold openRemoteImage, Remote.worker_fetch, openRemoteImageWithTimeout.
        cbn [Pool.URL Pool.job_for].
        change (30 * 1000000000) with 30000000000.
        rewrite Htime; [done|]. by eapply list_elem_of_lookup_2. }
      destruct (pool pictureUUIDs grid !! Z.of_nat k) as [img|] eqn:Hm.
      * apply PoolFacts.pool_map_lookup in Hm
          as (k' & uuid' & Hk & Hu' & _ & Ho).
        apply Nat2Z.inj in Hk as <-. rewrite Hu in Hu'. injection Hu' as <-.
        unfold Pool.outcome_at in Ho. rewrite Hsame.
        replace (Z.of_nat k + 1) with (Z.of_nat (S k)) by lia.
        destruct (worker_fetch _); by simplify_eq.
      * rewrite Hsame.
        replace (Z.of_nat k + 1) with (Z.of_nat (S k)) by lia.
        destruct (worker_fetch (Pool.job_for grid (Z.of_nat k) uuid))
          as [img|e] eqn:Hf; [|done].
        assert (pool pictureUUIDs grid !! Z.of_nat k
                = Some (imaging_Fill img (Grid.PicWidth grid)
                          (Grid.PicHeight grid))) as Hm'; [|congruence].
        apply PoolFacts.pool_map_lookup. exists k, uuid.
        split; [done|]. split; [done|]. split; [done|].
        unfold Pool.outcome_at. by rewrite Hf.
    + destruct (pool pictureUUIDs grid !! Z.of_nat k) as [img|] eqn:Hm.
      { apply PoolFacts.pool_map_lookup in Hm
          as (k' & uuid' & Hk & Hu' & _).
        apply Nat2Z.inj in Hk as <-. congruence. }
      rewrite (drop_ge _ (S k)), (drop_ge _ k); [done|..];
        apply lookup_ge_None in Hu; lia.
Qed.

(** The loop of the first version and the pool of the second paste the
    same images at the same places. *)
Lemma render_paste_loop grid pictureUUIDs combined :
  in_time pictureUUIDs ->
  render grid 0 pictureUUIDs combined
  = paste_loop grid (pool pictureUUIDs grid)
      (Z.to_nat (GoInt.mul (Grid.Cols grid) (Grid.Rows grid))) 0 combined.
Proof.
  intros Htime. destruct (Z.eq_dec (Grid.Cols grid) 0) as [E|Hne].
  - rewrite render_no_cell by done. rewrite E.
    change (GoInt.mul 0 (Grid.Rows grid)) with 0. done.
  - rewrite render_rendered, LayoutFacts.paste_loop_pasted by done.
    f_equal. f_equal. symmetry.
    apply (placed_rendered grid pictureUUIDs Htime _ 0%nat).
    unfold Pool.slots. lia.
Qed.

(** The loop of the first version with the one library and with the
    other, when the two compute the same. *)
Lemma render_same_library grid :
  (forall combined img x y,
     disintegration_Paste combined img x y = imaging_Paste combined img x y) ->
  (forall img w h, disintegration_Fill img w h = imaging_Fill img w h) ->
  (forall body, disintegration_Decode body = image_Decode body) ->
  forall pictureUUIDs i combined,
    Legacy.render Image Canvas Body disintegration_Paste disintegration_Fill
      client_Get disintegration_Decode grid i pictureUUIDs combined
    = render grid i pictureUUIDs combined.
Proof.
  intros Hpaste Hfill Hdec.
  induction pictureUUIDs as [|uuid rest IH]; intros i combined;
    cbn [Legacy.render]; [done|].
  destruct (_ <=? i); [done|].
  unfold openRemoteImage.
  destruct (client_Get 0 _) as [e|code body]; [by apply IH|].
  destruct (negb (code =? 200)); [by apply IH|].
  rewrite Hdec. destruct (image_Decode body) as [img|e]; [|by apply IH].
  destruct (Grid.Cols grid =? 0); [done|].
  rewrite Hfill, Hpaste. by apply IH.
Qed.

(** The second version of [main] renders what the first did, as far as
    the libraries do.  The first version is built on
    [disintegration/imaging], the second on [kovidgoyal/imaging]; when
    the two compute the same [New], [Paste] and [Fill] and the same
    bodies decode to the same images, and when no download runs into
    the timeout that the pool adds, the loop of the first version
    (download, resize and paste picture by picture, stop at the last
    cell, skip a failed download) leaves the canvas that the second
    version gets from the map of its pool; so the closure of the second
    version returns the bytes [buf] if and only if the handler of the
    first version sends them with the status 200, and one panics if and
    only if the other does. *)
Theorem the_pool_renders_what_the_loop_rendered reply :
  (forall width height,
     disintegration_New width height = imaging_New width height) ->
  (forall combined img x y,
     disintegration_Paste combined img x y = imaging_Paste combined img x y) ->
  (forall img w h, disintegration_Fill img w h = imaging_Fill img w h) ->
  (forall body, disintegration_Decode body = image_Decode body) ->
  (forall statusCode Data, reply = ApiAnswered statusCode Data ->
     in_time (Picture <$> Data)) ->
  (forall grid pictureUUIDs combined,
     in_time pictureUUIDs ->
     Legacy.render Image Canvas Body disintegration_Paste disintegration_Fill
       client_Get disintegration_Decode grid 0 pictureUUIDs combined
     = paste_loop grid (pool pictureUUIDs grid)
         (Z.to_nat (GoInt.mul (Grid.Cols grid) (Grid.Rows grid))) 0 combined) /\
  (forall buf,
     wall_generator Image Canvas imaging_New imaging_Paste imaging_Fill
       jpeg_Encode {| api := reply; fetch := worker_fetch |}
     = Some (inl buf, {| api := reply; fetch := worker_fetch |}) <->
     Legacy.handle Image Canvas Body disintegration_New disintegration_Paste
       disintegration_Fill jpeg_Encode client_Get disintegration_Decode reply
     = Some (Sent {| status := 200;
                     headers :=
                       [("Content-Type", "image/jpeg");
                        ("Content-Length",
                         string_of_rune (rune (Z.of_nat (length buf))))];
                     body := Raw buf |})) /\
  (wall_generator Image Canvas imaging_New imaging_Paste imaging_Fill
     jpeg_Encode {| api := reply; fetch := worker_fetch |} = None <->
   Legacy.handle Image Canvas Body disintegration_New disintegration_Paste
     disintegration_Fill jpeg_Encode client_Get disintegration_Decode reply
   = None).
Proof.
  intros Hnew Hpaste Hfill Hdec Htime.
  pose proof (fun grid => render_same_library grid Hpaste Hfill Hdec) as Hsame.
  split.
  { intros grid pictureUUIDs combined Hin. rewrite Hsame.
    by apply render_paste_loop. }
  unfold Handler.wall_generator, Legacy.handle. cbn [api fetch].
  destruct reply as [cause|code Data].
  { split; [|done]. intros buf. done. }
  specialize (Htime _ _ eq_refl).
  destruct (negb (code =? 200)).
  { split; [|done]. intros buf. done. }
  destruct (length (Picture <$> Data) =? 0)%nat.
  { split; [|done]. intros buf. done. }
  destruct (Grid.calculateOptimalGrid _ _ _) as [grid|]; [|done].
  cbn [mbind option_bind].
  rewrite Hsame, Hnew, (render_paste_loop grid _ _ Htime).
  destruct (paste_loop _ _ _ _ _) as [combined|]; [|done].
  cbn [mbind option_bind].
  destruct (jpeg_Encode combined) as [buf'|e]; [|split; [|done]; intros buf; done].
  split; [|done]. intros buf. split; intros E; by simplify_eq.
Qed.

End TwoVersions.

Lemma the_pool_renders_what_the_loop_rendered_witness :
  (forall grid pictureUUIDs (combined : list (string * Z * Z)),
     in_time string assets pictureUUIDs ->
     Legacy.render string (list (string * Z * Z)) string SampleWall.paste
       Sample.fill assets decode grid 0 pictureUUIDs combined
     = paste_loop string (list (string * Z * Z)) SampleWall.paste grid
         (Pool.downloadImagesWithWorkerPool
            (worker_fetch string string assets decode) Sample.fill
            pictureUUIDs grid)
         (Z.to_nat (GoInt.mul (Grid.Cols grid) (Grid.Rows grid))) 0 combined) /\
  (forall buf,
     wall_generator (F := exact) string (list (string * Z * Z))
       SampleWall.blank SampleWall.paste Sample.fill SampleWall.encode
       {| api := ApiAnswered 200 [SampleWall.item "a"; SampleWall.item "b"];
          fetch := worker_fetch string string assets decode |}
     = Some (inl buf,
             {| api := ApiAnswered 200 [SampleWall.item "a"; SampleWall.item "b"];
                fetch := worker_fetch string string assets decode |}) <->
     Legacy.handle (F := exact) string (list (string * Z * Z)) string
       SampleWall.blank SampleWall.paste Sample.fill SampleWall.encode
       assets decode
       (ApiAnswered 200 [SampleWall.item "a"; SampleWall.item "b"])
     = Some (Sent {| status := 200;
                     headers :=
                       [("Content-Type", "image/jpeg");
                        ("Content-Length",
                         string_of_rune (rune (Z.of_nat (length buf))))];
                     body := Raw buf |})) /\
  (wall_generator (F := exact) string (list (string * Z * Z))
     SampleWall.blank SampleWall.paste Sample.fill SampleWall.encode
     {| api := ApiAnswered 200 [SampleWall.item "a"; SampleWall.item "b"];
        fetch := worker_fetch string string assets decode |} = None <->
   Legacy.handle (F := exact) string (list (string * Z * Z)) string
     SampleWall.blank SampleWall.paste Sample.fill SampleWall.encode
     assets decode
     (ApiAnswered 200 [SampleWall.item "a"; SampleWall.item "b"]) = None).
Proof.
  apply (the_pool_renders_what_the_loop_rendered (F := exact) string
           (list (string * Z * Z)) string
           SampleWall.blank SampleWall.paste Sample.fill decode
           SampleWall.blank SampleWall.paste Sample.fill decode
           SampleWall.encode assets
           (ApiAnswered 200 [SampleWall.item "a"; SampleWall.item "b"]));
    try reflexivity.
  intros code Data _ uuid _. reflexivity.
Defined.

(** The sample: the first version sends the two bytes of the one tile
    that could be downloaded after the four of the header. *)
Example legacy_sample :
  Legacy.handle (F := exact) string (list (string * Z * Z)) string
    SampleWall.blank SampleWall.paste Sample.fill SampleWall.encode
    assets decode
    (ApiAnswered 200 [SampleWall.item "a"; SampleWall.item "b"])
  = Some (Sent {| status := 200;
                  headers := [("Content-Type", "image/jpeg");
                              ("Content-Length", String (byte_of 5) "")];
                  body := Raw (Sample.jpeg ++ [Byte.x00]) |}).
Proof. vm_compute. reflexivity. Qed.

End LegacyFacts.

(** ** The [Content-Length] of the first version *)

Module LegacyLength.
Import DecimalZ DecimalPos.
Import Handler Legacy.
Local Open Scope Z_scope.

Lemma to_int_not_nil n :
  Z.to_int n <> Decimal.Pos Decimal.Nil /\ Z.to_int n <> Decimal.Neg Decimal.Nil.
Proof.
  destruct n as [|p|p]; simpl; [done| |].
  - split; [|done]. intros [= E]. by apply Unsigned.to_uint_nonnil in E.
  - split; [done|]. intros [= E]. by apply Unsigned.to_uint_nonnil in E.
Qed.

(** [%d] prints different numbers differently. *)
Lemma fmt_d_inj n m : fmt_d n = fmt_d m -> n = m.
Proof.
  unfold fmt_d. intros E. apply to_int_inj.
  destruct (to_int_not_nil n), (to_int_not_nil m).
  assert (Some (Z.to_int n) = Some (Z.to_int m)) as [= ->]; [|done].
  rewrite <- (NilZero.isi (Z.to_int n)), <- (NilZero.isi (Z.to_int m)) by done.
  by rewrite E.
Qed.

Lemma fmt_d_head n :
  0 <= n -> exists a s, fmt_d n = String a s /\ is_digit a = true.
Proof.
  intros Hn. unfold fmt_d. destruct n as [|p|p]; [by eexists _, _| |lia].
  simpl. unfold NilZero.string_of_uint.
  destruct (Pos.to_uint p); simpl; by eexists _, _.
Qed.

Lemma is_digit_byte_of r :
  0 <= r < 256 -> is_digit (byte_of r) = true -> 48 <= r <= 57.
Proof.
  intros Hr. unfold is_digit, byte_of.
  rewrite N_ascii_embedding by lia.
  intros Hd. apply andb_true_iff in Hd as [H1 H2].
  apply N.leb_le in H1, H2. lia.
Qed.

Lemma below (k : Z) (f : Z -> bool) :
  forallb f (seqZ 0 k) = true -> forall x, 0 <= x < k -> f x = true.
Proof.
  intros Hall x Hx. rewrite forallb_forall in Hall. apply Hall.
  apply list_elem_of_In, elem_of_seqZ. lia.
Qed.

Lemma lead_byte (lead k : Z) x :
  forallb (fun x => negb (is_digit (byte_of (Z.lor lead x)))) (seqZ 0 k) = true ->
  0 <= x < k -> is_digit (byte_of (Z.lor lead x)) = false.
Proof.
  intros Hall Hx. apply negb_true_iff.
  by apply (below k (fun x => negb (is_digit (byte_of (Z.lor lead x))))).
Qed.

(** The first version of the handler sets [Content-Length] to
    [string(rune(buf.Len()))]: the UTF-8 encoding of the code point
    whose number is the length, four bytes at most, and for no length
    the decimal number that the second version prints with [%d], which
    reads back as the length. *)
Theorem legacy_content_length_is_no_number n :
  0 <= n ->
  string_of_rune (rune n) <> fmt_d n /\
  (String.length (string_of_rune (rune n)) <= 4)%nat /\
  Z.of_int <$> NilZero.int_of_string (fmt_d n) = Some n.
Proof.
  intros Hn. split; [|split].
  2:{ unfold string_of_rune. repeat case_match; simpl; lia. }
  2:{ unfold fmt_d. destruct (to_int_not_nil n).
      rewrite NilZero.isi by done. simpl. by rewrite of_to. }
  intros Heq. destruct (fmt_d_head n Hn) as (a & s & Hf & Hd).
  rewrite Hf in Heq. unfold string_of_rune in Heq.
  set (r := rune n) in *.
  destruct (_ || _ || _) eqn:Hvalid.
  { injection Heq as <- _. vm_compute in Hd. done. }
  apply orb_false_iff in Hvalid as [Hvalid _].
  apply orb_false_iff in Hvalid as [Hneg Hmax].
  apply Z.ltb_ge in Hneg, Hmax.
  destruct (Z.ltb_spec r 128).
  { injection Heq as <- <-.
    pose proof (is_digit_byte_of r ltac:(lia) Hd) as Hr.
    assert (fmt_d (r - 48) = String (byte_of r) "") as Hsmall.
    { assert (r = 48 \/ r = 49 \/ r = 50 \/ r = 51 \/ r = 52 \/ r = 53 \/
              r = 54 \/ r = 55 \/ r = 56 \/ r = 57) as Hc by lia.
      destruct Hc as [->|[->|[->|[->|[->|[->|[->|[->|[->| ->]]]]]]]]];
        vm_compute; reflexivity. }
    rewrite <- Hf in Hsmall. apply fmt_d_inj in Hsmall.
    subst r. unfold rune in *. rewrite <- Hsmall in Hr at 1.
    assert ((rune n - 48 + 2 ^ 31) mod 2 ^ 32 - 2 ^ 31 = rune n) as E.
    { unfold rune. by rewrite Hsmall. }
    unfold rune in E. rewrite Z.mod_small in E; lia. }
  destruct (Z.ltb_spec r 2048).
  { injection Heq as <- _.
    rewrite (lead_byte 192 32) in Hd; [done|by vm_compute|].
    rewrite Z.shiftr_div_pow2 by lia.
    split; [apply Z.div_pos; lia|apply Z.div_lt_upper_bound; lia]. }
  destruct (Z.ltb_spec r 65536).
  { injection Heq as <- _.
    rewrite (lead_byte 224 16) in Hd; [done|by vm_compute|].
    rewrite Z.shiftr_div_pow2 by lia.
    split; [apply Z.div_pos; lia|apply Z.div_lt_upper_bound; lia]. }
  injection Heq as <- _.
  rewrite (lead_byte 240 8) in Hd; [done|by vm_compute|].
  rewrite Z.shiftr_div_pow2 by lia.
  split; [apply Z.div_pos; lia|apply Z.div_lt_upper_bound; lia].
Qed.

Lemma legacy_content_length_is_no_number_witness :
  string_of_rune (rune 65) <> fmt_d 65 /\
  (String.length (string_of_rune (rune 65)) <= 4)%nat /\
  Z.of_int <$> NilZero.int_of_string (fmt_d 65) = Some 65.
Proof. apply (legacy_content_length_is_no_number 65). lia. Defined.

Example legacy_content_length_sample :
  string_of_rune (rune 65) = "A" /\ fmt_d 65 = "65".
Proof. split; reflexivity. Qed.

End LegacyLength.
